(** * Transit routing engine: graph builder, path search, trip assembler

    A shallow embedding of [services/routing_cal.py] and of the
    [find_route] handler of [routes/bus_route.py], with the properties of
    the engine proved over it.

    Conventions of the embedding.
    - Python [float] values are exact rationals ([Q]); [float("inf")] is the
      [None] of an [option Q].  Results about costs are stated up to [==].
    - Python [dict]s that are only read by key are [gmap]s; the two
      [defaultdict(list)] groupings of [build_graph], whose [.items()] order
      decides the order in which edges are appended, are association lists
      in insertion order.  Reading a missing key of a [defaultdict] gives the
      empty list.
    - Exceptions are the [Raise] results of a small error monad; a loop whose
      termination is not structural takes fuel and answers [OutOfFuel] when
      it runs out.
    - The PostGIS functions and the functions of Python's [math] module are
      not code of the repository: they are parameters ([PostGIS],
      [MathLib]).
    - A stop-assignment carries its direction, its route and its stop (the
      query loads them with [joinedload]); its foreign keys are integers. *)

From Stdlib Require Import ZArith QArith Qabs Qround Lqa Lia Sorted.
From stdpp Require Import gmap list strings.

Open Scope Q_scope.

(** ** Python results *)

Inductive exn : Type :=
| TypeError
| KeyError (key : Z)
| IndexError
| HTTPException (status : Z) (detail : string).

Inductive result (A : Type) : Type :=
| Ok (a : A)
| Raise (e : exn)
| OutOfFuel.

Arguments Ok {A} a.
Arguments Raise {A} e.
Arguments OutOfFuel {A}.

#[global] Instance result_ret : MRet result := fun A a => Ok a.
#[global] Instance result_bind : MBind result := fun A B f m =>
  match m with
  | Ok a => f a
  | Raise e => Raise e
  | OutOfFuel => OutOfFuel
  end.

(** [for x in xs: body] over a threaded state, stopping at the first
    exception. *)
Fixpoint for_each {A S : Type} (xs : list A) (body : A → S → result S) (s : S)
  : result S :=
  match xs with
  | [] => Ok s
  | x :: xs' => s' ← body x s; for_each xs' body s'
  end.

(** [x - y] on values that may be [None]: Python raises [TypeError] when an
    operand is [None]. *)
Definition py_sub (x y : option Q) : result Q :=
  match x, y with
  | Some a, Some b => Ok (a - b)
  | _, _ => Raise TypeError
  end.

(** [d[k]] on a plain dict. *)
Definition py_getitem {V : Type} (d : gmap Z V) (k : Z) : result V :=
  match d !! k with
  | Some v => Ok v
  | None => Raise (KeyError k)
  end.

(** [x < y] and [x > y] where [y] may be [float("inf")]. *)
Definition Qlt_inf (x : Q) (y : option Q) : bool :=
  match y with
  | None => true
  | Some y' => if Qlt_le_dec x y' then true else false
  end.

Definition Qgt_inf (x : Q) (y : option Q) : bool :=
  match y with
  | None => false
  | Some y' => if Qlt_le_dec y' x then true else false
  end.

(** ** Data model ([db/models.py]) *)

Definition point : Type := Q * Q.

Record Route : Type := {
  route_ident : Z;
  route_name : string;
  bus_type : option string;
  ticket_price : option Z
}.

Record Direction : Type := {
  direction_ident : Z;
  direction_label : string;
  sub_name : option string;
  route : Route
}.

Record Stop : Type := {
  stop_ident : Z;
  stop_name : string;
  lat : Q;
  lng : Q;
  location : point
}.

Record RouteStop : Type := {
  rs_id : Z;
  rs_direction_id : Z;
  rs_stop_id : Z;
  rs_order : Z;
  distance_from_start : option Q;
  rs_direction : Direction;
  rs_stop : Stop
}.

(** The two tables the engine reads. *)
Record DB : Type := {
  tbl_route_stops : list RouteStop;
  tbl_stops : list Stop
}.

(** The spatial index: [ST_DWithin a b r] and [ST_Distance a b] (metres). *)
Record PostGIS : Type := {
  ST_DWithin : point → point → Q → bool;
  ST_Distance : point → point → Q
}.

(** ** The graph: a [defaultdict(list)] from node id to [(neighbour, weight)] *)

Abbreviation graph := (gmap Z (list (Z * Q))).

Definition adj (g : graph) (u : Z) : list (Z * Q) := default [] (g !! u).

(** [graph[a].append(e)] *)
Definition graph_append (a : Z) (e : Z * Q) (g : graph) : graph :=
  <[a := adj g a ++ [e]]> g.

(** ** Grouping: [defaultdict(list)] in insertion order *)

Fixpoint dd_append (k : Z) (v : RouteStop) (d : list (Z * list RouteStop))
  : list (Z * list RouteStop) :=
  match d with
  | [] => [(k, [v])]
  | (k', vs) :: d' =>
      if decide (k' = k) then (k', vs ++ [v]) :: d'
      else (k', vs) :: dd_append k v d'
  end.

Fixpoint dd_get (k : Z) (d : list (Z * list RouteStop)) : list RouteStop :=
  match d with
  | [] => []
  | (k', vs) :: d' => if decide (k' = k) then vs else dd_get k d'
  end.

Definition group_by (key : RouteStop → Z) (rss : list RouteStop)
  : list (Z * list RouteStop) :=
  fold_left (fun d rs => dd_append (key rs) rs d) rss [].

(** [stops.sort(key=lambda x: x.order)]: a stable sort. *)
Fixpoint insert_by_order (x : RouteStop) (l : list RouteStop) : list RouteStop :=
  match l with
  | [] => [x]
  | y :: l' =>
      if (rs_order x <=? rs_order y)%Z then x :: l
      else y :: insert_by_order x l'
  end.

Definition sort_by_order (l : list RouteStop) : list RouteStop :=
  foldr insert_by_order [] l.

(** ** [build_graph] *)

(** The constants local to [build_graph]; its [WALK_WEIGHT] is not the
    [WALK_WEIGHT] of [find_route]. *)
Definition WALK_WEIGHT_GRAPH : Q := 3.0.
Definition TRANSFER_PENALTY : Q := 0.6.
Definition MAX_WALK_TRANSFER_METERS : Q := 300.

Definition is_not_none {A : Type} (o : option A) : bool :=
  match o with Some _ => true | None => false end.

(** Pass 1 over one direction: [for i in range(len(stops) - 1)] walks the
    adjacent pairs [stops[i], stops[i + 1]]. *)
Fixpoint ride_edges_dir (stops : list RouteStop) (g : graph) : result graph :=
  match stops with
  | a :: ((b :: _) as rest) =>
      g' ← (if is_not_none (distance_from_start a)
               && is_not_none (distance_from_start b)
            then w ← py_sub (distance_from_start b) (distance_from_start a);
                 Ok (graph_append (rs_id a) (rs_id b, w) g)
            else Ok g);
      ride_edges_dir rest g'
  | _ => Ok g
  end.

Definition ride_edges_pass (rs_by_dir : list (Z * list RouteStop)) (g : graph)
  : result graph :=
  for_each rs_by_dir (fun '(_, stops) g => ride_edges_dir (sort_by_order stops) g) g.

Section GraphBuilder.
Variable gis : PostGIS.

(** The SQL self-join of [stops] (lines 81-88). *)
Definition nearby_pairs_query (db : DB) (dist : Q) : list (Z * Z * Q) :=
  a ← tbl_stops db;
  b ← tbl_stops db;
  if ST_DWithin gis (location a) (location b) dist
     && negb (stop_ident a =? stop_ident b)%Z
  then [(stop_ident a, stop_ident b,
         ST_Distance gis (location a) (location b) / 1000)]
  else [].

(** Pass 2. *)
Definition walking_pass (rs_by_stop : list (Z * list RouteStop))
    (nearby_pairs : list (Z * Z * Q)) (g : graph) : result graph :=
  for_each nearby_pairs (fun '(stop_a_id, stop_b_id, dist_km) g =>
    for_each (dd_get stop_a_id rs_by_stop) (fun rs_a g =>
      for_each (dd_get stop_b_id rs_by_stop) (fun rs_b g =>
        if decide (rs_direction_id rs_a ≠ rs_direction_id rs_b)
        then let weight := dist_km * WALK_WEIGHT_GRAPH + TRANSFER_PENALTY in
             Ok (graph_append (rs_id rs_a) (rs_id rs_b, weight) g)
        else Ok g) g) g) g.

(** Pass 3. *)
Definition same_stop_pass (rs_by_stop : list (Z * list RouteStop)) (g : graph)
  : result graph :=
  for_each rs_by_stop (fun '(_, rs_list) g =>
    for_each rs_list (fun a g =>
      for_each rs_list (fun b g =>
        if decide (rs_direction_id a ≠ rs_direction_id b)
        then Ok (graph_append (rs_id a) (rs_id b, TRANSFER_PENALTY) g)
        else Ok g) g) g) g.

(** [{rs.id: rs for rs in route_stops}] *)
Definition make_rs_map (rss : list RouteStop) : gmap Z RouteStop :=
  fold_left (fun m rs => <[rs_id rs := rs]> m) rss ∅.

(** Lines 48-103 and 107: the build proper. *)
Definition build_fresh (db : DB)
  : result (graph * list RouteStop * gmap Z RouteStop) :=
  let route_stops := tbl_route_stops db in
  let rs_by_dir := group_by rs_direction_id route_stops in
  let rs_by_stop := group_by rs_stop_id route_stops in
  g1 ← ride_edges_pass rs_by_dir ∅;
  let nearby_pairs := nearby_pairs_query db MAX_WALK_TRANSFER_METERS in
  g2 ← walking_pass rs_by_stop nearby_pairs g1;
  g3 ← same_stop_pass rs_by_stop g2;
  Ok (g3, route_stops, make_rs_map route_stops).

(** The three module globals [CACHED_GRAPH], [CACHED_ROUTE_STOPS] and
    [CACHED_RS_MAP] are set together: one optional triple. *)
Definition build_graph (db : DB)
    (cache : option (graph * list RouteStop * gmap Z RouteStop))
  : result (graph * list RouteStop * gmap Z RouteStop)
    * option (graph * list RouteStop * gmap Z RouteStop) :=
  match cache with
  | Some cached => (Ok cached, cache)
  | None =>
      match build_fresh db with
      | Ok built => (Ok built, Some built)
      | failed => (failed, None)
      end
  end.
End GraphBuilder.

(** ** [dijkstra] *)

(** [heapq] on [(cost, node)] tuples: the frontier is a bag of entries and
    [heappop] takes out the least one in the lexicographic order of tuples. *)
Definition entry_le (x y : Q * Z) : bool :=
  match fst x ?= fst y with
  | Lt => true
  | Eq => (snd x <=? snd y)%Z
  | Gt => false
  end.

Definition heappush (pq : list (Q * Z)) (e : Q * Z) : list (Q * Z) := e :: pq.

Fixpoint heappop (pq : list (Q * Z)) : option ((Q * Z) * list (Q * Z)) :=
  match pq with
  | [] => None
  | x :: rest =>
      match heappop rest with
      | None => Some (x, [])
      | Some (m, rest') =>
          if entry_le x m then Some (x, rest) else Some (m, x :: rest')
      end
  end.

Record search_state : Type := {
  dist : gmap Z Q;
  prev : gmap Z Z;
  pq : list (Q * Z);
  best_end : option Z;
  best_dist : option Q
}.

(** Lines 117-119.  The frontier is a bag, so the order in which [.items()]
    yields the start nodes does not matter. *)
Definition search_init (start_rs_costs : gmap Z Q) : search_state :=
  let '(dist, pq) :=
    fold_left (fun '(dist, pq) '(rs_id, cost) =>
                 (<[rs_id := cost]> dist, heappush pq (cost, rs_id)))
              (map_to_list start_rs_costs) (∅, []) in
  {| dist := dist; prev := ∅; pq := pq; best_end := None; best_dist := None |}.

(** Lines 139-144, one edge. *)
Definition relax (cur : Z) (cur_dist : Q)
    (st : gmap Z Q * gmap Z Z * list (Q * Z)) (e : Z * Q)
  : gmap Z Q * gmap Z Z * list (Q * Z) :=
  let '(dist, prev, pq) := st in
  let '(nxt, w) := e in
  let nd := cur_dist + w in
  if Qlt_inf nd (dist !! nxt)
  then (<[nxt := nd]> dist, <[nxt := cur]> prev, heappush pq (nd, nxt))
  else st.

(** Lines 133-137. *)
Definition update_best (end_stop_costs : gmap Z Q) (rs : RouteStop)
    (cur : Z) (cur_dist : Q) (best : option Z * option Q)
  : option Z * option Q :=
  match end_stop_costs !! rs_stop_id rs with
  | Some c =>
      let total := cur_dist + c in
      if Qlt_inf total (snd best) then (Some cur, Some total) else best
  | None => best
  end.

(** Lines 124-146: the [while pq] loop. *)
Fixpoint dijkstra_loop (fuel : nat) (g : graph) (end_stop_costs : gmap Z Q)
    (rs_map : gmap Z RouteStop) (st : search_state)
  : result (option Z * gmap Z Z) :=
  match heappop (pq st) with
  | None => Ok (best_end st, prev st)
  | Some ((cur_dist, cur), pq') =>
      match fuel with
      | O => OutOfFuel
      | S fuel' =>
          if Qgt_inf cur_dist (dist st !! cur)
          then dijkstra_loop fuel' g end_stop_costs rs_map
                 {| dist := dist st; prev := prev st; pq := pq';
                    best_end := best_end st; best_dist := best_dist st |}
          else
            rs ← py_getitem rs_map cur;
            let '(best_end', best_dist') :=
              update_best end_stop_costs rs cur cur_dist
                          (best_end st, best_dist st) in
            let '(dist', prev', pq'') :=
              fold_left (relax cur cur_dist) (adj g cur)
                        (dist st, prev st, pq') in
            dijkstra_loop fuel' g end_stop_costs rs_map
              {| dist := dist'; prev := prev'; pq := pq'';
                 best_end := best_end'; best_dist := best_dist' |}
      end
  end.

Definition dijkstra (fuel : nat) (g : graph) (start_rs_costs : gmap Z Q)
    (end_stop_costs : gmap Z Q) (rs_map : gmap Z RouteStop)
  : result (option Z * gmap Z Z) :=
  dijkstra_loop fuel g end_stop_costs rs_map (search_init start_rs_costs).

(** ** [rebuild_path] *)

Fixpoint rebuild_loop (fuel : nat) (prev : gmap Z Z) (end_id : Z)
    (path : list Z) : result (list Z) :=
  match prev !! end_id with
  | None => Ok path
  | Some p =>
      match fuel with
      | O => OutOfFuel
      | S fuel' => rebuild_loop fuel' prev p (path ++ [p])
      end
  end.

Definition rebuild_path (fuel : nat) (end_id : Z) (prev : gmap Z Z)
  : result (list Z) :=
  path ← rebuild_loop fuel prev end_id [end_id];
  Ok (reverse path).

(** ** [haversine] and [find_nearby_stops] *)

(** The functions of Python's [math] module that [haversine] calls. *)
Record MathLib : Type := {
  m_pi : Q;
  m_sin : Q → Q;
  m_cos : Q → Q;
  m_asin : Q → Q;
  m_sqrt : Q → Q
}.

Definition radians (M : MathLib) (x : Q) : Q := x * (m_pi M / 180).

Definition haversine (M : MathLib) (lat1 lng1 lat2 lng2 : Q) : Q :=
  let R := 6371 in
  let lat1 := radians M lat1 in
  let lng1 := radians M lng1 in
  let lat2 := radians M lat2 in
  let lng2 := radians M lng2 in
  let dlat := lat2 - lat1 in
  let dlng := lng2 - lng1 in
  let a := m_sin M (dlat / 2) ^ 2
           + m_cos M lat1 * m_cos M lat2 * m_sin M (dlng / 2) ^ 2 in
  2 * R * m_asin M (m_sqrt M a).

(** [ORDER BY distance] *)
Fixpoint insert_by_distance (x : Stop * Q) (l : list (Stop * Q))
  : list (Stop * Q) :=
  match l with
  | [] => [x]
  | y :: l' =>
      if Qle_bool (snd x) (snd y) then x :: l
      else y :: insert_by_distance x l'
  end.

Definition find_nearby_stops (gis : PostGIS) (db : DB) (lat lng : Q)
    (max_walk_km : Q) : list (Stop * Q) :=
  let user_location : point := (lng, lat) in
  let results :=
    foldr insert_by_distance []
      (map (fun s => (s, ST_Distance gis (location s) user_location))
           (filter (fun s => ST_DWithin gis (location s) user_location
                               (max_walk_km * 1000) = true)
                   (tbl_stops db))) in
  map (fun '(stop, dist) => (stop, dist / 1000.0)) results.

(** ** [round] *)

Definition round_half_even (x : Q) : Z :=
  let f := Qfloor x in
  match Qcompare (x - inject_Z f) (1 # 2) with
  | Lt => f
  | Gt => (f + 1)%Z
  | Eq => if Z.even f then f else (f + 1)%Z
  end.

Definition py_round (x : Q) (ndigits : nat) : Q :=
  let scale := inject_Z (10 ^ Z.of_nat ndigits) in
  inject_Z (round_half_even (x * scale)) / scale.

(** ** [find_route]: request and response ([schemas/bus_schema.py]) *)

Record Location : Type := { loc_lat : Q; loc_lng : Q }.

Record RouteRequest : Type := {
  from_location : Location;
  to_location : Location
}.

Record StopInfo : Type := {
  si_id : Z;
  si_name : string;
  si_lat : Q;
  si_lng : Q
}.

Record TransferInfo : Type := {
  from_stop : Stop;
  to_stop : Stop;
  walk_dist_km : Q;
  walk_duration_mins : Q;
  is_same_stop : bool
}.

Record RouteSummary : Type := {
  summary_name : string;
  summary_bus_type : option string;
  summary_ticket_price : Q
}.

Record DirectionSummary : Type := {
  summary_direction : string;
  summary_sub_name : option string;
  segment_distance_km : Q;
  segment_duration_mins : Q
}.

Record RouteSegment : Type := {
  transfer_from_previous : option TransferInfo;
  segment_route : RouteSummary;
  segment_direction : DirectionSummary;
  segment_stops : list StopInfo
}.

Record TripSummary : Type := {
  trip_total_duration_mins : Q;
  trip_total_cost : Q;
  trip_total_walking_distance_km : Q;
  trip_walking_duration_mins : Q;
  trip_from_stop : StopInfo;
  trip_to_stop : StopInfo;
  trip_walking_distance_to_start_km : Q;
  trip_walking_distance_to_end_km : Q
}.

Record FindRouteResponse : Type := {
  summary : TripSummary;
  route_segments : list RouteSegment
}.

Definition stop_info (s : Stop) : StopInfo :=
  {| si_id := stop_ident s; si_name := stop_name s;
     si_lat := lat s; si_lng := lng s |}.

(** ** [find_route]: the Trip Assembler *)

Definition WALK_WEIGHT : Q := 1.5.
Definition MAX_CANDIDATES : nat := 3.
Definition WALK_SPEED_MIN_KM : Q := 10.0.
Definition TRANSIT_SPEED_MIN_KM : Q := 2.0.
Definition STOP_PENALTY_MIN : Q := 0.3.
Definition DEFAULT_TICKET_PRICE : Q := 0.0.

Definition py_first {A : Type} (l : list A) : result A :=
  match l with
  | x :: _ => Ok x
  | [] => Raise IndexError
  end.

Definition py_last {A : Type} (l : list A) : result A :=
  match last l with
  | Some x => Ok x
  | None => Raise IndexError
  end.

Definition py_index {A : Type} (l : list A) (i : nat) : result A :=
  match l !! i with
  | Some x => Ok x
  | None => Raise IndexError
  end.

(** Lines 66-70: the body of the grouping loop, after the lookup. *)
Definition group_step (st : list (list RouteStop) * list RouteStop)
    (rs : RouteStop) : list (list RouteStop) * list RouteStop :=
  let '(segments, current) := st in
  match last current with
  | None => (segments, current ++ [rs])
  | Some l =>
      if decide (rs_direction_id l = rs_direction_id rs)
      then (segments, current ++ [rs])
      else (segments ++ [current], [rs])
  end.

(** Lines 62-71. *)
Definition group_segments (rs_map : gmap Z RouteStop) (path_ids : list Z)
  : result (list (list RouteStop)) :=
  '(segments, current) ←
    for_each path_ids
      (fun rs_id st => rs ← py_getitem rs_map rs_id; Ok (group_step st rs))
      ([], []);
  Ok (segments ++ [current]).

(** [float(ticket_price or DEFAULT_TICKET_PRICE)] *)
Definition ticket_price_or_default (p : option Z) : Q :=
  match p with
  | Some p' => if (p' =? 0)%Z then DEFAULT_TICKET_PRICE else inject_Z p'
  | None => DEFAULT_TICKET_PRICE
  end.

(** The accumulators of the loop of lines 79-125. *)
Record assembly : Type := {
  total_duration_mins : Q;
  total_cost : Q;
  total_dist_km : Q;
  route_segments_data : list RouteSegment
}.

(** Lines 80-125: one turn of the loop over [enumerate(segments)]. *)
Definition assemble_segment (M : MathLib) (segments : list (list RouteStop))
    (i_seg : nat * list RouteStop) (acc : assembly) : result assembly :=
  let '(i, seg) := i_seg in
  seg_last ← py_last seg;
  seg_first ← py_first seg;
  d ← py_sub (distance_from_start seg_last) (distance_from_start seg_first);
  let seg_dist := Qabs d in
  let seg_duration :=
    seg_dist * TRANSIT_SPEED_MIN_KM
    + inject_Z (Z.of_nat (length seg)) * STOP_PENALTY_MIN in
  let seg_cost :=
    ticket_price_or_default (ticket_price (route (rs_direction seg_first))) in
  let duration1 := total_duration_mins acc + seg_duration in
  let cost1 := total_cost acc + seg_cost in
  let dist1 := total_dist_km acc + seg_dist in
  '(transfer_info, duration2, dist2) ←
    (if (0 <? i)%nat then
       prev_seg ← py_index segments (i - 1);
       prev_last ← py_last prev_seg;
       let prev_stop := rs_stop prev_last in
       let curr_stop := rs_stop seg_first in
       let t_dist_km :=
         haversine M (lat prev_stop) (lng prev_stop)
                     (lat curr_stop) (lng curr_stop) in
       let t_duration := py_round (t_dist_km * WALK_SPEED_MIN_KM) 1 in
       Ok (Some {| from_stop := prev_stop; to_stop := curr_stop;
                   walk_dist_km := py_round t_dist_km 3;
                   walk_duration_mins := t_duration;
                   is_same_stop :=
                     (stop_ident prev_stop =? stop_ident curr_stop)%Z |},
           duration1 + t_duration, dist1 + t_dist_km)
     else Ok (None, duration1, dist1));
  Ok {| total_duration_mins := duration2;
        total_cost := cost1;
        total_dist_km := dist2;
        route_segments_data :=
          route_segments_data acc ++
          [{| transfer_from_previous := transfer_info;
              segment_route :=
                {| summary_name := route_name (route (rs_direction seg_first));
                   summary_bus_type := bus_type (route (rs_direction seg_first));
                   summary_ticket_price := seg_cost |};
              segment_direction :=
                {| summary_direction := direction_label (rs_direction seg_first);
                   summary_sub_name := sub_name (rs_direction seg_first);
                   segment_distance_km := py_round seg_dist 2;
                   segment_duration_mins := py_round seg_duration 1 |};
              segment_stops := map (fun rs => stop_info (rs_stop rs)) seg |}] |}.

(** Lines 74-125. *)
Definition assemble_segments (M : MathLib) (segments : list (list RouteStop))
  : result assembly :=
  for_each (zip (seq 0 (length segments)) segments)
           (assemble_segment M segments)
           {| total_duration_mins := 0.0; total_cost := 0.0;
              total_dist_km := 0.0; route_segments_data := [] |}.

(** [next((d for s, d in candidates if s.id == stop_id), 0.0)] *)
Fixpoint walk_to (stop_id : Z) (candidates : list (Stop * Q)) : Q :=
  match candidates with
  | [] => 0.0
  | (s, d) :: rest =>
      if (stop_ident s =? stop_id)%Z then d else walk_to stop_id rest
  end.

(** Lines 127-150. *)
Definition summarise (rs_map : gmap Z RouteStop) (path_ids : list Z)
    (start_candidates end_candidates : list (Stop * Q)) (acc : assembly)
  : result FindRouteResponse :=
  first_id ← py_first path_ids;
  first_rs ← py_getitem rs_map first_id;
  last_id ← py_last path_ids;
  last_rs ← py_getitem rs_map last_id;
  let walk_start_km := walk_to (rs_stop_id first_rs) start_candidates in
  let walk_end_km := walk_to (rs_stop_id last_rs) end_candidates in
  let initial_walk_duration := walk_start_km * WALK_SPEED_MIN_KM in
  let final_walk_duration := walk_end_km * WALK_SPEED_MIN_KM in
  let grand_total_duration :=
    total_duration_mins acc + initial_walk_duration + final_walk_duration in
  Ok {| summary :=
          {| trip_total_duration_mins := py_round grand_total_duration 0;
             trip_total_cost := total_cost acc;
             trip_total_walking_distance_km :=
               py_round (walk_start_km + walk_end_km) 2;
             trip_walking_duration_mins :=
               py_round (initial_walk_duration + final_walk_duration) 0;
             trip_from_stop := stop_info (rs_stop first_rs);
             trip_to_stop := stop_info (rs_stop last_rs);
             trip_walking_distance_to_start_km := py_round walk_start_km 3;
             trip_walking_distance_to_end_km := py_round walk_end_km 3 |};
        route_segments := route_segments_data acc |}.

(** Lines 61-150: from the path of node ids to the response. *)
Definition assemble_trip (M : MathLib) (rs_map : gmap Z RouteStop)
    (path_ids : list Z) (start_candidates end_candidates : list (Stop * Q))
  : result FindRouteResponse :=
  segments ← group_segments rs_map path_ids;
  acc ← assemble_segments M segments;
  summarise rs_map path_ids start_candidates end_candidates acc.

(** [min(costs.get(k, float("inf")), x)] *)
Definition py_min_inf (old : option Q) (x : Q) : Q :=
  match old with
  | None => x
  | Some o => if Qlt_le_dec x o then x else o
  end.

(** Lines 40-47. *)
Definition start_costs (route_stops : list RouteStop)
    (start_candidates : list (Stop * Q)) : gmap Z Q :=
  fold_left (fun costs '(stop, walk_d) =>
    fold_left (fun (costs : gmap Z Q) rs =>
      if (rs_stop_id rs =? stop_ident stop)%Z
      then <[rs_id rs := py_min_inf (costs !! rs_id rs) (walk_d * WALK_WEIGHT)]> costs
      else costs) route_stops costs) start_candidates ∅.

(** Line 53. *)
Definition end_costs (end_candidates : list (Stop * Q)) : gmap Z Q :=
  fold_left (fun (costs : gmap Z Q) '(stop, walk_d) =>
               <[stop_ident stop := walk_d * WALK_WEIGHT]> costs)
            end_candidates ∅.

(** What the handler asks of its collaborators, in order. *)
Inductive event : Type :=
| NearbyStopsLookup (lat lng : Q)
| GraphSearch.

(** Lines 56-150. *)
Definition after_search (M : MathLib) (fuel : nat)
    (rs_map : gmap Z RouteStop)
    (start_candidates end_candidates : list (Stop * Q))
    (found : option Z * gmap Z Z) : result FindRouteResponse :=
  let '(end_rs_id, prev) := found in
  match end_rs_id with
  | None | Some Z0 =>
      Raise (HTTPException 404 "No path found between these locations.")
  | Some end_id =>
      path_ids ← rebuild_path fuel end_id prev;
      assemble_trip M rs_map path_ids start_candidates end_candidates
  end.

(** The handler, with the trace of the lookups and searches it made.
    [transit_data] is [request.app.state.transit_data]. *)
Definition find_route (M : MathLib) (gis : PostGIS) (fuel : nat)
    (payload : RouteRequest) (db : DB)
    (transit_data : graph * list RouteStop * gmap Z RouteStop)
  : list event * result FindRouteResponse :=
  let from_lat := loc_lat (from_location payload) in
  let from_lng := loc_lng (from_location payload) in
  let to_lat := loc_lat (to_location payload) in
  let to_lng := loc_lng (to_location payload) in
  let rough_dist := haversine M from_lat from_lng to_lat to_lng in
  if Qlt_le_dec 200 rough_dist
  then ([], Raise (HTTPException 400 "Distance too far for local transit search."))
  else
    let start_candidates :=
      take MAX_CANDIDATES (find_nearby_stops gis db from_lat from_lng 0.7) in
    let end_candidates :=
      take MAX_CANDIDATES (find_nearby_stops gis db to_lat to_lng 0.7) in
    let lookups :=
      [NearbyStopsLookup from_lat from_lng; NearbyStopsLookup to_lat to_lng] in
    match start_candidates, end_candidates with
    | [], _ | _, [] =>
        (lookups, Raise (HTTPException 404 "Could not find stops near your location."))
    | _, _ =>
        let '(g, route_stops, rs_map) := transit_data in
        let start_rs_costs := start_costs route_stops start_candidates in
        match map_to_list start_rs_costs with
        | [] =>
            (lookups,
             Raise (HTTPException 404 "No bus routes available from these stops."))
        | _ =>
            let end_stop_costs := end_costs end_candidates in
            (lookups ++ [GraphSearch],
             found ← dijkstra fuel g start_rs_costs end_stop_costs rs_map;
             after_search M fuel rs_map start_candidates end_candidates found)
        end
    end.

(** * Specification vocabulary *)

(** ** Edges of the built graph *)

(** An edge as [build_graph] appends it: source, then (target, weight). *)
Definition add_edges (es : list (Z * (Z * Q))) (g : graph) : graph :=
  fold_left (fun g '(a, e) => graph_append a e g) es g.

Definition known (rs : RouteStop) : Prop := is_Some (distance_from_start rs).

(** The ride edges of one sorted direction. *)
Fixpoint ride_edges_of (stops : list RouteStop) : list (Z * (Z * Q)) :=
  match stops with
  | a :: ((b :: _) as rest) =>
      match distance_from_start a, distance_from_start b with
      | Some da, Some db => [(rs_id a, (rs_id b, db - da))]
      | _, _ => []
      end ++ ride_edges_of rest
  | _ => []
  end.

Definition ride_edges (rs_by_dir : list (Z * list RouteStop))
  : list (Z * (Z * Q)) :=
  '(_, stops) ← rs_by_dir; ride_edges_of (sort_by_order stops).

Definition transfer_edge (w : Q) (a b : RouteStop) : list (Z * (Z * Q)) :=
  if decide (rs_direction_id a ≠ rs_direction_id b)
  then [(rs_id a, (rs_id b, w))] else [].

Definition walking_edges (rs_by_stop : list (Z * list RouteStop))
    (nearby_pairs : list (Z * Z * Q)) : list (Z * (Z * Q)) :=
  '(stop_a_id, stop_b_id, dist_km) ← nearby_pairs;
  rs_a ← dd_get stop_a_id rs_by_stop;
  rs_b ← dd_get stop_b_id rs_by_stop;
  transfer_edge (dist_km * WALK_WEIGHT_GRAPH + TRANSFER_PENALTY) rs_a rs_b.

Definition same_stop_edges (rs_by_stop : list (Z * list RouteStop))
  : list (Z * (Z * Q)) :=
  '(_, rs_list) ← rs_by_stop;
  a ← rs_list;
  b ← rs_list;
  transfer_edge TRANSFER_PENALTY a b.

(** The walking-transfer edges [build_graph] adds for a database. *)
Definition walking_edges_of (gis : PostGIS) (db : DB) : list (Z * (Z * Q)) :=
  walking_edges (group_by rs_stop_id (tbl_route_stops db))
                (nearby_pairs_query gis db MAX_WALK_TRANSFER_METERS).

Definition same_stop_edges_of (db : DB) : list (Z * (Z * Q)) :=
  same_stop_edges (group_by rs_stop_id (tbl_route_stops db)).

Definition ride_edges_db (db : DB) : list (Z * (Z * Q)) :=
  ride_edges (group_by rs_direction_id (tbl_route_stops db)).

Definition all_edges (gis : PostGIS) (db : DB) : list (Z * (Z * Q)) :=
  ride_edges_db db ++ walking_edges_of gis db ++ same_stop_edges_of db.

(** The stop-assignments of a direction, sorted by ordinal position. *)
Definition direction_stops (db : DB) (dir : Z) : list RouteStop :=
  sort_by_order
    (filter (fun rs => rs_direction_id rs = dir) (tbl_route_stops db)).

(** Cumulative distances never decrease along a direction. *)
Definition monotone_distances (db : DB) : Prop :=
  ∀ a b da db',
    a ∈ tbl_route_stops db → b ∈ tbl_route_stops db →
    rs_direction_id a = rs_direction_id b →
    (rs_order a <= rs_order b)%Z →
    distance_from_start a = Some da → distance_from_start b = Some db' →
    da <= db'.

(** The spatial index measures the same in both directions. *)
Definition symmetric_gis (gis : PostGIS) : Prop :=
  (∀ p q r, ST_DWithin gis p q r = ST_DWithin gis q p r)
  ∧ (∀ p q, ST_Distance gis p q == ST_Distance gis q p).

(** [d] groups [rss] by [key]: one entry per key that occurs, holding the
    elements with that key in their order in [rss]. *)
Definition grouped (key : RouteStop → Z) (rss : list RouteStop)
    (d : list (Z * list RouteStop)) : Prop :=
  NoDup (d.*1)
  ∧ (∀ k l, (k, l) ∈ d → l = filter (fun x => key x = k) rss)
  ∧ (∀ x, x ∈ rss → ∃ l, (key x, l) ∈ d).

Definition order_le (a b : RouteStop) : Prop := (rs_order a <= rs_order b)%Z.

(** [l] is the direction in ordinal order: it holds the stop-assignments of
    the direction, by ascending ordinal position, those of equal position in
    the order of the table (where a stable sort leaves them). *)
Definition ordinal_sequence (db : DB) (dir : Z) (l : list RouteStop) : Prop :=
  Sorted order_le l
  ∧ l ≡ₚ filter (fun rs => rs_direction_id rs = dir) (tbl_route_stops db)
  ∧ ∀ k, filter (fun rs => rs_order rs = k) l
         = filter (fun rs => rs_order rs = k)
             (filter (fun rs => rs_direction_id rs = dir) (tbl_route_stops db)).

(** ** Segments of a path *)

(** The node ids of a path and the records they stand for. *)
Definition resolves (rs_map : gmap Z RouteStop) (path_ids : list Z)
    (nodes : list RouteStop) : Prop :=
  Forall2 (fun rs_id rs => rs_map !! rs_id = Some rs) path_ids nodes.

(** The number of positions where consecutive nodes differ in direction. *)
Fixpoint direction_changes (path : list RouteStop) : nat :=
  match path with
  | a :: ((b :: _) as rest) =>
      ((if decide (rs_direction_id a = rs_direction_id b) then 0 else 1)
       + direction_changes rest)%nat
  | _ => 0%nat
  end.

Definition same_direction (seg : list RouteStop) : Prop :=
  ∀ x y, x ∈ seg → y ∈ seg → rs_direction_id x = rs_direction_id y.

(** [segments] cuts [nodes] into its maximal runs of one direction: the
    segments concatenate to the path, each is a non-empty run of one
    direction, and the direction changes between neighbouring segments. *)
Definition maximal_runs (nodes : list RouteStop)
    (segments : list (list RouteStop)) : Prop :=
  concat segments = nodes
  ∧ Forall (fun seg => seg ≠ [] ∧ same_direction seg) segments
  ∧ ∀ l1 s1 s2 l2 x y,
      segments = l1 ++ s1 :: s2 :: l2 →
      last s1 = Some x → head s2 = Some y →
      rs_direction_id x ≠ rs_direction_id y.

(** What the grouping loop maintains once it has seen [nodes]. *)
Definition grouping_inv (nodes : list RouteStop)
    (st : list (list RouteStop) * list RouteStop) : Prop :=
  st.2 ≠ []
  ∧ maximal_runs nodes (st.1 ++ [st.2])
  ∧ length (st.1 ++ [st.2]) = S (direction_changes nodes).

(** ** The [math] module at zero *)

Definition exact_at_zero (M : MathLib) : Prop :=
  (∀ x, x == 0 → m_sin M x == 0)
  ∧ (∀ x, x == 0 → m_sqrt M x == 0)
  ∧ (∀ x, x == 0 → m_asin M x == 0).

(** ** What one turn of the assembly loop computes *)

Definition ride_distance (d_first d_last : Q) : Q := Qabs (d_last - d_first).

Definition ride_duration (d_first d_last : Q) (stop_count : nat) : Q :=
  ride_distance d_first d_last * TRANSIT_SPEED_MIN_KM
  + inject_Z (Z.of_nat stop_count) * STOP_PENALTY_MIN.

Definition transfer_record (M : MathLib) (prev_stop curr_stop : Stop)
  : TransferInfo :=
  let t_dist_km :=
    haversine M (lat prev_stop) (lng prev_stop) (lat curr_stop) (lng curr_stop) in
  {| from_stop := prev_stop; to_stop := curr_stop;
     walk_dist_km := py_round t_dist_km 3;
     walk_duration_mins := py_round (t_dist_km * WALK_SPEED_MIN_KM) 1;
     is_same_stop := (stop_ident prev_stop =? stop_ident curr_stop)%Z |}.

Definition segment_record (transfer : option TransferInfo)
    (seg : list RouteStop) (seg_first : RouteStop) (d_first d_last : Q)
  : RouteSegment :=
  {| transfer_from_previous := transfer;
     segment_route :=
       {| summary_name := route_name (route (rs_direction seg_first));
          summary_bus_type := bus_type (route (rs_direction seg_first));
          summary_ticket_price :=
            ticket_price_or_default
              (ticket_price (route (rs_direction seg_first))) |};
     segment_direction :=
       {| summary_direction := direction_label (rs_direction seg_first);
          summary_sub_name := sub_name (rs_direction seg_first);
          segment_distance_km := py_round (ride_distance d_first d_last) 2;
          segment_duration_mins :=
            py_round (ride_duration d_first d_last (length seg)) 1 |};
     segment_stops := map (fun rs => stop_info (rs_stop rs)) seg |}.

(** A segment one of whose ends has no recorded distance. *)
Definition missing_distance (seg : list RouteStop) : Prop :=
  ∃ x, (head seg = Some x ∨ last seg = Some x) ∧ distance_from_start x = None.

(** ** Walks and trip totals *)

(** [walk g u v c]: there is a walk from [u] to [v] in [g] whose edge weights
    add up to [c]. *)
Inductive walk (g : graph) : Z → Z → Q → Prop :=
| walk_here u : walk g u u 0
| walk_more u v x w c :
    walk g u v c → (x, w) ∈ adj g v → walk g u x (c + w).

(** [w] is the shortest-path weight from [s] to [v]. *)
Definition shortest (g : graph) (s v : Z) (w : Q) : Prop :=
  walk g s v w ∧ ∀ w', walk g s v w' → w <= w'.

(** [d] is the cost of reaching [v]: the initial cost of a start node plus
    the weight of a walk from it. *)
Definition reaches (g : graph) (start_rs_costs : gmap Z Q) (v : Z) (d : Q)
  : Prop :=
  ∃ s c0 c, start_rs_costs !! s = Some c0 ∧ walk g s v c ∧ d == c0 + c.

(** [t] is the total of a start-to-destination-stop combination ending at
    [v]: reaching cost plus the remaining cost of [v]'s stop. *)
Definition trip_total (g : graph) (start_rs_costs end_stop_costs : gmap Z Q)
    (rs_map : gmap Z RouteStop) (v : Z) (t : Q) : Prop :=
  ∃ d rs c, reaches g start_rs_costs v d
            ∧ rs_map !! v = Some rs
            ∧ end_stop_costs !! rs_stop_id rs = Some c
            ∧ t == d + c.

(** [t = initial_cost(s) + shortest-path-weight(s, v) + remaining_cost(stop(v))]
    for a start node [s] from which [v], at a destination stop, is
    reachable. *)
Definition best_total (g : graph) (start_rs_costs end_stop_costs : gmap Z Q)
    (rs_map : gmap Z RouteStop) (v : Z) (t : Q) : Prop :=
  ∃ s c0 w rs c, start_rs_costs !! s = Some c0
                 ∧ shortest g s v w
                 ∧ rs_map !! v = Some rs
                 ∧ end_stop_costs !! rs_stop_id rs = Some c
                 ∧ t == c0 + w + c.

Definition nonneg_weights (g : graph) : Prop :=
  ∀ u v w, (v, w) ∈ adj g u → 0 <= w.

(** The node index knows every start node and every edge target. *)
Definition nodes_indexed (g : graph) (start_rs_costs : gmap Z Q)
    (rs_map : gmap Z RouteStop) : Prop :=
  (∀ s, is_Some (start_rs_costs !! s) → is_Some (rs_map !! s))
  ∧ (∀ u v w, (v, w) ∈ adj g u → is_Some (rs_map !! v)).

(** ** The invariant of the search loop *)

(** No two frontier entries of a node carry the same cost. *)
Inductive distinct_entries : list (Q * Z) → Prop :=
| distinct_nil : distinct_entries []
| distinct_cons d u l :
    (∀ d', (d', u) ∈ l → ¬ d' == d) →
    distinct_entries l → distinct_entries ((d, u) :: l).

(** The edges out of [u] have been relaxed from cost [d], and [d] has been
    offered to the best total. *)
Definition relaxed (g : graph) (end_stop_costs : gmap Z Q)
    (rs_map : gmap Z RouteStop) (st : search_state) (u : Z) (d : Q) : Prop :=
  (∀ v w, (v, w) ∈ adj g u → ∃ d', dist st !! v = Some d' ∧ d' <= d + w)
  ∧ (∀ rs c, rs_map !! u = Some rs → end_stop_costs !! rs_stop_id rs = Some c →
             ∃ bd, best_dist st = Some bd ∧ bd <= d + c).

Record core_inv (g : graph) (start_rs_costs end_stop_costs : gmap Z Q)
    (rs_map : gmap Z RouteStop) (st : search_state) : Prop := {
  ci_entries :
    ∀ d u, (d, u) ∈ pq st → ∃ d0, dist st !! u = Some d0 ∧ d0 <= d;
  ci_reached :
    ∀ u d, dist st !! u = Some d → reaches g start_rs_costs u d;
  ci_starts :
    ∀ s c, start_rs_costs !! s = Some c → ∃ d, dist st !! s = Some d ∧ d <= c;
  ci_indexed :
    ∀ u d, dist st !! u = Some d → is_Some (rs_map !! u);
  ci_distinct : distinct_entries (pq st);
  ci_best :
    match best_end st with
    | Some e => ∃ bd, best_dist st = Some bd
                      ∧ trip_total g start_rs_costs end_stop_costs rs_map e bd
    | None => best_dist st = None
    end
}.

(** Between two turns of the [while] loop. *)
Record search_inv (g : graph) (start_rs_costs end_stop_costs : gmap Z Q)
    (rs_map : gmap Z RouteStop) (st : search_state) : Prop := {
  si_core : core_inv g start_rs_costs end_stop_costs rs_map st;
  si_progress :
    ∀ u d, dist st !! u = Some d →
           (∃ d', (d', u) ∈ pq st ∧ d' <= d)
           ∨ relaxed g end_stop_costs rs_map st u d;
  si_monotone :
    ∀ u d, dist st !! u = Some d → (∀ d', (d', u) ∈ pq st → d < d') →
           ∀ d'' x, (d'', x) ∈ pq st → d <= d''
}.

(** Inside the [for nxt, w in graph[cur]] loop, popped [(d, u)], with the
    edges [done] behind. *)
Record relaxing (g : graph) (start_rs_costs end_stop_costs : gmap Z Q)
    (rs_map : gmap Z RouteStop) (u : Z) (d : Q) (done : list (Z * Q))
    (st : search_state) : Prop := {
  rx_core : core_inv g start_rs_costs end_stop_costs rs_map st;
  rx_current : ∃ du, dist st !! u = Some du ∧ du == d;
  rx_no_entry : ∀ d', (d', u) ∈ pq st → d < d';
  rx_floor : ∀ d' x, (d', x) ∈ pq st → d <= d';
  rx_settled :
    ∀ v dv, dist st !! v = Some dv → (∀ d', (d', v) ∈ pq st → dv < d') →
            dv <= d;
  rx_progress :
    ∀ v dv, dist st !! v = Some dv → v ≠ u →
            (∃ d', (d', v) ∈ pq st ∧ d' <= dv)
            ∨ relaxed g end_stop_costs rs_map st v dv;
  rx_done :
    ∀ v w, (v, w) ∈ done → ∃ d', dist st !! v = Some d' ∧ d' <= d + w;
  rx_best :
    ∀ rs c, rs_map !! u = Some rs → end_stop_costs !! rs_stop_id rs = Some c →
            ∃ bd, best_dist st = Some bd ∧ bd <= d + c
}.

(** [relax] on a whole search state. *)
Definition relax_state (cur : Z) (cur_dist : Q) (st : search_state)
    (e : Z * Q) : search_state :=
  let '(dist', prev', pq') := relax cur cur_dist (dist st, prev st, pq st) e in
  {| dist := dist'; prev := prev'; pq := pq';
     best_end := best_end st; best_dist := best_dist st |}.

(** ** The measure of the search loop *)

(** A node is settled when it has a cost and no frontier entry at or below
    it. *)
Definition settled (st : search_state) (u : Z) : Prop :=
  ∃ d, dist st !! u = Some d ∧ ∀ d', (d', u) ∈ pq st → d < d'.

Definition unsettled_b (st : search_state) (u : Z) : bool :=
  match dist st !! u with
  | None => true
  | Some d =>
      existsb (fun e : Q * Z => bool_decide (e.2 = u) && Qle_bool e.1 d) (pq st)
  end.

(** The edges out of nodes that are not settled yet. *)
Definition pending_edges (g : graph) (nodes : list Z) (st : search_state)
  : nat :=
  sum_list_with
    (fun u => if unsettled_b st u then length (adj g u) else 0%nat) nodes.

Definition potential (g : graph) (rs_map : gmap Z RouteStop)
    (st : search_state) : nat :=
  (length (pq st) + pending_edges g (map_to_list rs_map).*1 st)%nat.

(** * Sample data *)

(** A planar stand-in for the spatial index: the taxicab distance in metres,
    at 100 km to the degree. *)
Definition grid_distance (p q : point) : Q :=
  100000 * (Qabs (fst p - fst q) + Qabs (snd p - snd q)).

Definition grid_gis : PostGIS :=
  {| ST_DWithin := fun p q r => Qle_bool (grid_distance p q) r;
     ST_Distance := grid_distance |}.

Definition sample_route (price : option Z) : Route :=
  {| route_ident := 1; route_name := "Line"; bus_type := None;
     ticket_price := price |}.

Definition sample_direction (i : Z) (price : option Z) : Direction :=
  {| direction_ident := i; direction_label := "outbound"; sub_name := None;
     route := sample_route price |}.

(** A stop on the equator, [x] metres east of the origin. *)
Definition sample_stop (i : Z) (x : Q) : Stop :=
  {| stop_ident := i; stop_name := "stop"; lat := 0; lng := x / 100000;
     location := (x / 100000, 0) |}.

Definition sample_rs (i dir stop_i ord : Z) (d : option Q) (x : Q) : RouteStop :=
  {| rs_id := i; rs_direction_id := dir; rs_stop_id := stop_i; rs_order := ord;
     distance_from_start := d; rs_direction := sample_direction dir (Some 10%Z);
     rs_stop := sample_stop stop_i x |}.

(** Two lines.  Line 1 calls at stops 1, 2, 3; line 2 calls at stop 6, 300 m
    from stop 2 (with no recorded distance), at stop 4, 100 m from stop 3, and
    at stop 5. *)
Definition sample_route_stops : list RouteStop :=
  [ sample_rs 1 1 1 1 (Some 0) 0;
    sample_rs 2 1 2 2 (Some 2) 2000;
    sample_rs 3 1 3 3 (Some 5) 5000;
    sample_rs 4 2 6 1 None 2300;
    sample_rs 5 2 4 2 (Some 1) 5100;
    sample_rs 6 2 5 3 (Some 4) 8000 ].

Definition sample_db : DB :=
  {| tbl_route_stops := sample_route_stops;
     tbl_stops := [ sample_stop 1 0; sample_stop 2 2000; sample_stop 3 5000;
                    sample_stop 4 5100; sample_stop 5 8000;
                    sample_stop 6 2300 ] |}.

Definition sample_rs_map : gmap Z RouteStop := make_rs_map sample_route_stops.

(** The same network after an edit: stop 2 of line 1 is now 3 km from the
    start of the line. *)
Definition edited_db : DB :=
  {| tbl_route_stops :=
       [ sample_rs 1 1 1 1 (Some 0) 0;
         sample_rs 2 1 2 2 (Some 3) 2000;
         sample_rs 3 1 3 3 (Some 5) 5000 ];
     tbl_stops := tbl_stops sample_db |}.

(** A rational stand-in for the [math] module: short series and a square
    root to six decimals, all exact at zero. *)
Definition series_sqrt (x : Q) : Q :=
  Z.sqrt (Qnum x * Zpos (Qden x) * 10 ^ 12) # (Qden x * 10 ^ 6).

Definition series_math : MathLib :=
  {| m_pi := 355 # 113;
     m_sin := fun x => x - x * x * x / 6;
     m_cos := fun x => 1 - x * x / 2;
     m_asin := fun x => x + x * x * x / 6;
     m_sqrt := series_sqrt |}.

(** A third line that shares stop 2 with line 1. *)
Definition line3_at_stop2 : RouteStop := sample_rs 7 3 2 1 (Some 0) 2000.
Definition line3_at_stop9 : RouteStop := sample_rs 8 3 9 2 (Some 4) 6000.

(** What the server holds after start-up on the sample network. *)
Definition sample_transit_data : graph * list RouteStop * gmap Z RouteStop :=
  (add_edges (all_edges grid_gis sample_db) ∅, sample_route_stops,
   sample_rs_map).

Definition sample_request (from_lng to_lng : Q) : RouteRequest :=
  {| from_location := {| loc_lat := 0; loc_lng := from_lng |};
     to_location := {| loc_lat := 0; loc_lng := to_lng |} |}.

(** Four nodes, node [i] at stop [i].  From node 1 the edge to node 2 weighs
    1, the edge to node 3 weighs 2, and node 2 leads on to node 4 for 5.
    Stops 2 and 4 are destination stops, 10 and 0 away from the destination:
    node 2 is the first destination-stop node the search pops (total 11), and
    node 4 is the cheaper end (total 6). *)
Definition diamond_graph : graph :=
  add_edges [(1%Z, (2%Z, 1)); (1%Z, (3%Z, 2)); (2%Z, (4%Z, 5))] ∅.

Definition diamond_rs_map : gmap Z RouteStop :=
  make_rs_map [ sample_rs 1 1 1 1 (Some 0) 0; sample_rs 2 1 2 2 (Some 1) 1000;
                sample_rs 3 2 3 1 (Some 0) 2000; sample_rs 4 1 4 3 (Some 6) 6000 ].

Definition diamond_starts : gmap Z Q := {[ 1%Z := 0 ]}.
Definition diamond_ends : gmap Z Q := <[ 2%Z := 10 ]> {[ 4%Z := 0 ]}.

(** A predecessor map with a chain 3 -> 2 -> 1 and one with a cycle. *)
Definition chain_prev : gmap Z Z := <[3%Z := 2%Z]> {[ 2%Z := 1%Z ]}.
Definition cycle_prev : gmap Z Z := <[1%Z := 2%Z]> {[ 2%Z := 1%Z ]}.

(** A network of one stop-assignment, with id 0, at stop 1. *)
Definition zero_db : DB :=
  {| tbl_route_stops := [ sample_rs 0 1 1 1 (Some 0) 0 ];
     tbl_stops := [ sample_stop 1 0 ] |}.

(** Lines 1 and 3 both call at stop 2. *)
Definition shared_stop_db : DB :=
  {| tbl_route_stops :=
       [ sample_rs 1 1 1 1 (Some 0) 0; sample_rs 2 1 2 2 (Some 2) 2000;
         sample_rs 7 3 2 1 (Some 0) 2000; sample_rs 8 3 9 2 (Some 4) 6000 ];
     tbl_stops := [ sample_stop 1 0; sample_stop 2 2000; sample_stop 9 6000 ] |}.

(** Line 1 with the rows of its table out of ordinal order. *)
Definition shuffled_db : DB :=
  {| tbl_route_stops :=
       [ sample_rs 3 1 3 3 (Some 5) 5000; sample_rs 1 1 1 1 (Some 0) 0;
         sample_rs 2 1 2 2 (Some 2) 2000 ];
     tbl_stops := tbl_stops sample_db |}.

(** * Further vocabulary *)

(** ** Predecessor chains *)

(** The node [k] steps back from [v] in the predecessor map. *)
Fixpoint ancestor (prev : gmap Z Z) (k : nat) (v : Z) : option Z :=
  match k with
  | O => Some v
  | S k' => match prev !! v with
            | Some p => ancestor prev k' p
            | None => None
            end
  end.

(** The first [k] predecessors of [v], nearest first. *)
Fixpoint chain_list (prev : gmap Z Z) (k : nat) (v : Z) : list Z :=
  match k with
  | O => []
  | S k' => match prev !! v with
            | Some p => p :: chain_list prev k' p
            | None => []
            end
  end.

(** [path_weight g path c]: consecutive nodes of [path] are joined by edges
    of [g] whose weights add up to [c]. *)
Inductive path_weight (g : graph) : list Z → Q → Prop :=
| path_one u : path_weight g [u] 0
| path_cons u v rest w c :
    (v, w) ∈ adj g u → path_weight g (v :: rest) c →
    path_weight g (u :: v :: rest) (w + c).

(** ** The predecessor map during the search *)

(** What the search keeps true of [prev]: a node with a cost and no
    predecessor is a start node at its initial cost; a predecessor is settled,
    has an edge to its successor, and the successor's cost is the
    predecessor's plus that edge; settled nodes are ranked in the order in
    which they were settled, below [bound], and predecessors rank lower. *)
Record prev_inv (g : graph) (start_rs_costs : gmap Z Q) (rank : Z → nat)
    (bound : nat) (st : search_state) : Prop := {
  pi_root :
    ∀ x d, dist st !! x = Some d → prev st !! x = None →
           start_rs_costs !! x = Some d;
  pi_edge :
    ∀ v u, prev st !! v = Some u →
           settled st u
           ∧ ∃ w du dv, (v, w) ∈ adj g u ∧ dist st !! u = Some du
                        ∧ dist st !! v = Some dv ∧ dv == du + w;
  pi_bound : ∀ x, settled st x → (rank x < bound)%nat;
  pi_rank :
    ∀ v u, prev st !! v = Some u → settled st v → (rank u < rank v)%nat
}.

(** ** Nearby stops and walking costs *)

(** Ascending order of distance. *)
Definition dist_le (a b : Stop * Q) : Prop := snd a <= snd b.

(** The stops of the table within [max_walk_km] of a point, in table order,
    each with its distance in kilometres. *)
Definition stops_within (gis : PostGIS) (db : DB) (lat lng max_walk_km : Q)
  : list (Stop * Q) :=
  map (fun s => (s, ST_Distance gis (location s) (lng, lat) / 1000.0))
      (filter (fun s => ST_DWithin gis (location s) (lng, lat)
                          (max_walk_km * 1000) = true)
              (tbl_stops db)).

(** Stop-assignment [k] is at a candidate stop [d] km away. *)
Definition boards (route_stops : list RouteStop)
    (candidates : list (Stop * Q)) (k : Z) (d : Q) : Prop :=
  ∃ rs s, rs ∈ route_stops ∧ (s, d) ∈ candidates
          ∧ rs_id rs = k ∧ rs_stop_id rs = stop_ident s.

(** [costs] holds, for each key that [seen] relates to some distance, 1.5
    times the least such distance, and nothing else. *)
Definition least_costs (seen : Z → Q → Prop) (costs : gmap Z Q) : Prop :=
  ∀ k, match costs !! k with
       | None => ∀ d, ¬ seen k d
       | Some c => (∃ d, seen k d ∧ c = d * WALK_WEIGHT)
                   ∧ ∀ d, seen k d → c <= d * WALK_WEIGHT
       end.

(** ** The handler's branches *)

(** Lines 30-31: the three nearest stops within 700 m of a point. *)
Definition candidates (gis : PostGIS) (db : DB) (lat lng : Q)
  : list (Stop * Q) :=
  take MAX_CANDIDATES (find_nearby_stops gis db lat lng 0.7).

(** The request passes the check of lines 26-28. *)
Definition within_range (M : MathLib) (payload : RouteRequest) : Prop :=
  haversine M (loc_lat (from_location payload)) (loc_lng (from_location payload))
              (loc_lat (to_location payload)) (loc_lng (to_location payload))
  <= 200.

(** The two nearby-stop lookups of lines 30-31. *)
Definition lookups (payload : RouteRequest) : list event :=
  [NearbyStopsLookup (loc_lat (from_location payload))
                     (loc_lng (from_location payload));
   NearbyStopsLookup (loc_lat (to_location payload))
                     (loc_lng (to_location payload))].

(** No stop of the table is within 700 m of the point. *)
Definition no_stop_near (gis : PostGIS) (db : DB) (l : Location) : Prop :=
  ∀ s, s ∈ tbl_stops db →
       ST_DWithin gis (location s) (loc_lng l, loc_lat l) (0.7 * 1000) = false.

#[global] Instance within_range_dec M payload : Decision (within_range M payload) :=
  match Qlt_le_dec 200
          (haversine M (loc_lat (from_location payload))
                       (loc_lng (from_location payload))
                       (loc_lat (to_location payload))
                       (loc_lng (to_location payload))) with
  | left Hfar => right (Qlt_not_le _ _ Hfar)
  | right Hnear => left Hnear
  end.

(** ** Trips the assembler answers *)

(** Both ends of the segment have a recorded distance. *)
Definition ends_known (seg : list RouteStop) : Prop :=
  ∀ x, head seg = Some x ∨ last seg = Some x →
       is_Some (distance_from_start x).

(** The ticket price of the segment's route, read at its first stop. *)
Definition segment_price (seg : list RouteStop) : Q :=
  match seg with
  | f :: _ => ticket_price_or_default (ticket_price (route (rs_direction f)))
  | [] => 0
  end.

Definition stops_of (seg : list RouteStop) : list StopInfo :=
  map (fun rs => stop_info (rs_stop rs)) seg.

(** The ticket prices of the segments, added up. *)
Definition prices_total (segments : list (list RouteStop)) : Q :=
  foldr (fun seg c => segment_price seg + c) 0 segments.

(** * The graph builder *)

#[local] Set Warnings "-clear-no-such-hyp".

(** ** Loops that only append edges *)

Lemma add_edges_app es1 es2 (g : graph) :
  add_edges (es1 ++ es2) g = add_edges es2 (add_edges es1 g).
Proof. unfold add_edges. apply fold_left_app. Qed.

Lemma for_each_add_edges {A : Type} (E : A → list (Z * (Z * Q)))
    (body : A → graph → result graph) (xs : list A) (g : graph) :
  (∀ x g', x ∈ xs → body x g' = Ok (add_edges (E x) g')) →
  for_each xs body g = Ok (add_edges (xs ≫= E) g).
Proof.
  revert g. induction xs as [|x xs IH]; intros g Hbody; [reflexivity|].
  cbn [for_each]. rewrite Hbody by (left; reflexivity). cbn.
  rewrite IH by (intros; apply Hbody; by right).
  by rewrite add_edges_app.
Qed.

Lemma adj_graph_append a e (g : graph) u :
  adj (graph_append a e g) u = if decide (a = u) then adj g u ++ [e] else adj g u.
Proof.
  unfold graph_append, adj at 1. destruct (decide (a = u)) as [->|Hne].
  - by rewrite lookup_insert_eq.
  - by rewrite lookup_insert_ne.
Qed.

Lemma in_adj_add_edges es (g : graph) u e :
  e ∈ adj (add_edges es g) u ↔ e ∈ adj g u ∨ (u, e) ∈ es.
Proof.
  revert g. induction es as [|[a e'] es IH]; intros g; cbn.
  - rewrite elem_of_nil. tauto.
  - rewrite IH, adj_graph_append, elem_of_cons.
    destruct (decide (a = u)) as [->|Hne].
    + rewrite elem_of_app, list_elem_of_singleton. naive_solver.
    + naive_solver.
Qed.

Lemma adj_empty u : adj ∅ u = [].
Proof. unfold adj. by rewrite lookup_empty. Qed.

(** ** The three passes as edge lists *)

Lemma ride_edges_dir_cons a b rest (g : graph) :
  ride_edges_dir (a :: b :: rest) g
  = match distance_from_start a, distance_from_start b with
    | Some da, Some db =>
        ride_edges_dir (b :: rest) (graph_append (rs_id a) (rs_id b, db - da) g)
    | _, _ => ride_edges_dir (b :: rest) g
    end.
Proof.
  cbn [ride_edges_dir].
  destruct (distance_from_start a), (distance_from_start b); reflexivity.
Qed.

Lemma ride_edges_of_cons a b rest :
  ride_edges_of (a :: b :: rest)
  = match distance_from_start a, distance_from_start b with
    | Some da, Some db => [(rs_id a, (rs_id b, db - da))]
    | _, _ => []
    end ++ ride_edges_of (b :: rest).
Proof. reflexivity. Qed.

Lemma ride_edges_dir_spec stops (g : graph) :
  ride_edges_dir stops g = Ok (add_edges (ride_edges_of stops) g).
Proof.
  revert g. induction stops as [|a stops IH]; intros g; [reflexivity|].
  destruct stops as [|b rest]; [reflexivity|].
  rewrite ride_edges_dir_cons, ride_edges_of_cons.
  destruct (distance_from_start a) as [da|], (distance_from_start b) as [db|];
    rewrite IH; reflexivity.
Qed.

Lemma ride_edges_pass_spec rs_by_dir (g : graph) :
  ride_edges_pass rs_by_dir g = Ok (add_edges (ride_edges rs_by_dir) g).
Proof.
  unfold ride_edges_pass, ride_edges.
  apply for_each_add_edges. intros [k stops] g' _. apply ride_edges_dir_spec.
Qed.

Lemma transfer_step_spec w a b (g : graph) :
  (if decide (rs_direction_id a ≠ rs_direction_id b)
   then Ok (graph_append (rs_id a) (rs_id b, w) g) else Ok g)
  = Ok (add_edges (transfer_edge w a b) g).
Proof. unfold transfer_edge. destruct (decide _); reflexivity. Qed.

Lemma walking_pass_spec rs_by_stop nearby_pairs (g : graph) :
  walking_pass rs_by_stop nearby_pairs g
  = Ok (add_edges (walking_edges rs_by_stop nearby_pairs) g).
Proof.
  unfold walking_pass, walking_edges.
  apply for_each_add_edges. intros [[sa sb] d] g1 _.
  apply for_each_add_edges. intros rs_a g2 _.
  apply for_each_add_edges. intros rs_b g3 _.
  apply transfer_step_spec.
Qed.

Lemma same_stop_pass_spec rs_by_stop (g : graph) :
  same_stop_pass rs_by_stop g = Ok (add_edges (same_stop_edges rs_by_stop) g).
Proof.
  unfold same_stop_pass, same_stop_edges.
  apply for_each_add_edges. intros [k l] g1 _.
  apply for_each_add_edges. intros a g2 _.
  apply for_each_add_edges. intros b g3 _.
  apply transfer_step_spec.
Qed.

Lemma build_fresh_spec gis db :
  build_fresh gis db
  = Ok (add_edges (all_edges gis db) ∅, tbl_route_stops db,
        make_rs_map (tbl_route_stops db)).
Proof.
  unfold build_fresh, all_edges.
  rewrite ride_edges_pass_spec. cbn.
  rewrite walking_pass_spec. cbn.
  rewrite same_stop_pass_spec. cbn.
  by rewrite !add_edges_app.
Qed.

Lemma in_adj_build gis db u e :
  e ∈ adj (add_edges (all_edges gis db) ∅) u ↔ (u, e) ∈ all_edges gis db.
Proof. rewrite in_adj_add_edges, adj_empty, elem_of_nil. tauto. Qed.

(** ** Grouping *)

Lemma dd_append_keys k v d :
  (dd_append k v d).*1 = if decide (k ∈ d.*1) then d.*1 else d.*1 ++ [k].
Proof.
  induction d as [|[k' vs] d IH]; cbn.
  - destruct (decide _) as [H|_]; [by apply elem_of_nil in H|done].
  - destruct (decide (k' = k)) as [->|Hne]; cbn.
    + rewrite decide_True by (by left). done.
    + rewrite IH. destruct (decide (k ∈ d.*1)) as [Hin|Hnin].
      * rewrite decide_True by (by right). done.
      * rewrite decide_False; [done|]. rewrite elem_of_cons. naive_solver.
Qed.

Lemma dd_get_dd_append k k' v d :
  dd_get k (dd_append k' v d)
  = if decide (k = k') then dd_get k d ++ [v] else dd_get k d.
Proof.
  induction d as [|[k0 vs] d IH]; cbn.
  - destruct (decide (k' = k)), (decide (k = k')); congruence.
  - destruct (decide (k0 = k')) as [->|Hne]; cbn.
    + destruct (decide (k' = k)) as [->|Hne'].
      * by rewrite decide_True.
      * by rewrite decide_False.
    + destruct (decide (k0 = k)) as [->|Hne']; [by rewrite decide_False|].
      apply IH.
Qed.

Lemma group_by_snoc key rss x :
  group_by key (rss ++ [x]) = dd_append (key x) x (group_by key rss).
Proof. unfold group_by. by rewrite fold_left_app. Qed.

Lemma dd_get_group_by key rss k :
  dd_get k (group_by key rss) = filter (fun x => key x = k) rss.
Proof.
  induction rss as [|x rss IH] using rev_ind; [done|].
  rewrite group_by_snoc, dd_get_dd_append, filter_app, IH.
  destruct (decide (k = key x)) as [->|Hne].
  - by rewrite (filter_cons_True _ x []).
  - rewrite (filter_cons_False _ x []) by congruence.
    by rewrite filter_nil, app_nil_r.
Qed.

Lemma group_by_keys_NoDup key rss : NoDup (group_by key rss).*1.
Proof.
  induction rss as [|x rss IH] using rev_ind; [constructor|].
  rewrite group_by_snoc, dd_append_keys. destruct (decide _) as [Hin|Hnin]; [done|].
  apply NoDup_app. split; [done|]. split; [|apply NoDup_singleton].
  intros k Hk ->%list_elem_of_singleton. done.
Qed.

Lemma group_by_key_in key rss x : x ∈ rss → key x ∈ (group_by key rss).*1.
Proof.
  induction rss as [|y rss IH] using rev_ind; [by intros ?%elem_of_nil|].
  rewrite group_by_snoc, dd_append_keys, elem_of_app, list_elem_of_singleton.
  intros [Hin| ->].
  - destruct (decide _); [by apply IH|]. apply elem_of_app. left. by apply IH.
  - destruct (decide _) as [Hin|Hnin]; [done|].
    apply elem_of_app. right. by apply list_elem_of_singleton.
Qed.

Lemma dd_get_elem k l d : NoDup d.*1 → (k, l) ∈ d → dd_get k d = l.
Proof.
  induction d as [|[k0 vs] d IH]; cbn; [by intros _ ?%elem_of_nil|].
  intros [Hnin Hnd]%NoDup_cons [[= -> ->]|Hin]%elem_of_cons.
  - by rewrite decide_True.
  - destruct (decide (k0 = k)) as [->|Hne]; [|by apply IH].
    exfalso. apply Hnin. apply list_elem_of_fmap. by exists (k, l).
Qed.

Lemma group_by_grouped key rss : grouped key rss (group_by key rss).
Proof.
  split; [apply group_by_keys_NoDup|]. split.
  - intros k l Hin. rewrite <- dd_get_group_by.
    symmetry. apply dd_get_elem; [apply group_by_keys_NoDup|done].
  - intros x Hx. apply (group_by_key_in key) in Hx.
    apply list_elem_of_fmap in Hx as [[k l] [Hk Hin]]. cbn in Hk. subst k.
    by exists l.
Qed.

(** ** Sorting by ordinal position *)

Lemma insert_by_order_perm x l : insert_by_order x l ≡ₚ x :: l.
Proof.
  induction l as [|y l IH]; cbn; [done|].
  destruct (rs_order x <=? rs_order y)%Z; [done|].
  rewrite IH. apply Permutation_swap.
Qed.

Lemma sort_by_order_perm l : sort_by_order l ≡ₚ l.
Proof.
  induction l as [|x l IH]; cbn; [done|].
  by rewrite insert_by_order_perm, IH.
Qed.

Lemma insert_by_order_sorted x l :
  Sorted order_le l → Sorted order_le (insert_by_order x l).
Proof.
  induction l as [|y l IH]; cbn; intros Hs.
  - repeat constructor.
  - destruct (rs_order x <=? rs_order y)%Z eqn:Hxy.
    + constructor; [done|]. constructor. unfold order_le. lia.
    + apply Sorted_inv in Hs as [Hs Hhd]. constructor; [by apply IH|].
      destruct l as [|z l]; cbn.
      * constructor. unfold order_le. lia.
      * destruct (rs_order x <=? rs_order z)%Z.
        -- constructor. unfold order_le. lia.
        -- constructor. by apply HdRel_inv in Hhd.
Qed.

Lemma sort_by_order_sorted l : Sorted order_le (sort_by_order l).
Proof.
  induction l as [|x l IH]; cbn; [constructor|].
  by apply insert_by_order_sorted.
Qed.

(** The sort is stable: stop-assignments of equal ordinal position keep
    their order. *)
Lemma insert_by_order_filter k x l :
  filter (fun rs => rs_order rs = k) (insert_by_order x l)
  = filter (fun rs => rs_order rs = k) (x :: l).
Proof.
  induction l as [|y l IH]; cbn [insert_by_order]; [done|].
  destruct (Z.leb_spec (rs_order x) (rs_order y)) as [Hle|Hlt]; [done|].
  rewrite filter_cons, IH, !filter_cons.
  repeat case_decide; try done; lia.
Qed.

Lemma sort_by_order_filter k l :
  filter (fun rs => rs_order rs = k) (sort_by_order l)
  = filter (fun rs => rs_order rs = k) l.
Proof.
  induction l as [|x l IH]; [done|].
  cbn [sort_by_order foldr]. fold (sort_by_order l).
  by rewrite insert_by_order_filter, !filter_cons, IH.
Qed.

Lemma sorted_head_least x l y :
  Sorted order_le (x :: l) → y ∈ x :: l → order_le x y.
Proof.
  intros Hs Hy. apply Sorted_StronglySorted in Hs;
    [|intros a b c; unfold order_le; lia].
  apply StronglySorted_inv in Hs as [_ Hall].
  apply elem_of_cons in Hy as [->|Hy]; [unfold order_le; lia|].
  rewrite Forall_forall in Hall. by apply Hall.
Qed.

(** A list in ascending ordinal position is determined by its classes of
    equal position. *)
Lemma ordinal_sorted_unique l1 : ∀ l2,
  Sorted order_le l1 → Sorted order_le l2 →
  (∀ k, filter (fun rs => rs_order rs = k) l1
        = filter (fun rs => rs_order rs = k) l2) →
  l1 = l2.
Proof.
  induction l1 as [|x l1 IH]; intros [|y l2] Hs1 Hs2 Hclass; [done|..].
  - specialize (Hclass (rs_order y)).
    rewrite filter_cons, decide_True in Hclass by done. done.
  - specialize (Hclass (rs_order x)).
    rewrite filter_cons, decide_True in Hclass by done. done.
  - assert (x ∈ y :: l2) as Hx.
    { pose proof (Hclass (rs_order x)) as H.
      rewrite filter_cons, decide_True in H by done.
      assert (x ∈ filter (fun rs => rs_order rs = rs_order x) (y :: l2)) as Hin
        by (rewrite <- H; by left).
      by apply list_elem_of_filter in Hin as [_ ?]. }
    assert (y ∈ x :: l1) as Hy.
    { pose proof (Hclass (rs_order y)) as H.
      rewrite (filter_cons _ y), decide_True in H by done.
      assert (y ∈ filter (fun rs => rs_order rs = rs_order y) (x :: l1)) as Hin
        by (rewrite H; by left).
      by apply list_elem_of_filter in Hin as [_ ?]. }
    pose proof (sorted_head_least _ _ _ Hs1 Hy) as Hxy.
    pose proof (sorted_head_least _ _ _ Hs2 Hx) as Hyx.
    unfold order_le in Hxy, Hyx.
    assert (rs_order x = rs_order y) as Hord by lia.
    pose proof (Hclass (rs_order x)) as Hhd.
    rewrite !filter_cons, !decide_True in Hhd by done.
    injection Hhd as -> Htl.
    f_equal. apply IH.
    + by apply Sorted_inv in Hs1 as [? _].
    + by apply Sorted_inv in Hs2 as [? _].
    + intros k. specialize (Hclass k). rewrite !filter_cons in Hclass.
      case_decide; [by injection Hclass|done].
Qed.

Lemma direction_stops_ordinal db dir :
  ordinal_sequence db dir (direction_stops db dir).
Proof.
  unfold direction_stops. split; [apply sort_by_order_sorted|].
  split; [apply sort_by_order_perm|]. intros k. apply sort_by_order_filter.
Qed.

Lemma ordinal_sequence_unique db dir l :
  ordinal_sequence db dir l → l = direction_stops db dir.
Proof.
  intros (Hsorted & _ & Hclass).
  apply ordinal_sorted_unique; [done|apply sort_by_order_sorted|].
  intros k. rewrite Hclass. unfold direction_stops.
  by rewrite sort_by_order_filter.
Qed.

Lemma sorted_adjacent (l1 l2 : list RouteStop) a b :
  Sorted order_le (l1 ++ a :: b :: l2) → order_le a b.
Proof.
  induction l1 as [|x l1 IH]; cbn; intros [Hs Hhd]%Sorted_inv.
  - by apply HdRel_inv in Hhd.
  - by apply IH.
Qed.

Lemma adjacent_split {A : Type} (l : list A) i a b :
  l !! i = Some a → l !! S i = Some b → ∃ l1 l2, l = l1 ++ a :: b :: l2.
Proof.
  intros Ha Hb. exists (take i l), (drop (S (S i)) l).
  rewrite <- (drop_S l b (S i)) by done.
  symmetry. by apply take_drop_middle.
Qed.

(** ** Membership in the edge lists *)

Lemma elem_of_ride_edges_of stops x y w :
  (x, (y, w)) ∈ ride_edges_of stops ↔
  ∃ l1 a b l2 da db,
    stops = l1 ++ a :: b :: l2 ∧ x = rs_id a ∧ y = rs_id b
    ∧ distance_from_start a = Some da ∧ distance_from_start b = Some db
    ∧ w = db - da.
Proof.
  split.
  - induction stops as [|a stops IH]; [by intros ?%elem_of_nil|].
    destruct stops as [|b rest]; [by intros ?%elem_of_nil|].
    rewrite ride_edges_of_cons, elem_of_app. intros [Hhd|Htl].
    + destruct (distance_from_start a) as [da|] eqn:Hda;
        [|by apply elem_of_nil in Hhd].
      destruct (distance_from_start b) as [db|] eqn:Hdb;
        [|by apply elem_of_nil in Hhd].
      apply list_elem_of_singleton in Hhd as [= -> -> ->].
      by exists [], a, b, rest, da, db.
    + destruct (IH Htl) as (l1 & a' & b' & l2 & da & db & -> & H).
      by exists (a :: l1), a', b', l2, da, db.
  - intros (l1 & a & b & l2 & da & db & -> & -> & -> & Hda & Hdb & ->).
    induction l1 as [|c l1 IH].
    + cbn [app]. rewrite ride_edges_of_cons, Hda, Hdb. apply elem_of_app. left.
      by apply list_elem_of_singleton.
    + destruct l1 as [|c' l1]; cbn [app] in *;
        rewrite ride_edges_of_cons; apply elem_of_app; by right.
Qed.

Lemma elem_of_transfer_edge w a b e :
  e ∈ transfer_edge w a b ↔
  rs_direction_id a ≠ rs_direction_id b ∧ e = (rs_id a, (rs_id b, w)).
Proof.
  unfold transfer_edge. destruct (decide _).
  - rewrite list_elem_of_singleton. tauto.
  - rewrite elem_of_nil. tauto.
Qed.

Lemma elem_of_ride_edges_db db e :
  e ∈ ride_edges_db db ↔
  ∃ dir, e ∈ ride_edges_of (direction_stops db dir).
Proof.
  unfold ride_edges_db, ride_edges, direction_stops.
  destruct (group_by_grouped rs_direction_id (tbl_route_stops db))
    as (_ & Hfilter & Hex).
  rewrite list_elem_of_bind. split.
  - intros ([k stops] & He & Hin). exists k. by rewrite <- (Hfilter k stops).
  - intros [dir He].
    destruct (filter (fun rs => rs_direction_id rs = dir) (tbl_route_stops db))
      as [|x l] eqn:Hf; [by apply elem_of_nil in He|].
    assert (x ∈ filter (fun rs => rs_direction_id rs = dir) (tbl_route_stops db))
      as [Hdir Hx]%list_elem_of_filter by (rewrite Hf; by left).
    destruct (Hex x Hx) as [stops Hstops]. rewrite Hdir in Hstops.
    exists (dir, stops). split; [|done]. cbn.
    by rewrite (Hfilter dir stops Hstops), Hf.
Qed.

Lemma elem_of_direction_stops db dir rs :
  rs ∈ direction_stops db dir ↔
  rs ∈ tbl_route_stops db ∧ rs_direction_id rs = dir.
Proof.
  unfold direction_stops. rewrite sort_by_order_perm, list_elem_of_filter. tauto.
Qed.

Lemma elem_of_walking_edges_of gis db e :
  e ∈ walking_edges_of gis db ↔
  ∃ sa sb rs_a rs_b,
    sa ∈ tbl_stops db ∧ sb ∈ tbl_stops db
    ∧ ST_DWithin gis (location sa) (location sb) MAX_WALK_TRANSFER_METERS = true
    ∧ stop_ident sa ≠ stop_ident sb
    ∧ rs_a ∈ tbl_route_stops db ∧ rs_stop_id rs_a = stop_ident sa
    ∧ rs_b ∈ tbl_route_stops db ∧ rs_stop_id rs_b = stop_ident sb
    ∧ rs_direction_id rs_a ≠ rs_direction_id rs_b
    ∧ e = (rs_id rs_a,
           (rs_id rs_b,
            ST_Distance gis (location sa) (location sb) / 1000
            * WALK_WEIGHT_GRAPH + TRANSFER_PENALTY)).
Proof.
  unfold walking_edges_of, walking_edges, nearby_pairs_query. split.
  - intros ([[ia ib] d] & He & Hpair)%list_elem_of_bind.
    apply list_elem_of_bind in Hpair as (sa & Hpair & Hsa).
    apply list_elem_of_bind in Hpair as (sb & Hpair & Hsb).
    destruct (ST_DWithin _ _ _ _) eqn:Hwithin; cbn in Hpair;
      [|by apply elem_of_nil in Hpair].
    destruct (stop_ident sa =? stop_ident sb)%Z eqn:Hid; cbn in Hpair;
      [by apply elem_of_nil in Hpair|].
    apply list_elem_of_singleton in Hpair as [= -> -> ->].
    apply list_elem_of_bind in He as (rs_a & He & Ha).
    apply list_elem_of_bind in He as (rs_b & He & Hb).
    rewrite dd_get_group_by in Ha, Hb.
    apply list_elem_of_filter in Ha as [Ha1 Ha2], Hb as [Hb1 Hb2].
    apply elem_of_transfer_edge in He as [Hdir ->].
    exists sa, sb, rs_a, rs_b. apply Z.eqb_neq in Hid. done.
  - intros (sa & sb & rs_a & rs_b & Hsa & Hsb & Hw & Hid & Ha1 & Ha2 & Hb1 & Hb2
            & Hdir & ->).
    apply list_elem_of_bind.
    exists (stop_ident sa, stop_ident sb,
            ST_Distance gis (location sa) (location sb) / 1000).
    split.
    + apply list_elem_of_bind. exists rs_a. split.
      * apply list_elem_of_bind. exists rs_b. split.
        -- by apply elem_of_transfer_edge.
        -- rewrite dd_get_group_by. by apply list_elem_of_filter.
      * rewrite dd_get_group_by. by apply list_elem_of_filter.
    + apply list_elem_of_bind. exists sa. split; [|done].
      apply list_elem_of_bind. exists sb. split; [|done].
      rewrite Hw. apply Z.eqb_neq in Hid. rewrite Hid. cbn.
      by apply list_elem_of_singleton.
Qed.

Lemma elem_of_same_stop_edges_of db e :
  e ∈ same_stop_edges_of db ↔
  ∃ a b,
    a ∈ tbl_route_stops db ∧ b ∈ tbl_route_stops db
    ∧ rs_stop_id a = rs_stop_id b
    ∧ rs_direction_id a ≠ rs_direction_id b
    ∧ e = (rs_id a, (rs_id b, TRANSFER_PENALTY)).
Proof.
  unfold same_stop_edges_of, same_stop_edges.
  destruct (group_by_grouped rs_stop_id (tbl_route_stops db))
    as (_ & Hfilter & Hex).
  split.
  - intros ([k l] & He & Hin)%list_elem_of_bind.
    apply list_elem_of_bind in He as (a & He & Ha).
    apply list_elem_of_bind in He as (b & He & Hb).
    rewrite (Hfilter k l Hin) in Ha, Hb.
    apply list_elem_of_filter in Ha as [Ha1 Ha2], Hb as [Hb1 Hb2].
    apply elem_of_transfer_edge in He as [Hdir ->].
    exists a, b. repeat split; try done. congruence.
  - intros (a & b & Ha & Hb & Hstop & Hdir & ->).
    destruct (Hex a Ha) as [l Hl].
    apply list_elem_of_bind. exists (rs_stop_id a, l). split; [|done].
    cbn. rewrite (Hfilter _ _ Hl).
    apply list_elem_of_bind. exists a. split; [|by apply list_elem_of_filter].
    apply list_elem_of_bind. exists b. split; [|by apply list_elem_of_filter].
    by apply elem_of_transfer_edge.
Qed.

(** ** Properties of the built graph *)

Lemma build_graph_fresh gis db :
  build_graph gis db None
  = (Ok (add_edges (all_edges gis db) ∅, tbl_route_stops db,
         make_rs_map (tbl_route_stops db)),
     Some (add_edges (all_edges gis db) ∅, tbl_route_stops db,
           make_rs_map (tbl_route_stops db))).
Proof. unfold build_graph. by rewrite build_fresh_spec. Qed.

Lemma ride_edge_weight_nonneg db e :
  monotone_distances db → e ∈ ride_edges_db db → 0 <= e.2.2.
Proof.
  intros Hmono [dir He]%elem_of_ride_edges_db. destruct e as [x [y w]].
  apply elem_of_ride_edges_of in He
    as (l1 & a & b & l2 & da & db' & Hsplit & -> & -> & Hda & Hdb & ->).
  cbn. assert (da <= db'); [|lra].
  assert (a ∈ direction_stops db dir ∧ b ∈ direction_stops db dir) as [Ha Hb].
  { rewrite Hsplit, !elem_of_app, !elem_of_cons. tauto. }
  apply elem_of_direction_stops in Ha as [Ha Hadir], Hb as [Hb Hbdir].
  apply (Hmono a b); try done; [congruence|].
  apply (sorted_adjacent l1 l2). rewrite <- Hsplit. apply sort_by_order_sorted.
Qed.

(** C2.  Every edge weight of the built graph is non-negative when the known
    cumulative distances never decrease along a direction; the weights of the
    walking-transfer edges ([distance_km * 3.0 + 0.6], with the distance the
    spatial index reports) and of the same-stop edges ([0.6]) are
    non-negative without that precondition. *)
Theorem build_graph_weights_nonneg gis db :
  (∀ p q, 0 <= ST_Distance gis p q) →
  ∃ g rss rs_map,
    build_graph gis db None = (Ok (g, rss, rs_map), Some (g, rss, rs_map))
    ∧ (∀ u e, e ∈ adj g u ↔
              (u, e) ∈ ride_edges_db db ++ walking_edges_of gis db
                       ++ same_stop_edges_of db)
    ∧ (∀ u v w, (u, (v, w)) ∈ walking_edges_of gis db →
                ∃ dist_km, 0 <= dist_km
                  ∧ w = dist_km * 3.0 + 0.6 ∧ 0 <= w)
    ∧ (∀ u v w, (u, (v, w)) ∈ same_stop_edges_of db → w = 0.6 ∧ 0 <= w)
    ∧ (monotone_distances db → ∀ u v w, (v, w) ∈ adj g u → 0 <= w).
Proof.
  intros Hdist. eexists _, _, _. split; [apply build_graph_fresh|].
  assert (Hwalk : ∀ u v w, (u, (v, w)) ∈ walking_edges_of gis db →
            ∃ dist_km, 0 <= dist_km ∧ w = dist_km * 3.0 + 0.6 ∧ 0 <= w).
  { intros u v w Hin. apply elem_of_walking_edges_of in Hin
      as (sa & sb & rs_a & rs_b & _ & _ & _ & _ & _ & _ & _ & _ & _
          & [= -> -> ->]).
    pose proof (Hdist (location sa) (location sb)) as Hd.
    exists (ST_Distance gis (location sa) (location sb) / 1000).
    unfold WALK_WEIGHT_GRAPH, TRANSFER_PENALTY.
    assert (0 <= ST_Distance gis (location sa) (location sb) / 1000).
    { apply Qle_shift_div_l; [reflexivity|lra]. }
    repeat split; [done|lra]. }
  assert (Hsame : ∀ u v w, (u, (v, w)) ∈ same_stop_edges_of db →
            w = 0.6 ∧ 0 <= w).
  { intros u v w (a & b & _ & _ & _ & _ & [= -> -> ->])%elem_of_same_stop_edges_of.
    split; [reflexivity|]. unfold TRANSFER_PENALTY. lra. }
  split; [intros u e; apply in_adj_build|].
  split; [done|]. split; [done|].
  intros Hmono u v w Hin%in_adj_build. unfold all_edges in Hin.
  apply elem_of_app in Hin as [Hin|Hin]; [|apply elem_of_app in Hin as [Hin|Hin]].
  - apply (ride_edge_weight_nonneg db (u, (v, w)) Hmono Hin).
  - by destruct (Hwalk u v w Hin) as (? & ? & ? & ?).
  - by destruct (Hsame u v w Hin).
Qed.

Lemma grid_distance_nonneg p q : 0 <= grid_distance p q.
Proof.
  unfold grid_distance.
  pose proof (Qabs_nonneg (fst p - fst q)).
  pose proof (Qabs_nonneg (snd p - snd q)). lra.
Qed.

Lemma sample_db_monotone : monotone_distances sample_db.
Proof.
  intros a b da db' Ha Hb Hdir Hord Hda Hdb. cbn in Ha, Hb.
  repeat (apply elem_of_cons in Ha as [->|Ha]);
    try (by apply elem_of_nil in Ha);
    repeat (apply elem_of_cons in Hb as [->|Hb]);
    try (by apply elem_of_nil in Hb);
    cbn in *; try congruence; try lia; simplify_eq; lra.
Qed.

Lemma build_graph_weights_nonneg_witness :
  ∃ g rss rs_map,
    build_graph grid_gis sample_db None
    = (Ok (g, rss, rs_map), Some (g, rss, rs_map))
    ∧ ∀ u v w, (v, w) ∈ adj g u → 0 <= w.
Proof.
  destruct (build_graph_weights_nonneg grid_gis sample_db grid_distance_nonneg)
    as (g & rss & rs_map & Hbuild & _ & _ & _ & Hall).
  exists g, rss, rs_map. split; [exact Hbuild|].
  exact (Hall sample_db_monotone).
Defined.

Lemma NoDup_fmap_elem_inj {A B : Type} (f : A → B) (l : list A) x y :
  NoDup (f <$> l) → x ∈ l → y ∈ l → f x = f y → x = y.
Proof.
  induction l as [|z l IH]; [by intros _ ?%elem_of_nil|].
  rewrite fmap_cons, NoDup_cons, !elem_of_cons.
  intros [Hnin Hnd] [->|Hx] [->|Hy] Hf; try done.
  - exfalso. apply Hnin. rewrite Hf. by apply list_elem_of_fmap_2.
  - exfalso. apply Hnin. rewrite <- Hf. by apply list_elem_of_fmap_2.
  - by apply IH.
Qed.

(** An edge between two stop-assignments of one direction is a ride edge:
    both distances are known and the weight is their difference. *)
Lemma edges_within_direction gis db dir a b w :
  NoDup (rs_id <$> tbl_route_stops db) →
  a ∈ direction_stops db dir → b ∈ direction_stops db dir →
  (rs_id b, w) ∈ adj (add_edges (all_edges gis db) ∅) (rs_id a) →
  ∃ da db', distance_from_start a = Some da
            ∧ distance_from_start b = Some db' ∧ w = db' - da.
Proof.
  intros Hnd [Ha Hadir]%elem_of_direction_stops
         [Hb Hbdir]%elem_of_direction_stops Hin%in_adj_build.
  unfold all_edges in Hin.
  apply elem_of_app in Hin as [Hin|Hin]; [|apply elem_of_app in Hin as [Hin|Hin]].
  - apply elem_of_ride_edges_db in Hin as [dir' Hin].
    apply elem_of_ride_edges_of in Hin
      as (l1' & a' & b' & l2' & da & db' & Hsplit' & Hida & Hidb & Hda & Hdb & ->).
    assert (a' ∈ direction_stops db dir' ∧ b' ∈ direction_stops db dir')
      as [[Ha' _]%elem_of_direction_stops [Hb' _]%elem_of_direction_stops].
    { rewrite Hsplit', !elem_of_app, !elem_of_cons. tauto. }
    rewrite (NoDup_fmap_elem_inj rs_id _ a a' Hnd Ha Ha' Hida).
    rewrite (NoDup_fmap_elem_inj rs_id _ b b' Hnd Hb Hb' Hidb).
    by exists da, db'.
  - apply elem_of_walking_edges_of in Hin
      as (sa & sb & rs_a & rs_b & _ & _ & _ & _ & Ha' & _ & Hb' & _ & Hdir
          & [= Hida Hidb _]).
    rewrite <- (NoDup_fmap_elem_inj rs_id _ a rs_a Hnd Ha Ha' Hida) in Hdir.
    rewrite <- (NoDup_fmap_elem_inj rs_id _ b rs_b Hnd Hb Hb' Hidb) in Hdir.
    congruence.
  - apply elem_of_same_stop_edges_of in Hin
      as (a' & b' & Ha' & Hb' & _ & Hdir & [= Hida Hidb _]).
    rewrite <- (NoDup_fmap_elem_inj rs_id _ a a' Hnd Ha Ha' Hida) in Hdir.
    rewrite <- (NoDup_fmap_elem_inj rs_id _ b b' Hnd Hb Hb' Hidb) in Hdir.
    congruence.
Qed.

(** C3.  Let [l] list the stop-assignments of a direction by ascending
    ordinal position (those of equal position in table order).  For [a], [b]
    consecutive in [l], the build succeeds and the graph has the ride edge
    from [a] to [b], of weight [b]'s cumulative distance minus [a]'s, exactly
    when both distances are known; when one is unknown there is no edge from
    [a] to [b] at all. *)
Theorem ride_edge_iff_known gis db dir l i a b :
  NoDup (rs_id <$> tbl_route_stops db) →
  ordinal_sequence db dir l →
  l !! i = Some a →
  l !! S i = Some b →
  ∃ g rss rs_map,
    build_graph gis db None = (Ok (g, rss, rs_map), Some (g, rss, rs_map))
    ∧ match distance_from_start a, distance_from_start b with
      | Some da, Some db' =>
          (rs_id b, db' - da) ∈ adj g (rs_id a)
          ∧ ∀ w, (rs_id b, w) ∈ adj g (rs_id a) → w = db' - da
      | _, _ => ∀ w, (rs_id b, w) ∉ adj g (rs_id a)
      end.
Proof.
  intros Hnd Hseq Ha Hb.
  rewrite (ordinal_sequence_unique db dir l Hseq) in Ha, Hb.
  eexists _, _, _. split; [apply build_graph_fresh|].
  destruct (adjacent_split _ _ _ _ Ha Hb) as (l1 & l2 & Hsplit).
  apply list_elem_of_lookup_2 in Ha, Hb.
  pose proof (edges_within_direction gis db dir a b) as Hedge.
  destruct (distance_from_start a) as [da|] eqn:Hda;
    [destruct (distance_from_start b) as [db'|] eqn:Hdb|].
  - split.
    + apply in_adj_build. unfold all_edges. apply elem_of_app. left.
      apply elem_of_ride_edges_db. exists dir. apply elem_of_ride_edges_of.
      by exists l1, a, b, l2, da, db'.
    + intros w Hw.
      destruct (Hedge w Hnd Ha Hb Hw) as (da' & db'' & [= <-] & [= <-] & ->).
      done.
  - intros w Hw. by destruct (Hedge w Hnd Ha Hb Hw) as (? & ? & _ & ? & _).
  - intros w Hw. by destruct (Hedge w Hnd Ha Hb Hw) as (? & ? & ? & _).
Qed.

Lemma sample_route_stops_ids : NoDup (rs_id <$> tbl_route_stops sample_db).
Proof. cbn. repeat (constructor; [set_solver|]). constructor. Qed.

Lemma shuffled_route_stops_ids : NoDup (rs_id <$> tbl_route_stops shuffled_db).
Proof. cbn. repeat (constructor; [set_solver|]). constructor. Qed.

(** The rows of [shuffled_db] are stored in the order 3, 1, 2; in ordinal
    order they are 1, 2, 3. *)
Lemma shuffled_db_ordinal :
  ordinal_sequence shuffled_db 1
    [ sample_rs 1 1 1 1 (Some 0) 0; sample_rs 2 1 2 2 (Some 2) 2000;
      sample_rs 3 1 3 3 (Some 5) 5000 ].
Proof.
  change (ordinal_sequence shuffled_db 1
            ([ sample_rs 1 1 1 1 (Some 0) 0; sample_rs 2 1 2 2 (Some 2) 2000 ]
             ++ [ sample_rs 3 1 3 3 (Some 5) 5000 ])).
  unfold ordinal_sequence.
  change (filter (fun rs => rs_direction_id rs = 1%Z)
            (tbl_route_stops shuffled_db))
    with ([ sample_rs 3 1 3 3 (Some 5) 5000 ]
          ++ [ sample_rs 1 1 1 1 (Some 0) 0; sample_rs 2 1 2 2 (Some 2) 2000 ]).
  split; [|split].
  - cbn [app]. repeat constructor; unfold order_le; cbn; lia.
  - apply Permutation_app_comm.
  - intros k. cbn [app]. rewrite !filter_cons, !filter_nil. cbn [rs_order sample_rs].
    repeat case_decide; try done; lia.
Qed.

Lemma ride_edge_iff_known_witness :
  ∃ g rss rs_map,
    build_graph grid_gis shuffled_db None
    = (Ok (g, rss, rs_map), Some (g, rss, rs_map))
    ∧ (3%Z, 5 - 2) ∈ adj g 2
    ∧ ∀ w, (3%Z, w) ∈ adj g 2 → w = 5 - 2.
Proof.
  apply (ride_edge_iff_known grid_gis shuffled_db 1
           [ sample_rs 1 1 1 1 (Some 0) 0; sample_rs 2 1 2 2 (Some 2) 2000;
             sample_rs 3 1 3 3 (Some 5) 5000 ] 1
           (sample_rs 2 1 2 2 (Some 2) 2000) (sample_rs 3 1 3 3 (Some 5) 5000)).
  - apply shuffled_route_stops_ids.
  - apply shuffled_db_ordinal.
  - reflexivity.
  - reflexivity.
Defined.

(** The other branch: stop-assignment 4 has no recorded distance, so line 2
    has no ride edge out of it, and the build still succeeds. *)
Example ride_edge_omitted_example :
  ∃ g rss rs_map,
    build_graph grid_gis sample_db None
    = (Ok (g, rss, rs_map), Some (g, rss, rs_map))
    ∧ ∀ w, (5%Z, w) ∉ adj g 4.
Proof.
  eexists _, _, _. split; [apply build_graph_fresh|]. intros w Hw.
  destruct (edges_within_direction grid_gis sample_db 2
              (sample_rs 4 2 6 1 None 2300) (sample_rs 5 2 4 2 (Some 1) 5100) w)
    as (? & ? & [=] & _); try done.
  - apply sample_route_stops_ids.
  - apply (list_elem_of_lookup_2 _ 0%nat). reflexivity.
  - apply (list_elem_of_lookup_2 _ 1%nat). reflexivity.
Qed.

(** C8.  Every walking-transfer edge that [build_graph] adds has its reverse
    in the built graph, with the same weight, when the spatial index is
    symmetric (as [ST_DWithin] and [ST_Distance] are). *)
Theorem walking_transfers_symmetric gis db u v w :
  symmetric_gis gis →
  (u, (v, w)) ∈ walking_edges_of gis db →
  ∃ g rss rs_map,
    build_graph gis db None = (Ok (g, rss, rs_map), Some (g, rss, rs_map))
    ∧ (v, w) ∈ adj g u
    ∧ ∃ w', (u, w') ∈ adj g v ∧ w' == w
            ∧ (v, (u, w')) ∈ walking_edges_of gis db
            ∧ ∃ distance_km, w' = distance_km * 3.0 + 0.6.
Proof.
  intros [Hwithin Hdist] Hin. eexists _, _, _.
  split; [apply build_graph_fresh|]. split.
  { apply in_adj_build. unfold all_edges. rewrite !elem_of_app. tauto. }
  apply elem_of_walking_edges_of in Hin
    as (sa & sb & rs_a & rs_b & Hsa & Hsb & Hw & Hid & Ha & Hsta & Hb & Hstb
        & Hdir & [= -> -> ->]).
  exists (ST_Distance gis (location sb) (location sa) / 1000
          * WALK_WEIGHT_GRAPH + TRANSFER_PENALTY).
  assert ((rs_id rs_b,
           (rs_id rs_a,
            ST_Distance gis (location sb) (location sa) / 1000
            * WALK_WEIGHT_GRAPH + TRANSFER_PENALTY))
          ∈ walking_edges_of gis db) as Hrev.
  { apply elem_of_walking_edges_of. exists sb, sa, rs_b, rs_a.
    rewrite Hwithin. repeat split; try done; congruence. }
  split; [|split; [|split; [done|by eexists]]].
  - apply in_adj_build. unfold all_edges. rewrite !elem_of_app. tauto.
  - by rewrite (Hdist (location sb) (location sa)).
Qed.

Lemma grid_distance_sym p q : grid_distance p q == grid_distance q p.
Proof.
  unfold grid_distance.
  by rewrite (Qabs_Qminus (fst p)), (Qabs_Qminus (snd p)).
Qed.

Lemma grid_gis_symmetric : symmetric_gis grid_gis.
Proof.
  split; [|apply grid_distance_sym].
  intros p q r. cbn.
  destruct (Qle_bool (grid_distance p q) r) eqn:H1,
           (Qle_bool (grid_distance q p) r) eqn:H2; try done.
  - apply Qle_bool_iff in H1. rewrite grid_distance_sym in H1.
    apply Qle_bool_iff in H1. congruence.
  - apply Qle_bool_iff in H2. rewrite grid_distance_sym in H2.
    apply Qle_bool_iff in H2. congruence.
Qed.

Lemma walking_transfers_symmetric_witness :
  let w := grid_distance (location (sample_stop 3 5000))
                         (location (sample_stop 4 5100)) / 1000 * 3.0 + 0.6 in
  ∃ g rss rs_map,
    build_graph grid_gis sample_db None
    = (Ok (g, rss, rs_map), Some (g, rss, rs_map))
    ∧ (5%Z, w) ∈ adj g 3
    ∧ ∃ w', (3%Z, w') ∈ adj g 5 ∧ w' == w
            ∧ (5%Z, (3%Z, w')) ∈ walking_edges_of grid_gis sample_db
            ∧ ∃ distance_km, w' = distance_km * 3.0 + 0.6.
Proof.
  apply (walking_transfers_symmetric grid_gis sample_db 3 5).
  - apply grid_gis_symmetric.
  - apply elem_of_walking_edges_of.
    exists (sample_stop 3 5000), (sample_stop 4 5100),
           (sample_rs 3 1 3 3 (Some 5) 5000), (sample_rs 5 2 4 2 (Some 1) 5100).
    cbn. repeat split; try done; set_solver.
Defined.

(** ** The build cache *)

(** C4, as the claim states it: every call returns the build of the data it
    reads.  It fails once a build is cached. *)
Lemma build_graph_returns_stale_build :
  let cache := (build_graph grid_gis sample_db None).2 in
  (build_graph grid_gis edited_db cache).1 = build_fresh grid_gis sample_db
  ∧ (build_graph grid_gis edited_db cache).1 ≠ build_fresh grid_gis edited_db.
Proof.
  cbn zeta. rewrite build_graph_fresh. cbn [snd build_graph fst].
  rewrite !build_fresh_spec. split; [done|].
  intros H.
  apply (f_equal (fun r => match r with Ok (g, _, _) => adj g 1 | _ => [] end)) in H.
  vm_compute in H. discriminate H.
Qed.

(** C4, amended.  With no cached build the graph, the node list and the node
    index are built in full from the tables and the triple is stored; with a
    cached build the stored triple is returned as it is, whatever the tables
    hold now. *)
Theorem build_graph_cache gis db :
  (∃ built,
     build_fresh gis db = Ok built
     ∧ built = (add_edges (all_edges gis db) ∅, tbl_route_stops db,
                make_rs_map (tbl_route_stops db))
     ∧ build_graph gis db None = (Ok built, Some built))
  ∧ (∀ cached, build_graph gis db (Some cached) = (Ok cached, Some cached)).
Proof.
  split; [|done]. eexists. split; [apply build_fresh_spec|].
  split; [done|apply build_graph_fresh].
Qed.

(** * The trip assembler *)

(** ** Segmentation *)

Lemma py_getitem_Some {V : Type} (d : gmap Z V) k v :
  d !! k = Some v → py_getitem d k = Ok v.
Proof. unfold py_getitem. by intros ->. Qed.

Lemma for_each_group rs_map path_ids nodes st :
  resolves rs_map path_ids nodes →
  for_each path_ids
    (fun rs_id st => rs ← py_getitem rs_map rs_id; Ok (group_step st rs)) st
  = Ok (fold_left group_step nodes st).
Proof.
  intros Hres. revert st.
  induction Hres as [|rs_id rs ids nodes Hlook _ IH]; intros st; [done|].
  cbn [for_each fold_left]. rewrite (py_getitem_Some _ _ _ Hlook). cbn.
  apply IH.
Qed.

Lemma direction_changes_cons a b rest :
  direction_changes (a :: b :: rest)
  = ((if decide (rs_direction_id a = rs_direction_id b) then 0 else 1)
     + direction_changes (b :: rest))%nat.
Proof. reflexivity. Qed.

Lemma direction_changes_snoc l rs :
  direction_changes (l ++ [rs])
  = (direction_changes l
     + match last l with
       | Some x => if decide (rs_direction_id x = rs_direction_id rs) then 0 else 1
       | None => 0
       end)%nat.
Proof.
  induction l as [|a l IH]; [done|].
  destruct l as [|b l].
  - cbn. lia.
  - change ((a :: b :: l) ++ [rs]) with (a :: b :: (l ++ [rs])).
    rewrite !direction_changes_cons, last_cons_cons.
    change (b :: l ++ [rs]) with ((b :: l) ++ [rs]). rewrite IH. lia.
Qed.

Lemma same_direction_snoc cur l rs :
  same_direction cur → last cur = Some l →
  rs_direction_id l = rs_direction_id rs →
  same_direction (cur ++ [rs]).
Proof.
  intros Hsame Hlast Hdir x y.
  apply last_Some_elem_of in Hlast.
  rewrite !elem_of_app, !list_elem_of_singleton.
  intros [Hx| ->] [Hy| ->]; try done.
  - by apply Hsame.
  - rewrite <- Hdir. by apply Hsame.
  - rewrite <- Hdir. by apply Hsame.
Qed.

Lemma group_step_first rs : grouping_inv [rs] (group_step ([], []) rs).
Proof.
  cbn. repeat split; cbn; try done.
  - constructor; [|constructor]. split; [done|].
    intros x y ->%list_elem_of_singleton ->%list_elem_of_singleton. done.
  - intros [|? [|? ?]] s1 s2 l2 x y; cbn; intros [=].
Qed.

Lemma group_step_inv nodes st rs :
  grouping_inv nodes st → grouping_inv (nodes ++ [rs]) (group_step st rs).
Proof.
  destruct st as [segs cur]. unfold grouping_inv, group_step. cbn [fst snd].
  intros (Hne & (Hcat & Hall & Hbound) & Hlen).
  apply Forall_app in Hall as [Hsegs [[_ Hcur] _]%Forall_cons].
  assert (last nodes = last cur) as Hlast.
  { rewrite <- Hcat, concat_app. cbn. rewrite app_nil_r, last_app.
    destruct (last cur) eqn:E; [done|]. by apply last_None in E. }
  rewrite direction_changes_snoc, Hlast.
  destruct (last cur) as [l|] eqn:Hl; [|by apply last_None in Hl].
  destruct (decide (rs_direction_id l = rs_direction_id rs)) as [Hdir|Hdir];
    cbn [fst snd].
  - split; [by destruct cur|]. split; [split; [|split]|].
    + rewrite concat_app in Hcat |- *. cbn in *. rewrite app_nil_r in *.
      by rewrite <- Hcat, app_assoc.
    + apply Forall_app. split; [done|]. constructor; [|constructor].
      split; [by destruct cur|]. by apply (same_direction_snoc cur l).
    + intros l1 s1 s2 l2 x y Heq Hx Hy.
      destruct l2 as [|z l2 _] using rev_ind.
      * change (l1 ++ [s1; s2]) with (l1 ++ [s1] ++ [s2]) in Heq.
        rewrite app_assoc in Heq. apply app_inj_tail in Heq as [-> <-].
        apply (Hbound l1 s1 cur [] x y); [by rewrite <- app_assoc|done|].
        rewrite head_app in Hy. destruct (head cur) eqn:E; [done|].
        by apply head_None in E.
      * change (l1 ++ s1 :: s2 :: l2 ++ [z])
          with (l1 ++ (s1 :: s2 :: l2) ++ [z]) in Heq.
        rewrite app_assoc in Heq. apply app_inj_tail in Heq as [-> <-].
        apply (Hbound l1 s1 s2 (l2 ++ [cur]) x y); [|done|done].
        by rewrite <- app_assoc.
    + rewrite !length_app in *. cbn in *. lia.
  - split; [done|]. split; [split; [|split]|].
    + rewrite concat_app, Hcat. cbn. done.
    + apply Forall_app. split; [|constructor; [|constructor]].
      * apply Forall_app. split; [done|]. constructor; [done|constructor].
      * split; [done|].
        intros x y ->%list_elem_of_singleton ->%list_elem_of_singleton. done.
    + intros l1 s1 s2 l2 x y Heq Hx Hy.
      destruct l2 as [|z l2 _] using rev_ind.
      * change (l1 ++ [s1; s2]) with (l1 ++ [s1] ++ [s2]) in Heq.
        rewrite app_assoc in Heq. apply app_inj_tail in Heq as [Heq <-].
        apply app_inj_tail in Heq as [_ <-].
        cbn in Hy. by simplify_eq.
      * change (l1 ++ s1 :: s2 :: l2 ++ [z])
          with (l1 ++ (s1 :: s2 :: l2) ++ [z]) in Heq.
        rewrite app_assoc in Heq. apply app_inj_tail in Heq as [Heq _].
        by apply (Hbound l1 s1 s2 l2 x y).
    + rewrite !length_app in *. cbn in *. lia.
Qed.

Lemma group_fold_inv nodes :
  nodes ≠ [] → grouping_inv nodes (fold_left group_step nodes ([], [])).
Proof.
  induction nodes as [|rs nodes IH] using rev_ind; [done|]. intros _.
  rewrite fold_left_app. cbn [fold_left].
  destruct nodes as [|a nodes]; [apply group_step_first|].
  by apply group_step_inv, IH.
Qed.

Lemma group_segments_runs rs_map path_ids nodes :
  path_ids ≠ [] →
  resolves rs_map path_ids nodes →
  ∃ segments,
    group_segments rs_map path_ids = Ok segments
    ∧ maximal_runs nodes segments
    ∧ length segments = S (direction_changes nodes).
Proof.
  intros Hne Hres. unfold group_segments.
  rewrite (for_each_group rs_map path_ids nodes _ Hres).
  assert (nodes ≠ []) as Hnodes.
  { intros ->. apply Forall2_nil_inv_r in Hres. done. }
  destruct (group_fold_inv nodes Hnodes) as (_ & Hruns & Hlen).
  destruct (fold_left group_step nodes ([], [])) as [segs cur]. cbn in *.
  eexists. done.
Qed.

(** C5.  For a non-empty path the grouping loop yields exactly the maximal
    runs of consecutive nodes of one direction: as many segments as there
    are positions where consecutive nodes differ in direction, plus one; a
    path of a single node yields one segment. *)
Theorem segments_are_direction_runs rs_map path_ids nodes :
  path_ids ≠ [] →
  resolves rs_map path_ids nodes →
  ∃ segments,
    group_segments rs_map path_ids = Ok segments
    ∧ maximal_runs nodes segments
    ∧ length segments = S (direction_changes nodes)
    ∧ (length path_ids = 1%nat → length segments = 1%nat).
Proof.
  intros Hne Hres.
  destruct (group_segments_runs rs_map path_ids nodes Hne Hres)
    as (segments & Hgroup & Hruns & Hlen).
  exists segments. repeat split; try done; try apply Hruns.
  intros Hone. rewrite Hlen.
  apply Forall2_length in Hres. rewrite Hone in Hres.
  destruct nodes as [|a [|b nodes]]; cbn in Hres; try done.
Qed.

Lemma sample_path_resolves :
  resolves sample_rs_map [1; 2; 4]%Z
    [ sample_rs 1 1 1 1 (Some 0) 0; sample_rs 2 1 2 2 (Some 2) 2000;
      sample_rs 4 2 6 1 None 2300 ].
Proof. repeat constructor. Qed.

Lemma segments_are_direction_runs_witness :
  ∃ segments,
    group_segments sample_rs_map [1; 2; 4]%Z = Ok segments
    ∧ maximal_runs
        [ sample_rs 1 1 1 1 (Some 0) 0; sample_rs 2 1 2 2 (Some 2) 2000;
          sample_rs 4 2 6 1 None 2300 ] segments
    ∧ length segments
      = S (direction_changes
             [ sample_rs 1 1 1 1 (Some 0) 0; sample_rs 2 1 2 2 (Some 2) 2000;
               sample_rs 4 2 6 1 None 2300 ])
    ∧ (length [1; 2; 4]%Z = 1%nat → length segments = 1%nat).
Proof.
  apply segments_are_direction_runs; [done|apply sample_path_resolves].
Defined.

(** ** Rounding and the distance of a point to itself *)

Lemma py_round_zero x n : x == 0 → py_round x n == 0.
Proof.
  intros Hx. unfold py_round, round_half_even.
  assert (x * inject_Z (10 ^ Z.of_nat n) == 0) as Hs by (rewrite Hx; ring).
  rewrite (Qfloor_comp _ _ Hs). change (Qfloor 0) with 0%Z.
  assert (Qcompare (x * inject_Z (10 ^ Z.of_nat n) - inject_Z 0) (1 # 2) = Lt)
    as Hlt.
  { apply Qlt_alt. rewrite Hs. reflexivity. }
  rewrite Hlt.
  unfold Qdiv. change (inject_Z 0) with 0. ring.
Qed.

Lemma haversine_same_point M lat1 lng1 lat2 lng2 :
  exact_at_zero M → lat1 == lat2 → lng1 == lng2 →
  haversine M lat1 lng1 lat2 lng2 == 0.
Proof.
  intros (Hsin & Hsqrt & Hasin) Hlat Hlng. unfold haversine, radians.
  cbn zeta.
  assert (m_sin M ((lat2 * (m_pi M / 180) - lat1 * (m_pi M / 180)) / 2) == 0)
    as H1.
  { apply Hsin. rewrite Hlat. unfold Qdiv. ring. }
  assert (m_sin M ((lng2 * (m_pi M / 180) - lng1 * (m_pi M / 180)) / 2) == 0)
    as H2.
  { apply Hsin. rewrite Hlng. unfold Qdiv. ring. }
  rewrite Hasin; [ring|]. apply Hsqrt. rewrite H1, H2. ring.
Qed.

(** ** One turn of the assembly loop *)

Lemma py_last_Some {A : Type} (l : list A) x : last l = Some x → py_last l = Ok x.
Proof. unfold py_last. by intros ->. Qed.

Lemma py_first_Some {A : Type} (l : list A) x : head l = Some x → py_first l = Ok x.
Proof. destruct l; [done|]. by intros [= ->]. Qed.

Lemma py_index_Some {A : Type} (l : list A) i x : l !! i = Some x → py_index l i = Ok x.
Proof. unfold py_index. by intros ->. Qed.

Lemma assemble_segment_first M segments seg f l df dl acc :
  head seg = Some f → last seg = Some l →
  distance_from_start f = Some df → distance_from_start l = Some dl →
  assemble_segment M segments (0%nat, seg) acc
  = Ok {| total_duration_mins :=
            total_duration_mins acc + ride_duration df dl (length seg);
          total_cost :=
            total_cost acc
            + ticket_price_or_default (ticket_price (route (rs_direction f)));
          total_dist_km := total_dist_km acc + ride_distance df dl;
          route_segments_data :=
            route_segments_data acc ++ [segment_record None seg f df dl] |}.
Proof.
  intros Hf Hl Hdf Hdl. unfold assemble_segment.
  rewrite (py_last_Some _ _ Hl), (py_first_Some _ _ Hf). cbn [mbind result_bind].
  rewrite Hdf, Hdl. reflexivity.
Qed.

Lemma assemble_segment_next M segments i seg f l df dl prev p acc :
  head seg = Some f → last seg = Some l →
  distance_from_start f = Some df → distance_from_start l = Some dl →
  segments !! i = Some prev → last prev = Some p →
  assemble_segment M segments (S i, seg) acc
  = Ok {| total_duration_mins :=
            total_duration_mins acc + ride_duration df dl (length seg)
            + walk_duration_mins (transfer_record M (rs_stop p) (rs_stop f));
          total_cost :=
            total_cost acc
            + ticket_price_or_default (ticket_price (route (rs_direction f)));
          total_dist_km :=
            total_dist_km acc + ride_distance df dl
            + haversine M (lat (rs_stop p)) (lng (rs_stop p))
                          (lat (rs_stop f)) (lng (rs_stop f));
          route_segments_data :=
            route_segments_data acc
            ++ [segment_record (Some (transfer_record M (rs_stop p) (rs_stop f)))
                               seg f df dl] |}.
Proof.
  intros Hf Hl Hdf Hdl Hprev Hp. unfold assemble_segment.
  rewrite (py_last_Some _ _ Hl), (py_first_Some _ _ Hf). cbn [mbind result_bind].
  rewrite Hdf, Hdl. cbn [py_sub mbind result_bind Nat.ltb Nat.leb].
  replace (S i - 1)%nat with i by lia.
  rewrite (py_index_Some _ _ _ Hprev). cbn [mbind result_bind].
  rewrite (py_last_Some _ _ Hp). reflexivity.
Qed.

(** ** The single-direction scenario *)

(** C6.  A path of three stops of one direction, 0 km, 2 km and 5 km from the
    start of the line, on a route whose ticket costs 10, is one segment of
    5 km, 5 * 2.0 + 3 * 0.3 = 10.9 minutes and cost 10. *)
Theorem single_direction_scenario M rs_map path_ids a b c :
  resolves rs_map path_ids [a; b; c] →
  rs_direction_id a = rs_direction_id b →
  rs_direction_id b = rs_direction_id c →
  distance_from_start a = Some 0 →
  distance_from_start b = Some 2 →
  distance_from_start c = Some 5 →
  ticket_price (route (rs_direction a)) = Some 10%Z →
  group_segments rs_map path_ids = Ok [[a; b; c]]
  ∧ ∃ acc seg,
      assemble_segments M [[a; b; c]] = Ok acc
      ∧ route_segments_data acc = [seg]
      ∧ transfer_from_previous seg = None
      ∧ segment_distance_km (segment_direction seg) == 5
      ∧ segment_duration_mins (segment_direction seg) == 10.9
      ∧ summary_ticket_price (segment_route seg) == 10
      ∧ total_dist_km acc == 5
      ∧ total_duration_mins acc == 5 * 2.0 + 3 * 0.3
      ∧ total_cost acc == 10.
Proof.
  intros Hres Hab Hbc Ha Hb Hc Hprice. split.
  - unfold group_segments. rewrite (for_each_group _ _ _ _ Hres).
    cbn [fold_left]. unfold group_step at 3. cbn [last app].
    unfold group_step at 2. cbn [last app]. rewrite decide_True by done.
    unfold group_step. cbn [last app]. rewrite decide_True by done.
    reflexivity.
  - unfold assemble_segments. cbn [length seq zip zip_with for_each].
    rewrite (assemble_segment_first M _ [a; b; c] a c 0 5) by done.
    cbn [mbind result_bind]. eexists _, _. split; [reflexivity|].
    cbn [route_segments_data app total_dist_km total_duration_mins total_cost].
    split; [reflexivity|].
    cbn [segment_record transfer_from_previous segment_direction segment_route
         segment_distance_km segment_duration_mins summary_ticket_price].
    rewrite Hprice. repeat split; reflexivity.
Qed.

Lemma single_direction_scenario_witness :
  group_segments sample_rs_map [1; 2; 3]%Z
  = Ok [[ sample_rs 1 1 1 1 (Some 0) 0; sample_rs 2 1 2 2 (Some 2) 2000;
          sample_rs 3 1 3 3 (Some 5) 5000 ]]
  ∧ ∃ acc seg,
      assemble_segments series_math
        [[ sample_rs 1 1 1 1 (Some 0) 0; sample_rs 2 1 2 2 (Some 2) 2000;
           sample_rs 3 1 3 3 (Some 5) 5000 ]] = Ok acc
      ∧ route_segments_data acc = [seg]
      ∧ transfer_from_previous seg = None
      ∧ segment_distance_km (segment_direction seg) == 5
      ∧ segment_duration_mins (segment_direction seg) == 10.9
      ∧ summary_ticket_price (segment_route seg) == 10
      ∧ total_dist_km acc == 5
      ∧ total_duration_mins acc == 5 * 2.0 + 3 * 0.3
      ∧ total_cost acc == 10.
Proof.
  apply (single_direction_scenario series_math sample_rs_map [1; 2; 3]%Z);
    try reflexivity.
  repeat constructor.
Defined.

(** ** The same-stop transfer *)

(** C7.  When the first segment of a two-segment path ends at the stop where
    the second begins (same stop id, same coordinates), the transfer into the
    second segment has walking distance 0 and duration 0 and is flagged as a
    same-stop transfer, and the totals are those of the two rides alone. *)
Theorem same_stop_transfer M s1 s2 f1 l1 f2 l2 d1f d1l d2f d2l :
  exact_at_zero M →
  head s1 = Some f1 → last s1 = Some l1 →
  head s2 = Some f2 → last s2 = Some l2 →
  distance_from_start f1 = Some d1f → distance_from_start l1 = Some d1l →
  distance_from_start f2 = Some d2f → distance_from_start l2 = Some d2l →
  stop_ident (rs_stop l1) = stop_ident (rs_stop f2) →
  lat (rs_stop l1) == lat (rs_stop f2) →
  lng (rs_stop l1) == lng (rs_stop f2) →
  ∃ acc r1 r2 t,
    assemble_segments M [s1; s2] = Ok acc
    ∧ route_segments_data acc = [r1; r2]
    ∧ transfer_from_previous r1 = None
    ∧ transfer_from_previous r2 = Some t
    ∧ from_stop t = rs_stop l1 ∧ to_stop t = rs_stop f2
    ∧ walk_dist_km t == 0
    ∧ walk_duration_mins t == 0
    ∧ is_same_stop t = true
    ∧ total_duration_mins acc
      == ride_duration d1f d1l (length s1) + ride_duration d2f d2l (length s2)
    ∧ total_dist_km acc == ride_distance d1f d1l + ride_distance d2f d2l.
Proof.
  intros HM Hf1 Hl1 Hf2 Hl2 Hd1f Hd1l Hd2f Hd2l Hid Hlat Hlng.
  pose proof (haversine_same_point M _ _ _ _ HM Hlat Hlng) as Hzero.
  unfold assemble_segments. cbn [length seq zip zip_with for_each].
  rewrite (assemble_segment_first M _ s1 f1 l1 d1f d1l) by done.
  cbn [mbind result_bind].
  rewrite (assemble_segment_next M _ 0 s2 f2 l2 d2f d2l s1 l1) by done.
  cbn [mbind result_bind]. eexists _, _, _, _. split; [reflexivity|].
  cbn [route_segments_data app total_dist_km total_duration_mins total_cost].
  split; [reflexivity|].
  cbn [segment_record transfer_from_previous transfer_record from_stop to_stop
       walk_dist_km walk_duration_mins is_same_stop].
  repeat split.
  - by apply py_round_zero.
  - apply py_round_zero. rewrite Hzero. ring.
  - by apply Z.eqb_eq.
  - rewrite (py_round_zero _ 1) by (rewrite Hzero; ring). ring.
  - rewrite Hzero. ring.
Qed.

Lemma series_math_exact : exact_at_zero series_math.
Proof.
  repeat split; intros x Hx; cbn.
  - rewrite Hx. reflexivity.
  - unfold series_sqrt. unfold Qeq in Hx. cbn in Hx.
    rewrite Z.mul_1_r in Hx. rewrite Hx. reflexivity.
  - rewrite Hx. reflexivity.
Qed.

Lemma same_stop_transfer_witness :
  ∃ acc r1 r2 t,
    assemble_segments series_math
      [ [sample_rs 1 1 1 1 (Some 0) 0; sample_rs 2 1 2 2 (Some 2) 2000];
        [line3_at_stop2; line3_at_stop9] ] = Ok acc
    ∧ route_segments_data acc = [r1; r2]
    ∧ transfer_from_previous r1 = None
    ∧ transfer_from_previous r2 = Some t
    ∧ from_stop t = sample_stop 2 2000 ∧ to_stop t = sample_stop 2 2000
    ∧ walk_dist_km t == 0
    ∧ walk_duration_mins t == 0
    ∧ is_same_stop t = true
    ∧ total_duration_mins acc == ride_duration 0 2 2 + ride_duration 0 4 2
    ∧ total_dist_km acc == ride_distance 0 2 + ride_distance 0 4.
Proof.
  apply (same_stop_transfer series_math
           [sample_rs 1 1 1 1 (Some 0) 0; sample_rs 2 1 2 2 (Some 2) 2000]
           [line3_at_stop2; line3_at_stop9]
           (sample_rs 1 1 1 1 (Some 0) 0) (sample_rs 2 1 2 2 (Some 2) 2000)
           line3_at_stop2 line3_at_stop9 0 2 0 4);
    solve [reflexivity | apply series_math_exact].
Defined.

(** ** Segments with a missing distance *)

Lemma assemble_segment_missing M segments i seg acc :
  seg ≠ [] → missing_distance seg →
  assemble_segment M segments (i, seg) acc = Raise TypeError.
Proof.
  intros Hne (x & Hx & Hnone). unfold assemble_segment.
  destruct (last seg) as [l|] eqn:Hl; [|by apply last_None in Hl].
  destruct (head seg) as [f|] eqn:Hf; [|by apply head_None in Hf].
  rewrite (py_last_Some _ _ Hl), (py_first_Some _ _ Hf). cbn [mbind result_bind].
  destruct Hx as [[= ->]|[= ->]]; rewrite Hnone.
  - by destruct (distance_from_start l).
  - done.
Qed.

Lemma assemble_segment_result M pre seg rest acc :
  Forall (fun s => s ≠ []) (pre ++ seg :: rest) →
  (∃ acc', assemble_segment M (pre ++ seg :: rest) (length pre, seg) acc = Ok acc')
  ∨ assemble_segment M (pre ++ seg :: rest) (length pre, seg) acc = Raise TypeError.
Proof.
  intros Hall. unfold assemble_segment.
  assert (seg ≠ []) as Hne.
  { apply Forall_app in Hall as [_ [? _]%Forall_cons]. done. }
  destruct (last seg) as [l|] eqn:Hl; [|by apply last_None in Hl].
  destruct (head seg) as [f|] eqn:Hf; [|by apply head_None in Hf].
  rewrite (py_last_Some _ _ Hl), (py_first_Some _ _ Hf). cbn [mbind result_bind].
  destruct (distance_from_start l), (distance_from_start f);
    cbn [py_sub mbind result_bind]; try by right.
  destruct pre as [|p pre _] using rev_ind; [left; by eexists|].
  rewrite length_app. cbn [length].
  replace (length pre + 1)%nat with (S (length pre)) by lia.
  cbn [Nat.ltb Nat.leb]. replace (S (length pre) - 1)%nat with (length pre) by lia.
  assert (((pre ++ [p]) ++ seg :: rest) !! length pre = Some p) as Hp.
  { rewrite <- app_assoc. cbn [app]. by apply list_lookup_middle. }
  rewrite (py_index_Some _ _ _ Hp). cbn [mbind result_bind].
  assert (p ≠ []) as Hpne.
  { apply Forall_app in Hall as [[_ [? _]%Forall_cons]%Forall_app _]. done. }
  destruct (last p) as [pl|] eqn:Hpl; [|by apply last_None in Hpl].
  rewrite (py_last_Some _ _ Hpl). left. by eexists.
Qed.

Lemma assemble_loop_missing M pre rest acc :
  Forall (fun s => s ≠ []) (pre ++ rest) →
  Exists missing_distance rest →
  for_each (zip (seq (length pre) (length rest)) rest)
           (assemble_segment M (pre ++ rest)) acc
  = Raise TypeError.
Proof.
  revert pre acc. induction rest as [|seg rest IH]; intros pre acc Hall Hex.
  - by apply Exists_nil in Hex.
  - cbn [length seq zip zip_with for_each].
    apply Exists_cons in Hex as [Hmiss|Hex].
    + rewrite assemble_segment_missing; [done| |done].
      apply Forall_app in Hall as [_ [? _]%Forall_cons]. done.
    + destruct (assemble_segment_result M pre seg rest acc Hall)
        as [[acc' Hok]|Hraise]; [|by rewrite Hraise].
      rewrite Hok. cbn [mbind result_bind].
      specialize (IH (pre ++ [seg]) acc').
      rewrite length_app, <- app_assoc in IH. cbn [length app] in IH.
      replace (length pre + 1)%nat with (S (length pre)) in IH by lia.
      by apply IH.
Qed.

(** The loop of lines 79-125 stops with [TypeError] at the first segment with
    a missing distance. *)
Lemma assemble_segments_missing M segments :
  Forall (fun s => s ≠ []) segments →
  Exists missing_distance segments →
  assemble_segments M segments = Raise TypeError.
Proof. intros Hall Hex. by apply (assemble_loop_missing M []). Qed.

(** C10.  When a segment of the reconstructed path begins or ends at a
    stop-assignment with no recorded cumulative distance, the handler does
    not answer with a trip or an HTTP error: the segment-distance subtraction
    raises [TypeError]. *)
Theorem missing_distance_raises M rs_map path_ids nodes segments
    start_candidates end_candidates :
  path_ids ≠ [] →
  resolves rs_map path_ids nodes →
  group_segments rs_map path_ids = Ok segments →
  Exists missing_distance segments →
  assemble_trip M rs_map path_ids start_candidates end_candidates
  = Raise TypeError.
Proof.
  intros Hne Hres Hgroup Hex.
  destruct (group_segments_runs rs_map path_ids nodes Hne Hres)
    as (segments' & Hgroup' & (_ & Hall & _) & _).
  rewrite Hgroup in Hgroup'. injection Hgroup' as <-.
  unfold assemble_trip. rewrite Hgroup. cbn [mbind result_bind].
  rewrite assemble_segments_missing; [done| |done].
  eapply Forall_impl; [exact Hall|]. by intros seg [? _].
Qed.

Lemma missing_distance_raises_witness :
  assemble_trip series_math sample_rs_map [1; 2; 4]%Z [] [] = Raise TypeError.
Proof.
  apply (missing_distance_raises series_math sample_rs_map [1; 2; 4]%Z
           [ sample_rs 1 1 1 1 (Some 0) 0; sample_rs 2 1 2 2 (Some 2) 2000;
             sample_rs 4 2 6 1 None 2300 ]
           [ [sample_rs 1 1 1 1 (Some 0) 0; sample_rs 2 1 2 2 (Some 2) 2000];
             [sample_rs 4 2 6 1 None 2300] ]).
  - done.
  - apply sample_path_resolves.
  - reflexivity.
  - apply Exists_cons. right. apply Exists_cons. left.
    exists (sample_rs 4 2 6 1 None 2300). split; [by left|reflexivity].
Defined.

(** Such a node is reached by a transfer edge: on the sample network the
    search from stop 1 to a point near stop 6 ends at stop-assignment 4,
    which has no recorded distance, and the handler raises. *)
Example missing_distance_reached :
  (build_graph grid_gis sample_db None).1 = Ok sample_transit_data
  ∧ find_route series_math grid_gis 100 (sample_request 0 0.0295) sample_db
      sample_transit_data
    = ([NearbyStopsLookup 0 0; NearbyStopsLookup 0 0.0295; GraphSearch],
       Raise TypeError).
Proof.
  split; [by rewrite build_graph_fresh|]. vm_compute. reflexivity.
Qed.

(** ** Requests that are too far *)

(** C9.  A request whose origin and destination are more than 200 km apart
    is refused with the too-far error, and the handler has made no
    nearby-stop lookup and no graph search. *)
Theorem too_far_rejected M gis fuel payload db transit_data :
  200 < haversine M (loc_lat (from_location payload))
                    (loc_lng (from_location payload))
                    (loc_lat (to_location payload))
                    (loc_lng (to_location payload)) →
  find_route M gis fuel payload db transit_data
  = ([], Raise (HTTPException 400 "Distance too far for local transit search.")).
Proof.
  intros Hfar. unfold find_route. cbn zeta.
  destruct (Qlt_le_dec 200 _) as [_|Hle]; [done|]. lra.
Qed.

Lemma too_far_rejected_witness :
  find_route series_math grid_gis 100 (sample_request 0 5) sample_db
    sample_transit_data
  = ([], Raise (HTTPException 400 "Distance too far for local transit search.")).
Proof. apply too_far_rejected. vm_compute. reflexivity. Defined.

(** * The path search *)

(** ** The frontier *)

Lemma entry_le_true x y : entry_le x y = true → fst x <= fst y.
Proof.
  unfold entry_le. destruct (Qcompare_spec (fst x) (fst y)) as [H|H|H];
    intros; try done; lra.
Qed.

Lemma entry_le_false x y : entry_le x y = false → fst y <= fst x.
Proof.
  unfold entry_le. destruct (Qcompare_spec (fst x) (fst y)) as [H|H|H];
    intros; try done; lra.
Qed.

Lemma heappop_None pq : heappop pq = None ↔ pq = [].
Proof.
  destruct pq as [|x rest]; [done|]. cbn.
  destruct (heappop rest) as [[m rest']|]; [|done].
  by destruct (entry_le x m).
Qed.

Lemma heappop_perm pq m pq' : heappop pq = Some (m, pq') → pq ≡ₚ m :: pq'.
Proof.
  revert m pq'. induction pq as [|x rest IH]; intros m pq'; [done|]. cbn.
  destruct (heappop rest) as [[m0 rest']|] eqn:Hrest.
  - specialize (IH _ _ eq_refl).
    destruct (entry_le x m0); intros [= <- <-]; [done|].
    rewrite IH. apply Permutation_swap.
  - apply heappop_None in Hrest as ->. by intros [= <- <-].
Qed.

Lemma heappop_min pq m pq' x :
  heappop pq = Some (m, pq') → x ∈ pq' → fst m <= fst x.
Proof.
  revert m pq' x. induction pq as [|y rest IH]; intros m pq' x; [done|]. cbn.
  destruct (heappop rest) as [[m0 rest']|] eqn:Hrest.
  - pose proof (heappop_perm _ _ _ Hrest) as Hperm.
    destruct (entry_le y m0) eqn:Hle; intros [= <- <-] Hx.
    + apply entry_le_true in Hle. rewrite Hperm in Hx.
      apply elem_of_cons in Hx as [->|Hx]; [done|].
      pose proof (IH _ _ _ eq_refl Hx). lra.
    + apply entry_le_false in Hle.
      apply elem_of_cons in Hx as [->|Hx]; [done|].
      by apply (IH _ _ _ eq_refl).
  - intros [= <- <-] Hx. by apply elem_of_nil in Hx.
Qed.

Lemma distinct_entries_perm l1 l2 :
  l1 ≡ₚ l2 → distinct_entries l1 → distinct_entries l2.
Proof.
  induction 1 as [|[d u] l1 l2 Hperm IH|[d1 u1] [d2 u2] l|l1 l2 l3 _ IH1 _ IH2];
    intros Hd.
  - done.
  - inversion Hd as [|? ? ? Hfresh Hd']; subst.
    constructor; [|by apply IH]. intros d' Hin. apply Hfresh. by rewrite Hperm.
  - inversion Hd as [|? ? ? Hfresh1 Hd']; subst.
    inversion Hd' as [|? ? ? Hfresh2 Hd'']; subst.
    constructor; [|constructor; [|done]].
    + intros d' [[= -> ->]|Hin]%elem_of_cons.
      * intros Heq. apply (Hfresh1 d1); [by left|]. by symmetry.
      * by apply Hfresh2.
    + intros d' Hin. apply Hfresh1. by right.
  - by apply IH2, IH1.
Qed.

Lemma heappop_distinct pq d u pq' :
  heappop pq = Some ((d, u), pq') → distinct_entries pq →
  distinct_entries pq' ∧ ∀ d', (d', u) ∈ pq' → ¬ d' == d.
Proof.
  intros Hpop%heappop_perm Hd.
  apply (distinct_entries_perm _ _ Hpop) in Hd.
  by inversion Hd; subst.
Qed.

(** ** Settled nodes and the measure *)

Lemma unsettled_b_false st u : unsettled_b st u = false ↔ settled st u.
Proof.
  unfold unsettled_b, settled. destruct (dist st !! u) as [d|]; [|naive_solver].
  split.
  - intros Hex. exists d. split; [done|]. intros d' Hin.
    destruct (Qlt_le_dec d d') as [|Hle]; [done|]. exfalso.
    apply not_true_iff_false in Hex. apply Hex, existsb_exists.
    exists (d', u). split; [by apply list_elem_of_In|]. cbn.
    rewrite bool_decide_eq_true_2 by done. by apply Qle_bool_iff.
  - intros (d0 & [= <-] & Hall). apply not_true_iff_false.
    intros ([d' v] & Hin & Hb)%existsb_exists. cbn in Hb.
    apply andb_true_iff in Hb as [->%bool_decide_eq_true Hle%Qle_bool_iff].
    apply list_elem_of_In, Hall in Hin. lra.
Qed.

Lemma pending_edges_mono g nodes st st' :
  (∀ u, settled st u → settled st' u) →
  (pending_edges g nodes st' <= pending_edges g nodes st)%nat.
Proof.
  intros Hmono. unfold pending_edges.
  induction nodes as [|u nodes IH]; cbn; [done|].
  destruct (unsettled_b st u) eqn:Hu.
  - destruct (unsettled_b st' u); lia.
  - apply unsettled_b_false, Hmono, unsettled_b_false in Hu. rewrite Hu. lia.
Qed.

Lemma pending_edges_settle g nodes st st' u :
  (∀ v, settled st v → settled st' v) →
  u ∈ nodes → ¬ settled st u → settled st' u →
  (pending_edges g nodes st' + length (adj g u) <= pending_edges g nodes st)%nat.
Proof.
  intros Hmono Hin Hnot Hnow.
  apply list_elem_of_split in Hin as (l1 & l2 & ->).
  pose proof (pending_edges_mono g l1 st st' Hmono).
  pose proof (pending_edges_mono g l2 st st' Hmono).
  unfold pending_edges in *. rewrite !sum_list_with_app. cbn.
  apply unsettled_b_false in Hnow. rewrite Hnow.
  destruct (unsettled_b st u) eqn:Hu; [lia|].
  by apply unsettled_b_false in Hu.
Qed.

(** ** Comparisons with infinity *)

Lemma Qlt_inf_true x o : Qlt_inf x o = true ↔ ∀ y, o = Some y → x < y.
Proof.
  unfold Qlt_inf. destruct o as [y|]; [|naive_solver].
  destruct (Qlt_le_dec x y) as [Hlt|Hle].
  - split; [|done]. by intros _ ? [= <-].
  - split; [done|]. intros H. specialize (H y eq_refl). lra.
Qed.

Lemma Qlt_inf_false x o : Qlt_inf x o = false ↔ ∃ y, o = Some y ∧ y <= x.
Proof.
  unfold Qlt_inf. destruct o as [y|]; [|naive_solver].
  destruct (Qlt_le_dec x y) as [Hlt|Hle].
  - split; [done|]. intros (? & [= <-] & ?). lra.
  - split; [|done]. intros _. by exists y.
Qed.

Lemma Qgt_inf_true x o : Qgt_inf x o = true ↔ ∃ y, o = Some y ∧ y < x.
Proof.
  unfold Qgt_inf. destruct o as [y|]; [|naive_solver].
  destruct (Qlt_le_dec y x) as [Hlt|Hle].
  - split; [|done]. intros _. by exists y.
  - split; [done|]. intros (? & [= <-] & ?). lra.
Qed.

Lemma Qgt_inf_false x o : Qgt_inf x o = false ↔ ∀ y, o = Some y → x <= y.
Proof.
  unfold Qgt_inf. destruct o as [y|]; [|naive_solver].
  destruct (Qlt_le_dec y x) as [Hlt|Hle].
  - split; [done|]. intros H. specialize (H y eq_refl). lra.
  - split; [|done]. by intros _ ? [= <-].
Qed.

(** ** One edge *)

Lemma relax_state_keep cur cur_dist st v w :
  Qlt_inf (cur_dist + w) (dist st !! v) = false →
  relax_state cur cur_dist st (v, w) = st.
Proof. unfold relax_state, relax. intros ->. by destruct st. Qed.

Lemma relax_state_improve cur cur_dist st v w :
  Qlt_inf (cur_dist + w) (dist st !! v) = true →
  relax_state cur cur_dist st (v, w)
  = {| dist := <[v := cur_dist + w]> (dist st);
       prev := <[v := cur]> (prev st);
       pq := (cur_dist + w, v) :: pq st;
       best_end := best_end st; best_dist := best_dist st |}.
Proof. unfold relax_state, relax. by intros ->. Qed.

Lemma fold_relax_state cur cur_dist es st :
  fold_left (relax cur cur_dist) es (dist st, prev st, pq st)
  = (dist (fold_left (relax_state cur cur_dist) es st),
     prev (fold_left (relax_state cur cur_dist) es st),
     pq (fold_left (relax_state cur cur_dist) es st))
  ∧ best_end (fold_left (relax_state cur cur_dist) es st) = best_end st
  ∧ best_dist (fold_left (relax_state cur cur_dist) es st) = best_dist st.
Proof.
  revert st. induction es as [|e es IH]; intros st; [done|]. cbn [fold_left].
  destruct (IH (relax_state cur cur_dist st e)) as (H1 & H2 & H3).
  rewrite <- H1, H2, H3. unfold relax_state.
  by destruct (relax cur cur_dist (dist st, prev st, pq st) e) as [[? ?] ?].
Qed.

Lemma relaxed_mono g end_stop_costs rs_map st st' u d :
  (∀ y dy, dist st !! y = Some dy →
           ∃ dy', dist st' !! y = Some dy' ∧ dy' <= dy) →
  (∀ bd, best_dist st = Some bd →
         ∃ bd', best_dist st' = Some bd' ∧ bd' <= bd) →
  relaxed g end_stop_costs rs_map st u d →
  relaxed g end_stop_costs rs_map st' u d.
Proof.
  intros Hdist Hbest [Hedges Hoffer]. split.
  - intros v w Hvw. destruct (Hedges v w Hvw) as (d' & Hd' & Hle).
    destruct (Hdist v d' Hd') as (d'' & Hd'' & Hle'). exists d''. split; [done|lra].
  - intros rs c Hrs Hc. destruct (Hoffer rs c Hrs Hc) as (bd & Hbd & Hle).
    destruct (Hbest bd Hbd) as (bd' & Hbd' & Hle'). exists bd'. split; [done|lra].
Qed.

(** ** The invariant is kept *)

Section SearchInvariant.
Context (g : graph) (start_rs_costs end_stop_costs : gmap Z Q).
Context (rs_map : gmap Z RouteStop).
Hypothesis Hnonneg : nonneg_weights g.
Hypothesis Hindexed : nodes_indexed g start_rs_costs rs_map.

#[local] Abbreviation core := (core_inv g start_rs_costs end_stop_costs rs_map).
#[local] Abbreviation inv := (search_inv g start_rs_costs end_stop_costs rs_map).
#[local] Abbreviation relaxing_at :=
  (relaxing g start_rs_costs end_stop_costs rs_map).
#[local] Abbreviation measure := (potential g rs_map).

Lemma reaches_step u du d v w :
  reaches g start_rs_costs u du → du == d → (v, w) ∈ adj g u →
  reaches g start_rs_costs v (d + w).
Proof.
  intros (s & c0 & c & Hs & Hwalk & Heq) Hd Hvw.
  exists s, c0, (c + w). split; [done|]. split; [by eapply walk_more|]. lra.
Qed.

Lemma relax_step_keep u d done st v w :
  relaxing_at u d done st →
  Qlt_inf (d + w) (dist st !! v) = false →
  relaxing_at u d (done ++ [(v, w)]) (relax_state u d st (v, w)).
Proof.
  intros [Hcore Hcur Hnoent Hfloor Hsett Hprog Hdone Hbest] Hkeep.
  rewrite (relax_state_keep _ _ _ _ _ Hkeep).
  split; try done.
  intros y w' [Hin|[= -> ->]%list_elem_of_singleton]%elem_of_app; [by apply Hdone|].
  by apply Qlt_inf_false in Hkeep.
Qed.

Lemma relax_step_improve u d done st v w :
  relaxing_at u d done st →
  (v, w) ∈ adj g u →
  Qlt_inf (d + w) (dist st !! v) = true →
  relaxing_at u d (done ++ [(v, w)]) (relax_state u d st (v, w))
  ∧ (measure (relax_state u d st (v, w)) <= S (measure st))%nat.
Proof.
  intros [[HE HA HC HK HU HD] (du & Hdu & Hdueq) Hnoent Hfloor Hsett Hprog
          Hdone Hbest] Hvw Hlt.
  rewrite (relax_state_improve _ _ _ _ _ Hlt).
  pose proof (Hnonneg u v w Hvw) as Hw.
  pose proof (proj1 (Qlt_inf_true _ _) Hlt) as Hbelow.
  assert (v ≠ u) as Hvu.
  { intros ->. specialize (Hbelow du Hdu). lra. }
  assert (Hdec : ∀ y dy, dist st !! y = Some dy →
            ∃ dy', <[v := d + w]> (dist st) !! y = Some dy' ∧ dy' <= dy).
  { intros y dy Hy. destruct (decide (y = v)) as [->|Hne].
    - rewrite lookup_insert_eq. eexists. split; [done|].
      specialize (Hbelow dy Hy). lra.
    - rewrite lookup_insert_ne by done. exists dy. split; [done|lra]. }
  split; [split; [split|..]|]; cbn [dist prev pq best_end best_dist].
  - (* entries *)
    intros d' x [[= -> ->]|Hin]%elem_of_cons.
    + rewrite lookup_insert_eq. eexists. split; [done|lra].
    + destruct (HE d' x Hin) as (d0 & Hd0 & Hle).
      destruct (Hdec x d0 Hd0) as (d0' & Hd0' & Hle'). exists d0'. split; [done|lra].
  - (* reached *)
    intros x dx. destruct (decide (x = v)) as [->|Hne].
    + rewrite lookup_insert_eq. intros [= <-].
      apply (reaches_step u du); [by apply HA|done|done].
    + rewrite lookup_insert_ne by done. apply HA.
  - (* starts *)
    intros s c Hs. destruct (HC s c Hs) as (ds & Hds & Hle).
    destruct (Hdec s ds Hds) as (ds' & Hds' & Hle'). exists ds'. split; [done|lra].
  - (* indexed *)
    intros x dx. destruct (decide (x = v)) as [->|Hne].
    + intros _. by apply (proj2 Hindexed u v w).
    + rewrite lookup_insert_ne by done. apply HK.
  - (* distinct *)
    constructor; [|done]. intros d' Hin Heq.
    destruct (HE d' v Hin) as (d0 & Hd0 & Hle).
    specialize (Hbelow d0 Hd0). lra.
  - done.
  - exists du. by rewrite lookup_insert_ne.
  - intros d' [[= _ ?]|Hin]%elem_of_cons; [done|by apply Hnoent].
  - intros d' x [[= -> _]|Hin]%elem_of_cons; [lra|by apply (Hfloor d' x)].
  - (* settled nodes stay behind *)
    intros x dx. destruct (decide (x = v)) as [->|Hne].
    + rewrite lookup_insert_eq. intros [= <-] Hall.
      specialize (Hall (d + w)). rewrite elem_of_cons in Hall.
      assert (d + w < d + w) by (apply Hall; by left). lra.
    + rewrite lookup_insert_ne by done. intros Hx Hall.
      apply (Hsett x dx Hx). intros d' Hin. apply Hall. by right.
  - (* progress *)
    intros x dx. destruct (decide (x = v)) as [->|Hne].
    + rewrite lookup_insert_eq. intros [= <-] _. left.
      exists (d + w). split; [by left|lra].
    + rewrite lookup_insert_ne by done. intros Hx Hxu.
      destruct (Hprog x dx Hx Hxu) as [(d' & Hin & Hle)|Hrel].
      * left. exists d'. split; [by right|done].
      * right. revert Hrel. apply relaxed_mono; [done|].
        intros bd Hbd. exists bd. split; [done|lra].
  - (* edges done *)
    intros y w' [Hin|[= -> ->]%list_elem_of_singleton]%elem_of_app.
    + destruct (Hdone y w' Hin) as (d' & Hd' & Hle).
      destruct (Hdec y d' Hd') as (d'' & Hd'' & Hle').
      exists d''. split; [done|lra].
    + rewrite lookup_insert_eq. eexists. split; [done|lra].
  - done.
  - (* measure *)
    match goal with |- (potential _ _ ?s <= _)%nat => set (st' := s) end.
    assert (pending_edges g (map_to_list rs_map).*1 st'
            <= pending_edges g (map_to_list rs_map).*1 st)%nat;
      [|unfold potential; cbn [st' pq length]; lia].
    apply pending_edges_mono. intros x (dx & Hx & Hall).
    unfold settled. cbn [st' dist pq].
    destruct (decide (x = v)) as [->|Hne].
    + specialize (Hbelow dx Hx). specialize (Hsett v dx Hx Hall). lra.
    + exists dx. rewrite lookup_insert_ne by done. split; [done|].
      intros d' [[= _ ?]|Hin]%elem_of_cons; [done|by apply Hall].
Qed.

Lemma relax_step u d done st v w :
  relaxing_at u d done st →
  (v, w) ∈ adj g u →
  relaxing_at u d (done ++ [(v, w)]) (relax_state u d st (v, w))
  ∧ (measure (relax_state u d st (v, w)) <= S (measure st))%nat.
Proof.
  intros Hrx Hvw. destruct (Qlt_inf (d + w) (dist st !! v)) eqn:Hcmp.
  - by apply relax_step_improve.
  - split; [by apply relax_step_keep|].
    rewrite (relax_state_keep _ _ _ _ _ Hcmp). lia.
Qed.

Lemma relax_fold u d es done st :
  relaxing_at u d done st →
  (∀ e, e ∈ es → e ∈ adj g u) →
  relaxing_at u d (done ++ es) (fold_left (relax_state u d) es st)
  ∧ (measure (fold_left (relax_state u d) es st) <= measure st + length es)%nat.
Proof.
  revert done st. induction es as [|[v w] es IH]; intros done st Hrx Hsub.
  - rewrite app_nil_r. cbn. split; [done|lia].
  - cbn [fold_left length].
    destruct (relax_step u d done st v w Hrx) as [Hrx' Hm].
    { apply Hsub. by left. }
    destruct (IH (done ++ [(v, w)]) _ Hrx') as [Hrx'' Hm'].
    { intros e He. apply Hsub. by right. }
    rewrite <- app_assoc in Hrx''. split; [done|lia].
Qed.

(** ** Popping an entry *)

Lemma update_best_spec rs u d be bd :
  let best := update_best end_stop_costs rs u d (be, bd) in
  (∀ b, bd = Some b → ∃ b', best.2 = Some b' ∧ b' <= b)
  ∧ (∀ c, end_stop_costs !! rs_stop_id rs = Some c →
          ∃ b', best.2 = Some b' ∧ b' <= d + c)
  ∧ (best = (be, bd)
     ∨ ∃ c, end_stop_costs !! rs_stop_id rs = Some c
            ∧ best = (Some u, Some (d + c))).
Proof.
  unfold update_best. cbn [snd].
  destruct (end_stop_costs !! rs_stop_id rs) as [c|] eqn:Hc.
  - destruct (Qlt_inf (d + c) bd) eqn:Hcmp; cbn [snd].
    + pose proof (proj1 (Qlt_inf_true _ _) Hcmp) as Hlt.
      split; [|split].
      * intros b Hb. exists (d + c). split; [done|]. specialize (Hlt b Hb). lra.
      * intros ? [= <-]. exists (d + c). split; [done|lra].
      * right. by exists c.
    + apply Qlt_inf_false in Hcmp as (b & -> & Hle).
      split; [|split].
      * intros ? [= <-]. exists b. split; [done|lra].
      * intros ? [= <-]. by exists b.
      * by left.
  - split; [|split].
    + intros b ->. exists b. split; [done|lra].
    + done.
    + by left.
Qed.

Lemma pop_stale st d u pq' :
  inv st →
  heappop (pq st) = Some ((d, u), pq') →
  Qgt_inf d (dist st !! u) = true →
  inv {| dist := dist st; prev := prev st; pq := pq';
         best_end := best_end st; best_dist := best_dist st |}
  ∧ (measure {| dist := dist st; prev := prev st; pq := pq';
                best_end := best_end st; best_dist := best_dist st |}
     < measure st)%nat.
Proof.
  intros [[HE HA HC HK HU HD] Hprog Hmono] Hpop Hstale.
  pose proof (heappop_perm _ _ _ Hpop) as Hperm.
  apply Qgt_inf_true in Hstale as (d0 & Hd0 & Hlt).
  assert (Hsub : ∀ x, x ∈ pq' → x ∈ pq st).
  { intros x Hx. rewrite Hperm. by right. }
  split; [split; [split|..]|]; cbn [dist prev pq best_end best_dist]; try done.
  - intros d' x Hin. apply HE. by apply Hsub.
  - by apply (heappop_distinct _ _ _ _ Hpop HU).
  - intros x dx Hx. destruct (Hprog x dx Hx) as [(d' & Hin & Hle)|Hrel].
    + left. exists d'. split; [|done].
      rewrite Hperm in Hin. apply elem_of_cons in Hin as [[= -> ->]|Hin]; [|done].
      rewrite Hd0 in Hx. injection Hx as <-. lra.
    + right. revert Hrel. apply relaxed_mono; cbn [dist best_dist].
      * intros y dy Hy. exists dy. split; [done|lra].
      * intros bd Hbd. exists bd. split; [done|lra].
  - intros x dx Hx Hall d'' y Hin.
    apply (fun H => Hmono x dx Hx H d'' y); [|by apply Hsub].
    intros d' Hin'. rewrite Hperm in Hin'.
    apply elem_of_cons in Hin' as [[= -> ->]|Hin']; [|by apply Hall].
    rewrite Hd0 in Hx. injection Hx as <-. done.
  - unfold potential. cbn [pq]. rewrite (Permutation_length Hperm). cbn [length].
    assert (pending_edges g (map_to_list rs_map).*1
              {| dist := dist st; prev := prev st; pq := pq';
                 best_end := best_end st; best_dist := best_dist st |}
            <= pending_edges g (map_to_list rs_map).*1 st)%nat; [|lia].
    apply pending_edges_mono. intros x (dx & Hx & Hall). exists dx.
    split; [done|]. cbn [pq]. intros d' Hin. by apply Hall, Hsub.
Qed.

Lemma pop_fresh st d u pq' rs :
  inv st →
  heappop (pq st) = Some ((d, u), pq') →
  Qgt_inf d (dist st !! u) = false →
  rs_map !! u = Some rs →
  let best := update_best end_stop_costs rs u d (best_end st, best_dist st) in
  let st1 := {| dist := dist st; prev := prev st; pq := pq';
                best_end := best.1; best_dist := best.2 |} in
  relaxing_at u d [] st1 ∧ (measure st1 + length (adj g u) < measure st)%nat.
Proof.
  intros [[HE HA HC HK HU HD] Hprog Hmono] Hpop Hfresh Hrs best st1.
  pose proof (heappop_perm _ _ _ Hpop) as Hperm.
  assert (Hsub : ∀ x, x ∈ pq' → x ∈ pq st).
  { intros x Hx. rewrite Hperm. by right. }
  assert (Hpopped : (d, u) ∈ pq st) by (rewrite Hperm; by left).
  destruct (HE d u Hpopped) as (du & Hdu & Hle).
  pose proof (proj1 (Qgt_inf_false _ _) Hfresh du Hdu) as Hge.
  assert (du == d) as Hdueq by lra.
  destruct (heappop_distinct _ _ _ _ Hpop HU) as [HU' Hfresh_u].
  assert (Hnoent : ∀ d', (d', u) ∈ pq' → d < d').
  { intros d' Hin. destruct (HE d' u (Hsub _ Hin)) as (d0 & Hd0 & Hle').
    rewrite Hdu in Hd0. injection Hd0 as <-.
    specialize (Hfresh_u d' Hin).
    destruct (Qlt_le_dec d d') as [|Hle'']; [done|]. exfalso. apply Hfresh_u. lra. }
  destruct (update_best_spec rs u d (best_end st) (best_dist st))
    as (Hbest_mono & Hbest_u & Hbest_cases).
  fold best in Hbest_mono, Hbest_u, Hbest_cases.
  split; [split; [split|..]|]; cbn [st1 dist prev pq best_end best_dist]; try done.
  - intros d' x Hin. apply HE. by apply Hsub.
  - (* the best total is a trip total *)
    destruct Hbest_cases as [->|(c & Hc & ->)]; [done|]. cbn [fst snd].
    exists (d + c). split; [done|]. exists d, rs, c. repeat split; try done.
    destruct (HA u du Hdu) as (s & c0 & cw & Hs & Hwalk & Heq).
    exists s, c0, cw. repeat split; try done. lra.
  - by exists du.
  - intros d' x Hin. by apply (heappop_min _ _ _ (d', x) Hpop).
  - (* settled nodes are behind the popped entry *)
    intros x dx Hx Hall. destruct (decide (x = u)) as [->|Hne].
    + rewrite Hdu in Hx. injection Hx as <-. lra.
    + apply (fun H => Hmono x dx Hx H d u); [|exact Hpopped].
      intros d' Hin. rewrite Hperm in Hin.
      apply elem_of_cons in Hin as [[= _ ?]|Hin]; [done|by apply Hall].
  - intros x dx Hx Hxu. destruct (Hprog x dx Hx) as [(d' & Hin & Hle')|Hrel].
    + left. exists d'. split; [|done]. rewrite Hperm in Hin.
      apply elem_of_cons in Hin as [[= _ ?]|Hin]; done.
    + right. revert Hrel. apply relaxed_mono; cbn [dist best_dist].
      * intros y dy Hy. exists dy. split; [done|lra].
      * exact Hbest_mono.
  - by intros ? ? ?%elem_of_nil.
  - intros rs' c Hrs'. rewrite Hrs in Hrs'. injection Hrs' as <-. apply Hbest_u.
  - (* measure *)
    unfold potential. cbn [st1 pq]. rewrite (Permutation_length Hperm). cbn [length].
    assert (pending_edges g (map_to_list rs_map).*1 st1 + length (adj g u)
            <= pending_edges g (map_to_list rs_map).*1 st)%nat; [|fold st1; lia].
    apply pending_edges_settle.
    + intros x (dx & Hx & Hall). exists dx. split; [done|].
      cbn [st1 pq]. intros d' Hin. by apply Hall, Hsub.
    + apply list_elem_of_fmap. exists (u, rs). split; [done|].
      by apply elem_of_map_to_list.
    + intros (d0 & Hd0 & Hall). specialize (Hall d Hpopped).
      rewrite Hdu in Hd0. injection Hd0 as <-. lra.
    + exists du. split; [done|]. cbn [st1 pq]. intros d' Hin.
      specialize (Hnoent d' Hin). lra.
Qed.

Lemma relaxing_finish u d st :
  relaxing_at u d (adj g u) st → inv st.
Proof.
  intros [Hcore (du & Hdu & Hdueq) Hnoent Hfloor Hsett Hprog Hdone Hbest].
  split; [done|..].
  - intros x dx Hx. destruct (decide (x = u)) as [->|Hne]; [|by apply Hprog].
    right. rewrite Hdu in Hx. injection Hx as <-. split.
    + intros v w Hvw. destruct (Hdone v w Hvw) as (d' & Hd' & Hle).
      exists d'. split; [done|lra].
    + intros rs c Hrs Hc. destruct (Hbest rs c Hrs Hc) as (bd & Hbd & Hle).
      exists bd. split; [done|lra].
  - intros x dx Hx Hall d'' y Hin.
    pose proof (Hsett x dx Hx Hall). pose proof (Hfloor d'' y Hin). lra.
Qed.

(** ** The first frontier *)

Lemma search_init_fold (l : list (Z * Q)) (dist0 : gmap Z Q) (pq0 : list (Q * Z)) :
  NoDup l.*1 →
  ∃ dist1 pq1,
    fold_left (fun '(dist, pq) '(rs_id, cost) =>
                 (<[rs_id := cost]> dist, heappush pq (cost, rs_id)))
              l (dist0, pq0) = (dist1, pq1)
    ∧ (∀ k c, dist1 !! k = Some c ↔
              (k, c) ∈ l ∨ ((k ∉ l.*1) ∧ dist0 !! k = Some c))
    ∧ pq1 ≡ₚ ((fun kc : Z * Q => (kc.2, kc.1)) <$> l) ++ pq0.
Proof.
  revert dist0 pq0. induction l as [|[k0 c0] l IH]; intros dist0 pq0 Hnd.
  - exists dist0, pq0. split; [done|]. split; [|done].
    intros k c. rewrite elem_of_nil. cbn. rewrite elem_of_nil. tauto.
  - apply NoDup_cons in Hnd as [Hk0 Hnd]. cbn [fold_left].
    destruct (IH (<[k0 := c0]> dist0) (heappush pq0 (c0, k0)) Hnd)
      as (dist1 & pq1 & Hfold & Hdist & Hpq).
    exists dist1, pq1. split; [done|]. split.
    + intros k c. rewrite Hdist, fmap_cons, !elem_of_cons. cbn [fst].
      destruct (decide (k = k0)) as [->|Hne].
      * rewrite lookup_insert_eq. split.
        -- intros [Hin|[_ [= ->]]]; [|left; by left].
           exfalso. apply Hk0, list_elem_of_fmap. by exists (k0, c).
        -- intros [[[= ->]|Hin]|[Hnot _]]; [by right|..].
           ++ exfalso. apply Hk0, list_elem_of_fmap. by exists (k0, c).
           ++ exfalso. apply Hnot. by left.
      * rewrite lookup_insert_ne by done. naive_solver.
    + rewrite Hpq. unfold heappush. cbn [fmap list_fmap snd fst app].
      by rewrite Permutation_middle.
Qed.

Lemma distinct_entries_starts (l : list (Z * Q)) :
  NoDup l.*1 → distinct_entries ((fun kc : Z * Q => (kc.2, kc.1)) <$> l).
Proof.
  induction l as [|[k c] l IH]; [constructor|].
  intros [Hk Hnd]%NoDup_cons. cbn. constructor; [|by apply IH].
  intros d' ([k' c'] & [= <- <-] & Hin)%list_elem_of_fmap.
  exfalso. apply Hk, list_elem_of_fmap. by exists (k, d').
Qed.

Lemma search_init_inv : inv (search_init start_rs_costs).
Proof.
  unfold search_init.
  destruct (search_init_fold (map_to_list start_rs_costs) ∅ [])
    as (dist1 & pq1 & -> & Hdist & Hpq); [apply NoDup_fst_map_to_list|].
  rewrite app_nil_r in Hpq.
  assert (Hd : ∀ k c, dist1 !! k = Some c ↔ start_rs_costs !! k = Some c).
  { intros k c. rewrite Hdist, elem_of_map_to_list, lookup_empty. naive_solver. }
  assert (Hq : ∀ c k, (c, k) ∈ pq1 ↔ start_rs_costs !! k = Some c).
  { intros c k. rewrite Hpq, list_elem_of_fmap. split.
    - intros ([k' c'] & [= -> ->] & Hin). by apply elem_of_map_to_list.
    - intros Hk. exists (k, c). split; [done|]. by apply elem_of_map_to_list. }
  split; [split|..]; cbn [dist prev pq best_end best_dist].
  - intros d u Hin%Hq. exists d. split; [by apply Hd|lra].
  - intros u d Hu%Hd. exists u, d, 0. split; [done|]. split; [constructor|lra].
  - intros s c Hs. exists c. split; [by apply Hd|lra].
  - intros u d Hu%Hd. by apply (proj1 Hindexed).
  - apply (distinct_entries_perm _ _ (symmetry Hpq)).
    apply distinct_entries_starts, NoDup_fst_map_to_list.
  - done.
  - intros u d Hu. left. exists d. split; [by apply Hq, Hd|lra].
  - intros u d Hu Hall. apply Hd, Hq, Hall in Hu. lra.
Qed.

(** ** When the frontier is empty *)

Lemma reaches_lower_bound st v d :
  inv st → pq st = [] → reaches g start_rs_costs v d →
  ∃ d0, dist st !! v = Some d0 ∧ d0 <= d.
Proof.
  intros [[HE HA HC HK HU HD] Hprog Hmono] Hempty (s & c0 & c & Hs & Hwalk & Heq).
  assert (∃ d0, dist st !! v = Some d0 ∧ d0 <= c0 + c) as (d0 & Hd0 & Hle);
    [|exists d0; split; [done|lra]].
  clear Heq. induction Hwalk as [s|s v x w c Hwalk IH Hxw].
  - destruct (HC s c0 Hs) as (d0 & Hd0 & Hle). exists d0. split; [done|lra].
  - destruct (IH Hs) as (dv & Hdv & Hle).
    destruct (Hprog v dv Hdv) as [(d' & Hin & _)|[Hedges _]].
    + rewrite Hempty in Hin. by apply elem_of_nil in Hin.
    + destruct (Hedges x w Hxw) as (dx & Hdx & Hle'). exists dx. split; [done|lra].
Qed.

Lemma search_inv_final st :
  inv st → pq st = [] →
  match best_end st with
  | Some e =>
      ∃ t, trip_total g start_rs_costs end_stop_costs rs_map e t
           ∧ ∀ v t', trip_total g start_rs_costs end_stop_costs rs_map v t' →
                     t <= t'
  | None => ∀ v t', ¬ trip_total g start_rs_costs end_stop_costs rs_map v t'
  end.
Proof.
  intros Hinv Hempty.
  assert (Hbound : ∀ v t',
            trip_total g start_rs_costs end_stop_costs rs_map v t' →
            ∃ bd, best_dist st = Some bd ∧ bd <= t').
  { intros v t' (d & rs & c & Hreach & Hrs & Hc & Heq).
    destruct (reaches_lower_bound st v d Hinv Hempty Hreach) as (d0 & Hd0 & Hle).
    destruct (si_progress _ _ _ _ _ Hinv v d0 Hd0) as [(d' & Hin & _)|[_ Hoffer]].
    - rewrite Hempty in Hin. by apply elem_of_nil in Hin.
    - destruct (Hoffer rs c Hrs Hc) as (bd & Hbd & Hle'). exists bd. split; [done|lra]. }
  pose proof (ci_best _ _ _ _ _ (si_core _ _ _ _ _ Hinv)) as Hbest.
  destruct (best_end st) as [e|].
  - destruct Hbest as (bd & Hbd & Htrip). exists bd. split; [done|].
    intros v t' Hv. destruct (Hbound v t' Hv) as (bd' & Hbd' & Hle).
    rewrite Hbd in Hbd'. by injection Hbd' as <-.
  - intros v t' Hv. destruct (Hbound v t' Hv) as (bd & Hbd & _). congruence.
Qed.

(** ** The loop ends, with the minimum *)

Lemma dijkstra_loop_unfold fuel st :
  dijkstra_loop fuel g end_stop_costs rs_map st
  = match heappop (pq st) with
    | None => Ok (best_end st, prev st)
    | Some ((cur_dist, cur), pq') =>
        match fuel with
        | O => OutOfFuel
        | S fuel' =>
            if Qgt_inf cur_dist (dist st !! cur)
            then dijkstra_loop fuel' g end_stop_costs rs_map
                   {| dist := dist st; prev := prev st; pq := pq';
                      best_end := best_end st; best_dist := best_dist st |}
            else
              rs ← py_getitem rs_map cur;
              let '(best_end', best_dist') :=
                update_best end_stop_costs rs cur cur_dist
                            (best_end st, best_dist st) in
              let '(dist', prev', pq'') :=
                fold_left (relax cur cur_dist) (adj g cur)
                          (dist st, prev st, pq') in
              dijkstra_loop fuel' g end_stop_costs rs_map
                {| dist := dist'; prev := prev'; pq := pq'';
                   best_end := best_end'; best_dist := best_dist' |}
        end
    end.
Proof. by destruct fuel. Qed.

Lemma dijkstra_loop_terminates n st :
  inv st → (measure st <= n)%nat →
  ∃ best prev,
    (∀ fuel, (n <= fuel)%nat →
       dijkstra_loop fuel g end_stop_costs rs_map st = Ok (best, prev))
    ∧ match best with
      | Some e =>
          ∃ t, trip_total g start_rs_costs end_stop_costs rs_map e t
               ∧ ∀ v t', trip_total g start_rs_costs end_stop_costs rs_map v t' →
                         t <= t'
      | None => ∀ v t', ¬ trip_total g start_rs_costs end_stop_costs rs_map v t'
      end.
Proof.
  revert st. induction n as [|n IH]; intros st Hinv Hn.
  all: destruct (heappop (pq st)) as [[[d u] pq']|] eqn:Hpop.
  all: try (apply heappop_None in Hpop;
            exists (best_end st), (prev st);
            split; [|by apply search_inv_final];
            intros fuel _; rewrite dijkstra_loop_unfold;
            by rewrite (proj2 (heappop_None _) Hpop)).
  - exfalso. pose proof (Permutation_length (heappop_perm _ _ _ Hpop)) as Hlen.
    unfold potential in Hn. rewrite Hlen in Hn. cbn in Hn. lia.
  - destruct (Qgt_inf d (dist st !! u)) eqn:Hcmp.
    + destruct (pop_stale st d u pq' Hinv Hpop Hcmp) as [Hinv' Hm].
      destruct (IH _ Hinv') as (best & pv & Hrun & Hok); [lia|].
      exists best, pv. split; [|done]. intros [|fuel] Hfuel; [lia|].
      rewrite dijkstra_loop_unfold, Hpop, Hcmp. apply Hrun. lia.
    + assert ((d, u) ∈ pq st) as Hpopped.
      { rewrite (heappop_perm _ _ _ Hpop). by left. }
      destruct (ci_entries _ _ _ _ _ (si_core _ _ _ _ _ Hinv) d u Hpopped)
        as (du & Hdu & _).
      destruct (ci_indexed _ _ _ _ _ (si_core _ _ _ _ _ Hinv) u du Hdu)
        as [rs Hrs].
      destruct (pop_fresh st d u pq' rs Hinv Hpop Hcmp Hrs) as [Hrx Hm].
      set (best1 := update_best end_stop_costs rs u d (best_end st, best_dist st))
        in *.
      set (st1 := {| dist := dist st; prev := prev st; pq := pq';
                     best_end := best1.1; best_dist := best1.2 |}) in *.
      destruct (relax_fold u d (adj g u) [] st1 Hrx) as [Hrx' Hm']; [done|].
      cbn [app] in Hrx'. apply relaxing_finish in Hrx'.
      destruct (fold_relax_state u d (adj g u) st1) as (Hfold & Hbe & Hbd).
      set (st2 := fold_left (relax_state u d) (adj g u) st1) in *.
      destruct (IH st2 Hrx') as (best & pv & Hrun & Hok); [lia|].
      exists best, pv. split; [|done]. intros [|fuel] Hfuel; [lia|].
      rewrite dijkstra_loop_unfold, Hpop, Hcmp, (py_getitem_Some _ _ _ Hrs).
      cbn [mbind result_bind]. fold best1.
      destruct best1 as [be1 bd1] eqn:Hbest1.
      change (dist st, prev st, pq') with (dist st1, prev st1, pq st1).
      rewrite Hfold.
      replace {| dist := dist st2; prev := prev st2; pq := pq st2;
                 best_end := be1; best_dist := bd1 |} with st2.
      * apply Hrun. lia.
      * cbn [st1 best_end best_dist fst snd] in Hbe, Hbd.
        destruct st2. cbn in *. by subst.
Qed.

End SearchInvariant.

Lemma best_total_trip_total g start_rs_costs end_stop_costs rs_map v t :
  best_total g start_rs_costs end_stop_costs rs_map v t →
  trip_total g start_rs_costs end_stop_costs rs_map v t.
Proof.
  intros (s & c0 & w & rs & c & Hs & [Hwalk _] & Hrs & Hc & Heq).
  exists (c0 + w), rs, c. repeat split; try done.
  exists s, c0, w. repeat split; try done.
Qed.

Lemma least_trip_total_best g start_rs_costs end_stop_costs rs_map e t :
  trip_total g start_rs_costs end_stop_costs rs_map e t →
  (∀ v t', trip_total g start_rs_costs end_stop_costs rs_map v t' → t <= t') →
  best_total g start_rs_costs end_stop_costs rs_map e t.
Proof.
  intros (d & rs & c & (s & c0 & w & Hs & Hwalk & Hd) & Hrs & Hc & Heq) Hleast.
  exists s, c0, w, rs, c. repeat split; try done; [|lra].
  intros w' Hwalk'.
  assert (t <= c0 + w' + c); [|lra].
  apply (Hleast e). exists (c0 + w'), rs, c. repeat split; try done.
  exists s, c0, w'. repeat split; try done.
Qed.

(** C1.  On a graph with non-negative weights whose nodes are all in the
    node index, the search ends (any fuel from some bound on gives the same
    answer).  The node it returns is at a destination stop and its total,
    initial cost plus shortest-path weight plus remaining cost, is the least
    total over all start nodes and all reachable nodes at destination stops,
    whichever destination-stop node the search met first; it returns no node
    exactly when there is no such combination. *)
Theorem dijkstra_minimum g start_rs_costs end_stop_costs rs_map :
  nonneg_weights g →
  nodes_indexed g start_rs_costs rs_map →
  ∃ n best prev,
    (∀ fuel, (n <= fuel)%nat →
       dijkstra fuel g start_rs_costs end_stop_costs rs_map = Ok (best, prev))
    ∧ (∀ e, best = Some e →
         ∃ t, best_total g start_rs_costs end_stop_costs rs_map e t
              ∧ ∀ v t', best_total g start_rs_costs end_stop_costs rs_map v t' →
                        t <= t')
    ∧ (best = None ↔
       ∀ v t, ¬ best_total g start_rs_costs end_stop_costs rs_map v t).
Proof.
  intros Hnonneg Hindexed.
  pose proof (search_init_inv g start_rs_costs end_stop_costs rs_map Hindexed)
    as Hinit.
  destruct (dijkstra_loop_terminates g start_rs_costs end_stop_costs rs_map
              Hnonneg Hindexed _ _ Hinit (le_n _))
    as (best & pv & Hrun & Hok).
  eexists _, best, pv. split; [exact Hrun|].
  destruct best as [e|].
  - destruct Hok as (t & Htrip & Hleast).
    pose proof (least_trip_total_best _ _ _ _ _ _ Htrip Hleast) as Hbest.
    split.
    + intros ? [= <-]. exists t. split; [done|].
      intros v t' Hv. by apply (Hleast v), best_total_trip_total.
    + split; [done|]. intros Hnone. by destruct (Hnone e t).
  - split; [done|]. split; [|done].
    intros _ v t Hv%best_total_trip_total. by apply (Hok v t).
Qed.

Lemma diamond_nonneg : nonneg_weights diamond_graph.
Proof.
  intros u v w Hin. unfold diamond_graph in Hin.
  apply in_adj_add_edges in Hin as [Hin|Hin].
  - rewrite adj_empty in Hin. by apply elem_of_nil in Hin.
  - repeat (apply elem_of_cons in Hin as [[= -> -> ->]|Hin]; [lra|]).
    by apply elem_of_nil in Hin.
Qed.

Lemma diamond_indexed : nodes_indexed diamond_graph diamond_starts diamond_rs_map.
Proof.
  split.
  - intros s [c Hs]. unfold diamond_starts in Hs.
    apply lookup_singleton_Some in Hs as [<- _]. by eexists.
  - intros u v w Hin. unfold diamond_graph in Hin.
    apply in_adj_add_edges in Hin as [Hin|Hin].
    + rewrite adj_empty in Hin. by apply elem_of_nil in Hin.
    + repeat (apply elem_of_cons in Hin as [[= -> -> ->]|Hin]; [by eexists|]).
      by apply elem_of_nil in Hin.
Qed.

Lemma dijkstra_minimum_witness :
  ∃ n best prev,
    (∀ fuel, (n <= fuel)%nat →
       dijkstra fuel diamond_graph diamond_starts diamond_ends diamond_rs_map
       = Ok (best, prev))
    ∧ (∀ e, best = Some e →
         ∃ t, best_total diamond_graph diamond_starts diamond_ends
                         diamond_rs_map e t
              ∧ ∀ v t', best_total diamond_graph diamond_starts diamond_ends
                                   diamond_rs_map v t' →
                        t <= t')
    ∧ (best = None ↔
       ∀ v t, ¬ best_total diamond_graph diamond_starts diamond_ends
                           diamond_rs_map v t).
Proof.
  apply dijkstra_minimum; [apply diamond_nonneg|apply diamond_indexed].
Defined.

(** The search on the four-node graph: node 2, at a destination stop, is
    popped first (cost 1, total 11), and the search goes on to node 4
    (cost 6, total 6) and returns it; the path is rebuilt through node 2. *)
Example dijkstra_goes_past_first_destination :
  ∃ prev,
    dijkstra 4 diamond_graph diamond_starts diamond_ends diamond_rs_map
    = Ok (Some 4%Z, prev)
    ∧ rebuild_path 4 4 prev = Ok [1; 2; 4]%Z
    ∧ dijkstra 4 diamond_graph diamond_starts {[ 2%Z := 10 ]} diamond_rs_map
      = Ok (Some 2%Z, prev).
Proof. eexists. split; [vm_compute; reflexivity|]. split; vm_compute; reflexivity. Qed.

(** The graph [build_graph] returns has all its edge targets in the node
    index it returns with it. *)
Lemma make_rs_map_indexed rss rs :
  rs ∈ rss → is_Some (make_rs_map rss !! rs_id rs).
Proof.
  unfold make_rs_map. generalize (∅ : gmap Z RouteStop).
  induction rss as [|x rss IH] using rev_ind; intros m; [by intros ?%elem_of_nil|].
  rewrite fold_left_app. cbn [fold_left].
  intros [Hin|Hin%list_elem_of_singleton]%elem_of_app; [|subst x].
  - destruct (decide (rs_id x = rs_id rs)) as [->|Hne].
    + rewrite lookup_insert_eq. by eexists.
    + rewrite lookup_insert_ne by done. by apply IH.
  - rewrite lookup_insert_eq. by eexists.
Qed.

Lemma build_graph_targets_indexed gis db u v w :
  (v, w) ∈ adj (add_edges (all_edges gis db) ∅) u →
  is_Some (make_rs_map (tbl_route_stops db) !! v).
Proof.
  intros Hin%in_adj_build. unfold all_edges in Hin.
  apply elem_of_app in Hin as [Hin|Hin]; [|apply elem_of_app in Hin as [Hin|Hin]].
  - apply elem_of_ride_edges_db in Hin as [dir Hin].
    apply elem_of_ride_edges_of in Hin
      as (l1 & a & b & l2 & da & db' & Hsplit & _ & -> & _).
    apply make_rs_map_indexed.
    apply (elem_of_direction_stops db dir b).
    rewrite Hsplit, !elem_of_app, !elem_of_cons. tauto.
  - apply elem_of_walking_edges_of in Hin
      as (sa & sb & rs_a & rs_b & _ & _ & _ & _ & _ & _ & Hb & _ & _ & [= _ -> _]).
    by apply make_rs_map_indexed.
  - apply elem_of_same_stop_edges_of in Hin
      as (a & b & _ & Hb & _ & _ & [= _ -> _]).
    by apply make_rs_map_indexed.
Qed.

(** * Rebuilding the path *)

Lemma rebuild_loop_chain prev k : ∀ v s acc fuel,
  ancestor prev k v = Some s → prev !! s = None → (k <= fuel)%nat →
  rebuild_loop fuel prev v acc = Ok (acc ++ chain_list prev k v).
Proof.
  induction k as [|k IH]; intros v s acc fuel Hanc Hroot Hfuel.
  - cbn in Hanc. injection Hanc as ->. cbn. rewrite app_nil_r.
    destruct fuel; cbn; by rewrite Hroot.
  - cbn in Hanc |- *. destruct (prev !! v) as [p|] eqn:Hp; [|done].
    destruct fuel as [|fuel]; [lia|]. cbn. rewrite Hp.
    rewrite (IH p s) by (done || lia). by rewrite <- app_assoc.
Qed.

Lemma rebuild_loop_endless prev fuel : ∀ v acc,
  (∀ k, is_Some (ancestor prev k v)) →
  rebuild_loop fuel prev v acc = OutOfFuel.
Proof.
  induction fuel as [|fuel IH]; intros v acc Hchain.
  - cbn. destruct (prev !! v) eqn:Hp; [done|].
    destruct (Hchain 1%nat) as [x Hx]. cbn in Hx. by rewrite Hp in Hx.
  - cbn. destruct (prev !! v) as [p|] eqn:Hp.
    + apply IH. intros k. specialize (Hchain (S k)). cbn in Hchain.
      by rewrite Hp in Hchain.
    + destruct (Hchain 1%nat) as [x Hx]. cbn in Hx. by rewrite Hp in Hx.
Qed.

Lemma chain_list_length prev k v s :
  ancestor prev k v = Some s → length (chain_list prev k v) = k.
Proof.
  revert v. induction k as [|k IH]; intros v Hanc; [done|].
  cbn in *. destruct (prev !! v) as [p|]; [|done]. cbn. by rewrite (IH p).
Qed.

Lemma chain_list_lookup prev k v s i :
  ancestor prev k v = Some s → (i < k)%nat →
  chain_list prev k v !! i = ancestor prev (S i) v.
Proof.
  revert v i. induction k as [|k IH]; intros v i Hanc Hi; [lia|].
  cbn in *. destruct (prev !! v) as [p|]; [|done].
  destruct i as [|i]; [done|]. cbn. rewrite (IH p) by (done || lia). done.
Qed.

Lemma ancestor_step prev k v a :
  ancestor prev k v = Some a → ancestor prev (S k) v = prev !! a.
Proof.
  revert v. induction k as [|k IH]; intros v Hanc.
  - cbn in Hanc. injection Hanc as ->. cbn. by destruct (prev !! a).
  - cbn in Hanc. change (ancestor prev (S (S k)) v)
      with (match prev !! v with
            | Some p => ancestor prev (S k) p | None => None end).
    destruct (prev !! v) as [p|]; [|done]. by apply IH.
Qed.

Lemma reverse_chain_lookup prev k end_id s i :
  ancestor prev k end_id = Some s → (i <= k)%nat →
  reverse ([end_id] ++ chain_list prev k end_id) !! i
  = ancestor prev (k - i) end_id.
Proof.
  intros Hanc Hi.
  pose proof (chain_list_length prev k end_id s Hanc) as Hlen.
  rewrite reverse_lookup by (cbn; lia). cbn [app length].
  rewrite Hlen. replace (S k - S i)%nat with (k - i)%nat by lia.
  destruct (k - i)%nat as [|j] eqn:Hj; [done|]. cbn [lookup list_lookup].
  apply (chain_list_lookup prev k end_id s); [done|lia].
Qed.

(** X1.  When the predecessor chain of [end_id] ends after [k] steps at a
    node [s] without predecessor, [rebuild_path] returns, for any fuel from
    [k] on, the [k + 1] nodes of the chain from [s] to [end_id]: each node is
    the predecessor of the next. *)
Theorem rebuild_path_chain prev end_id k s :
  ancestor prev k end_id = Some s → prev !! s = None →
  ∀ fuel, (k <= fuel)%nat →
    ∃ path,
      rebuild_path fuel end_id prev = Ok path
      ∧ length path = S k
      ∧ head path = Some s ∧ last path = Some end_id
      ∧ (∀ i, (i <= k)%nat → path !! i = ancestor prev (k - i) end_id)
      ∧ (∀ i a b, path !! i = Some a → path !! S i = Some b →
                  prev !! b = Some a).
Proof.
  intros Hanc Hroot fuel Hfuel. unfold rebuild_path.
  rewrite (rebuild_loop_chain prev k end_id s) by done. cbn [mbind result_bind].
  eexists. split; [done|].
  pose proof (chain_list_length prev k end_id s Hanc) as Hlen.
  pose proof (reverse_chain_lookup prev k end_id s) as Hlook.
  split; [rewrite length_reverse; cbn; by rewrite Hlen|].
  split; [|split; [|split; [by intros i Hi; apply Hlook|]]].
  - rewrite head_lookup, Hlook by (done || lia). by rewrite Nat.sub_0_r.
  - by rewrite last_reverse.
  - intros i a b Ha Hb.
    assert (S i <= k)%nat as Hi.
    { apply lookup_lt_Some in Hb. rewrite length_reverse in Hb. cbn in Hb. lia. }
    rewrite Hlook in Ha, Hb by (done || lia).
    apply ancestor_step in Hb. replace (S (k - S i)) with (k - i)%nat in Hb by lia.
    congruence.
Qed.

(** X2.  When following predecessors from [end_id] never comes to a node
    without predecessor, that is, when the chain runs into a cycle,
    [rebuild_path] does not return, whatever the fuel. *)
Theorem rebuild_path_cycle prev end_id :
  (∀ k, is_Some (ancestor prev k end_id)) →
  ∀ fuel, rebuild_path fuel end_id prev = OutOfFuel.
Proof.
  intros Hchain fuel. unfold rebuild_path.
  by rewrite rebuild_loop_endless.
Qed.

Lemma rebuild_path_chain_witness :
  ∃ path,
    rebuild_path 5 3 chain_prev = Ok path
    ∧ length path = 3%nat
    ∧ head path = Some 1%Z ∧ last path = Some 3%Z
    ∧ (∀ i, (i <= 2)%nat → path !! i = ancestor chain_prev (2 - i) 3)
    ∧ (∀ i a b, path !! i = Some a → path !! S i = Some b →
                chain_prev !! b = Some a).
Proof. apply (rebuild_path_chain chain_prev 3 2 1); [reflexivity|reflexivity|lia]. Defined.

Lemma cycle_prev_endless k :
  is_Some (ancestor cycle_prev k 1) ∧ is_Some (ancestor cycle_prev k 2).
Proof.
  induction k as [|k [IH1 IH2]]; [split; by eexists|].
  split; cbn [ancestor].
  - change (cycle_prev !! 1%Z) with (Some 2%Z). exact IH2.
  - change (cycle_prev !! 2%Z) with (Some 1%Z). exact IH1.
Qed.

Lemma rebuild_path_cycle_witness :
  rebuild_path 100 1 cycle_prev = OutOfFuel.
Proof.
  apply (rebuild_path_cycle cycle_prev 1). intros k. apply cycle_prev_endless.
Defined.

(** * The predecessor map of the search *)

Lemma path_weight_snoc g path c u v w :
  path_weight g path c → last path = Some u → (v, w) ∈ adj g u →
  ∃ c', path_weight g (path ++ [v]) c' ∧ c' == c + w.
Proof.
  intros Hpath. revert u. induction Hpath as [x|x y rest w0 c Hxy Hrest IH];
    intros u Hlast Hvw.
  - cbn in Hlast. injection Hlast as ->. exists (w + 0). split; [|lra].
    cbn. apply path_cons; [done|constructor].
  - rewrite last_cons_cons in Hlast.
    destruct (IH u Hlast Hvw) as (c' & Hc' & Heq).
    exists (w0 + c'). split; [|lra]. cbn. by apply path_cons.
Qed.

Lemma walk_prepend g u v e w c :
  (v, w) ∈ adj g u → walk g v e c → ∃ c', walk g u e c' ∧ c' == w + c.
Proof.
  intros Huv Hwalk. induction Hwalk as [v|v y x w' c Hwalk IH Hyx].
  - exists (0 + w). split; [|lra]. eapply walk_more; [constructor|done].
  - destruct (IH Huv) as (c' & Hc' & Heq).
    exists (c' + w'). split; [|lra]. by eapply walk_more.
Qed.

Lemma path_weight_walk g path c s e :
  path_weight g path c → head path = Some s → last path = Some e →
  ∃ c', walk g s e c' ∧ c' == c.
Proof.
  intros Hpath. revert s. induction Hpath as [x|x y rest w0 c Hxy Hrest IH];
    intros s Hhead Hlast.
  - cbn in *. simplify_eq. exists 0. split; [constructor|lra].
  - cbn in Hhead. injection Hhead as ->. rewrite last_cons_cons in Hlast.
    destruct (IH y eq_refl Hlast) as (c' & Hc' & Heq).
    destruct (walk_prepend g s y e w0 c' Hxy Hc') as (c'' & Hc'' & Heq').
    exists c''. split; [done|lra].
Qed.

Section SearchPath.
Context (g : graph) (start_rs_costs end_stop_costs : gmap Z Q).
Context (rs_map : gmap Z RouteStop).
Hypothesis Hnonneg : nonneg_weights g.
Hypothesis Hindexed : nodes_indexed g start_rs_costs rs_map.

#[local] Abbreviation inv := (search_inv g start_rs_costs end_stop_costs rs_map).
#[local] Abbreviation relaxing_at :=
  (relaxing g start_rs_costs end_stop_costs rs_map).
#[local] Abbreviation pinv := (prev_inv g start_rs_costs).
#[local] Abbreviation measure := (potential g rs_map).

Lemma prev_inv_init : pinv (fun _ => 0%nat) 0 (search_init start_rs_costs).
Proof.
  unfold search_init.
  destruct (search_init_fold (map_to_list start_rs_costs) ∅ [])
    as (dist1 & pq1 & -> & Hdist & Hpq); [apply NoDup_fst_map_to_list|].
  rewrite app_nil_r in Hpq.
  assert (Hd : ∀ k c, dist1 !! k = Some c ↔ start_rs_costs !! k = Some c).
  { intros k c. rewrite Hdist, elem_of_map_to_list, lookup_empty. naive_solver. }
  assert (Hnone : ∀ x, ¬ settled {| dist := dist1; prev := ∅; pq := pq1;
                                    best_end := None; best_dist := None |} x).
  { intros x (d & Hx & Hall). cbn in Hx, Hall.
    assert ((d, x) ∈ pq1) as Hin.
    { rewrite Hpq. apply list_elem_of_fmap. exists (x, d). split; [done|].
      by apply elem_of_map_to_list, Hd. }
    specialize (Hall d Hin). lra. }
  split; cbn [dist prev pq].
  - intros x d Hx _. by apply Hd.
  - intros v u Hvu. by rewrite lookup_empty in Hvu.
  - intros x Hx. by destruct (Hnone x).
  - intros v u Hvu. by rewrite lookup_empty in Hvu.
Qed.

Lemma relaxing_settled_current u d done st :
  relaxing_at u d done st → settled st u.
Proof.
  intros [_ (du & Hdu & Hdueq) Hnoent _ _ _ _ _].
  exists du. split; [done|]. intros d' Hin. specialize (Hnoent d' Hin). lra.
Qed.

Lemma prev_inv_relax_step rank bound u d done st v w :
  relaxing_at u d done st → pinv rank bound st → (v, w) ∈ adj g u →
  pinv rank bound (relax_state u d st (v, w)).
Proof.
  intros Hrx [Hroot Hedge Hbound Hrank] Hvw.
  destruct (Qlt_inf (d + w) (dist st !! v)) eqn:Hcmp;
    [|by rewrite (relax_state_keep _ _ _ _ _ Hcmp)].
  rewrite (relax_state_improve _ _ _ _ _ Hcmp).
  pose proof (relaxing_settled_current _ _ _ _ Hrx) as Hu.
  pose proof (Hnonneg u v w Hvw) as Hw.
  pose proof (proj1 (Qlt_inf_true _ _) Hcmp) as Hbelow.
  destruct Hrx as [_ (du & Hdu & Hdueq) Hnoent _ Hsett _ _ _].
  assert (¬ settled st v) as Hv.
  { intros (dv & Hdv & Hall). specialize (Hbelow dv Hdv).
    specialize (Hsett v dv Hdv Hall). lra. }
  assert (v ≠ u) as Hvu by (intros ->; done).
  set (st' := {| dist := <[v := d + w]> (dist st); prev := <[v := u]> (prev st);
                 pq := (d + w, v) :: pq st;
                 best_end := best_end st; best_dist := best_dist st |}).
  assert (Hkeep : ∀ x, x ≠ v → settled st x → settled st' x).
  { intros x Hx (dx & Hdx & Hall). exists dx. cbn [st' dist pq].
    rewrite lookup_insert_ne by done. split; [done|].
    intros d' [[= _ ?]|Hin]%elem_of_cons; [done|by apply Hall]. }
  assert (Hback : ∀ x, settled st' x → x ≠ v ∧ settled st x).
  { intros x (dx & Hdx & Hall). cbn [st' dist pq] in Hdx, Hall.
    destruct (decide (x = v)) as [->|Hx].
    - rewrite lookup_insert_eq in Hdx. injection Hdx as <-.
      assert (d + w < d + w) by (apply Hall; by left). lra.
    - split; [done|]. rewrite lookup_insert_ne in Hdx by done.
      exists dx. split; [done|]. intros d' Hin. apply Hall. by right. }
  split; cbn [st' dist prev pq].
  - intros x dx. destruct (decide (x = v)) as [->|Hx].
    + by rewrite !lookup_insert_eq.
    + rewrite !lookup_insert_ne by done. apply Hroot.
  - intros y z. destruct (decide (y = v)) as [->|Hy].
    + rewrite lookup_insert_eq. intros [= <-]. split; [by apply Hkeep|].
      exists w, du, (d + w). rewrite lookup_insert_eq, lookup_insert_ne by done.
      repeat split; try done. lra.
    + rewrite lookup_insert_ne by done. intros Hyz.
      destruct (Hedge y z Hyz) as (Hz & w0 & dz & dy & Hzy & Hdz & Hdy & Heq).
      assert (z ≠ v) as Hzv by (intros ->; done).
      split; [by apply Hkeep|]. exists w0, dz, dy.
      rewrite !lookup_insert_ne by done. done.
  - intros x [_ Hx]%Hback. by apply Hbound.
  - intros y z Hyz [Hy Hsy]%Hback. rewrite lookup_insert_ne in Hyz by done.
    by apply Hrank.
Qed.

Lemma prev_inv_relax_fold rank bound u d es seen st :
  relaxing_at u d seen st → pinv rank bound st →
  (∀ e, e ∈ es → e ∈ adj g u) →
  pinv rank bound (fold_left (relax_state u d) es st).
Proof.
  revert seen st. induction es as [|[v w] es IH]; intros seen st Hrx Hp Hsub.
  { exact Hp. }
  cbn [fold_left].
  destruct (relax_step g start_rs_costs end_stop_costs rs_map Hnonneg Hindexed
              u d seen st v w Hrx) as [Hrx' _].
  { apply Hsub. by left. }
  apply (IH (seen ++ [(v, w)])); [exact Hrx'| |].
  - apply (prev_inv_relax_step _ _ _ _ seen); [exact Hrx|exact Hp|].
    apply Hsub. by left.
  - intros e He. apply Hsub. by right.
Qed.

Lemma prev_inv_pop_stale rank bound st d u pq' :
  inv st → pinv rank bound st →
  heappop (pq st) = Some ((d, u), pq') →
  Qgt_inf d (dist st !! u) = true →
  pinv rank bound {| dist := dist st; prev := prev st; pq := pq';
                     best_end := best_end st; best_dist := best_dist st |}.
Proof.
  intros Hinv [Hroot Hedge Hbound Hrank] Hpop Hstale.
  pose proof (heappop_perm _ _ _ Hpop) as Hperm.
  apply Qgt_inf_true in Hstale as (d0 & Hd0 & Hlt).
  set (st' := {| dist := dist st; prev := prev st; pq := pq';
                 best_end := best_end st; best_dist := best_dist st |}).
  assert (Hiff : ∀ x, settled st' x ↔ settled st x).
  { intros x. split; intros (dx & Hdx & Hall); exists dx; (split; [done|]).
    - intros d' Hin. rewrite Hperm in Hin.
      apply elem_of_cons in Hin as [[= -> ->]|Hin]; [|by apply Hall].
      cbn in Hdx. rewrite Hd0 in Hdx. by injection Hdx as <-.
    - cbn [st' pq]. intros d' Hin. apply Hall. rewrite Hperm. by right. }
  split; cbn [st' dist prev pq].
  - done.
  - intros v z Hvz. destruct (Hedge v z Hvz) as [Hz Hrest].
    split; [by apply Hiff|done].
  - intros x Hx%Hiff. by apply Hbound.
  - intros v z Hvz Hv%Hiff. by apply Hrank.
Qed.

Lemma prev_inv_pop_fresh rank bound st d u pq' best1 :
  inv st → pinv rank bound st →
  heappop (pq st) = Some ((d, u), pq') →
  Qgt_inf d (dist st !! u) = false →
  pinv (fun x => if decide (x = u) then bound else rank x) (S bound)
       {| dist := dist st; prev := prev st; pq := pq';
          best_end := best1.1; best_dist := best1.2 |}.
Proof.
  intros Hinv [Hroot Hedge Hbound Hrank] Hpop Hfresh.
  pose proof (heappop_perm _ _ _ Hpop) as Hperm.
  assert (Hpopped : (d, u) ∈ pq st) by (rewrite Hperm; by left).
  destruct (ci_entries _ _ _ _ _ (si_core _ _ _ _ _ Hinv) d u Hpopped)
    as (du & Hdu & Hle).
  pose proof (proj1 (Qgt_inf_false _ _) Hfresh du Hdu) as Hge.
  assert (¬ settled st u) as Hu.
  { intros (d0 & Hd0 & Hall). specialize (Hall d Hpopped).
    rewrite Hdu in Hd0. injection Hd0 as <-. lra. }
  set (st1 := {| dist := dist st; prev := prev st; pq := pq';
                 best_end := best1.1; best_dist := best1.2 |}).
  assert (Hkeep : ∀ x, settled st x → settled st1 x).
  { intros x (dx & Hdx & Hall). exists dx. split; [done|].
    cbn [st1 pq]. intros d' Hin. apply Hall. rewrite Hperm. by right. }
  assert (Hback : ∀ x, x ≠ u → settled st1 x → settled st x).
  { intros x Hx (dx & Hdx & Hall). exists dx. split; [done|].
    intros d' Hin. rewrite Hperm in Hin.
    apply elem_of_cons in Hin as [[= _ ?]|Hin]; [done|by apply Hall]. }
  split; cbn [st1 dist prev pq].
  - done.
  - intros v z Hvz. destruct (Hedge v z Hvz) as [Hz Hrest].
    split; [by apply Hkeep|done].
  - intros x Hx. destruct (decide (x = u)) as [->|Hne]; [lia|].
    apply Hback, Hbound in Hx; [lia|done].
  - intros v z Hvz Hv. destruct (Hedge v z Hvz) as [Hz _].
    assert (z ≠ u) as Hzu by (intros ->; done).
    rewrite (decide_False (P := z = u)) by done.
    destruct (decide (v = u)) as [->|Hne]; [by apply Hbound|].
    apply Hrank; [done|by apply Hback].
Qed.

Lemma dijkstra_loop_final n : ∀ st rank bound,
  inv st → pinv rank bound st → (measure st <= n)%nat →
  ∃ st' rank' bound',
    inv st' ∧ pinv rank' bound' st' ∧ pq st' = []
    ∧ ∀ fuel, (n <= fuel)%nat →
        dijkstra_loop fuel g end_stop_costs rs_map st
        = Ok (best_end st', prev st').
Proof.
  induction n as [|n IH]; intros st rank bound Hinv Hp Hn.
  all: destruct (heappop (pq st)) as [[[d u] pq']|] eqn:Hpop.
  all: try (apply heappop_None in Hpop;
            exists st, rank, bound;
            split; [exact Hinv|split; [exact Hp|split; [exact Hpop|]]];
            intros fuel _; rewrite dijkstra_loop_unfold;
            by rewrite (proj2 (heappop_None _) Hpop)).
  - exfalso. pose proof (Permutation_length (heappop_perm _ _ _ Hpop)) as Hlen.
    unfold potential in Hn. rewrite Hlen in Hn. cbn in Hn. lia.
  - destruct (Qgt_inf d (dist st !! u)) eqn:Hcmp.
    + destruct (pop_stale _ _ _ _ st d u pq' Hinv Hpop Hcmp) as [Hinv' Hm].
      pose proof (prev_inv_pop_stale rank bound st d u pq' Hinv Hp Hpop Hcmp)
        as Hp'.
      destruct (IH _ _ _ Hinv' Hp') as (st' & rank' & bound' & H1 & H2 & H3 & Hrun);
        [lia|].
      exists st', rank', bound'.
      split; [exact H1|split; [exact H2|split; [exact H3|]]].
      intros [|fuel] Hfuel; [lia|].
      rewrite dijkstra_loop_unfold, Hpop, Hcmp. apply Hrun. lia.
    + assert ((d, u) ∈ pq st) as Hpopped.
      { rewrite (heappop_perm _ _ _ Hpop). by left. }
      destruct (ci_entries _ _ _ _ _ (si_core _ _ _ _ _ Hinv) d u Hpopped)
        as (du & Hdu & _).
      destruct (ci_indexed _ _ _ _ _ (si_core _ _ _ _ _ Hinv) u du Hdu)
        as [rs Hrs].
      destruct (pop_fresh _ _ _ _ st d u pq' rs Hinv Hpop Hcmp Hrs) as [Hrx Hm].
      set (best1 := update_best end_stop_costs rs u d (best_end st, best_dist st))
        in *.
      pose proof (prev_inv_pop_fresh rank bound st d u pq' best1 Hinv Hp Hpop Hcmp)
        as Hp1.
      set (st1 := {| dist := dist st; prev := prev st; pq := pq';
                     best_end := best1.1; best_dist := best1.2 |}) in *.
      pose proof (prev_inv_relax_fold _ _ u d (adj g u) [] st1 Hrx Hp1
                    (fun e He => He)) as Hp2.
      destruct (relax_fold _ _ _ _ Hnonneg Hindexed u d (adj g u) [] st1 Hrx)
        as [Hrx' Hm']; [done|].
      cbn [app] in Hrx'. apply relaxing_finish in Hrx'.
      destruct (fold_relax_state u d (adj g u) st1) as (Hfold & Hbe & Hbd).
      set (st2 := fold_left (relax_state u d) (adj g u) st1) in *.
      destruct (IH st2 _ _ Hrx' Hp2) as (st' & rank' & bound' & H1 & H2 & H3 & Hrun);
        [lia|].
      exists st', rank', bound'.
      split; [exact H1|split; [exact H2|split; [exact H3|]]].
      intros [|fuel] Hfuel; [lia|].
      rewrite dijkstra_loop_unfold, Hpop, Hcmp, (py_getitem_Some _ _ _ Hrs).
      cbn [mbind result_bind]. fold best1.
      destruct best1 as [be1 bd1] eqn:Hbest1.
      change (dist st, prev st, pq') with (dist st1, prev st1, pq st1).
      rewrite Hfold.
      replace {| dist := dist st2; prev := prev st2; pq := pq st2;
                 best_end := be1; best_dist := bd1 |} with st2.
      * apply Hrun. lia.
      * cbn [st1 best_end best_dist fst snd] in Hbe, Hbd.
        destruct st2. cbn in *. by subst.
Qed.

(** Once the frontier is empty, the predecessor chain of every node with a
    cost leads back to a start node along edges of the graph, and the cost is
    the start node's initial cost plus the weight of that path. *)
Lemma final_chain st rank bound n : ∀ x dx,
  inv st → pinv rank bound st → pq st = [] →
  dist st !! x = Some dx → (rank x <= n)%nat →
  ∃ k s c0 cost,
    ancestor (prev st) k x = Some s ∧ prev st !! s = None
    ∧ start_rs_costs !! s = Some c0
    ∧ path_weight g (reverse ([x] ++ chain_list (prev st) k x)) cost
    ∧ dx == c0 + cost ∧ (k <= rank x)%nat.
Proof.
  induction n as [|n IH]; intros x dx Hinv Hp Hempty Hx Hn.
  all: destruct (prev st !! x) as [u|] eqn:Hprev.
  all: try (exists 0%nat, x, dx, 0; cbn;
            repeat split; try done;
            [by apply (pi_root _ _ _ _ _ Hp)|constructor|lra|lia]).
  all: assert (Hall : ∀ y dy, dist st !! y = Some dy → settled st y)
         by (intros y dy Hy; exists dy; split; [done|];
             intros d' Hin; rewrite Hempty in Hin; by apply elem_of_nil in Hin).
  all: destruct (pi_edge _ _ _ _ _ Hp x u Hprev)
         as (Hu & w & du & dx' & Hxw & Hdu & Hdx & Heq).
  all: pose proof (pi_rank _ _ _ _ _ Hp x u Hprev (Hall x dx Hx)) as Hlt.
  - lia.
  - destruct (IH u du Hinv Hp Hempty Hdu) as (k & s & c0 & cost & Hanc & Hroot
                                               & Hs & Hpath & Hcost & Hk); [lia|].
    destruct (path_weight_snoc g _ cost u x w Hpath) as (cost' & Hpath' & Hcost');
      [by rewrite last_reverse|done|].
    exists (S k), s, c0, cost'. cbn [ancestor chain_list]. rewrite Hprev.
    repeat split; try done.
    + change ([x] ++ u :: chain_list (prev st) k u)
        with (x :: ([u] ++ chain_list (prev st) k u)).
      by rewrite reverse_cons.
    + rewrite Hx in Hdx. injection Hdx as <-. lra.
    + lia.
Qed.

End SearchPath.

(** The search ends with the predecessor chain of the node it returns: the
    chain leads back to a start node along edges of the graph, and its cost
    plus the two walking costs is the least total. *)
Lemma search_chain g start_rs_costs end_stop_costs rs_map :
  nonneg_weights g →
  nodes_indexed g start_rs_costs rs_map →
  ∃ n best prev,
    (∀ fuel, (n <= fuel)%nat →
       dijkstra fuel g start_rs_costs end_stop_costs rs_map = Ok (best, prev))
    ∧ match best with
      | Some e =>
          ∃ k s c0 cost rs c,
            (k <= n)%nat
            ∧ ancestor prev k e = Some s ∧ prev !! s = None
            ∧ start_rs_costs !! s = Some c0
            ∧ path_weight g (reverse ([e] ++ chain_list prev k e)) cost
            ∧ rs_map !! e = Some rs
            ∧ end_stop_costs !! rs_stop_id rs = Some c
            ∧ ∀ v t', trip_total g start_rs_costs end_stop_costs rs_map v t' →
                      c0 + cost + c <= t'
      | None =>
          ∀ v t', ¬ trip_total g start_rs_costs end_stop_costs rs_map v t'
      end.
Proof.
  intros Hnonneg Hindexed.
  pose proof (search_init_inv g start_rs_costs end_stop_costs rs_map Hindexed)
    as Hinit.
  pose proof (prev_inv_init g start_rs_costs) as Hpinit.
  destruct (dijkstra_loop_final g start_rs_costs end_stop_costs rs_map
              Hnonneg Hindexed _ _ _ _ Hinit Hpinit (le_n _))
    as (st & rank & bound & Hinv & Hp & Hempty & Hrun).
  exists (max (potential g rs_map (search_init start_rs_costs)) bound),
         (best_end st), (prev st).
  split; [intros fuel Hfuel; apply Hrun; lia|].
  pose proof (search_inv_final _ _ _ _ st Hinv Hempty) as Hfinal.
  destruct (best_end st) as [e|]; [|exact Hfinal].
  destruct Hfinal as (t & Htrip & Hleast).
  destruct Htrip as (d & rs & c & Hreach & Hrs & Hc & Ht).
  destruct (reaches_lower_bound _ _ _ _ st e d Hinv Hempty Hreach)
    as (d0 & Hd0 & Hle).
  destruct (final_chain g start_rs_costs end_stop_costs rs_map st rank bound
              (rank e) e d0 Hinv Hp Hempty Hd0 (le_n _))
    as (k & s & c0 & cost & Hanc & Hroot & Hs & Hpath & Hcost & Hk).
  assert (settled st e) as Hsettled.
  { exists d0. split; [done|]. intros d' Hin. rewrite Hempty in Hin.
    by apply elem_of_nil in Hin. }
  pose proof (pi_bound _ _ _ _ _ Hp e Hsettled) as Hbound.
  exists k, s, c0, cost, rs, c.
  split; [lia|]. repeat split; try done.
  intros v t' Hv. specialize (Hleast v t' Hv). lra.
Qed.

Lemma chain_head prev k e s :
  ancestor prev k e = Some s →
  head (reverse ([e] ++ chain_list prev k e)) = Some s.
Proof.
  intros Hanc. rewrite head_lookup, (reverse_chain_lookup _ k e s) by (done || lia).
  by rewrite Nat.sub_0_r.
Qed.

Lemma rebuild_path_reverse prev k e s fuel :
  ancestor prev k e = Some s → prev !! s = None → (k <= fuel)%nat →
  rebuild_path fuel e prev = Ok (reverse ([e] ++ chain_list prev k e)).
Proof.
  intros Hanc Hroot Hfuel. unfold rebuild_path.
  by rewrite (rebuild_loop_chain prev k e s) by (done || lia).
Qed.

Lemma chain_trip_total g start_rs_costs end_stop_costs rs_map prev k e s c0
    cost rs c :
  ancestor prev k e = Some s →
  start_rs_costs !! s = Some c0 →
  path_weight g (reverse ([e] ++ chain_list prev k e)) cost →
  rs_map !! e = Some rs →
  end_stop_costs !! rs_stop_id rs = Some c →
  trip_total g start_rs_costs end_stop_costs rs_map e (c0 + cost + c).
Proof.
  intros Hanc Hs Hpath Hrs Hc.
  pose proof (chain_head prev k e s Hanc) as Hhead.
  assert (last (reverse ([e] ++ chain_list prev k e)) = Some e) as Hlast.
  { by rewrite last_reverse. }
  destruct (path_weight_walk g _ cost s e Hpath Hhead Hlast)
    as (cw & Hwalk & Hcw).
  exists (c0 + cw), rs, c. repeat split; try done; [|lra].
  exists s, c0, cw. repeat split; try done.
Qed.

(** X3.  On a graph with non-negative weights whose nodes are all in the node
    index, the predecessor map [dijkstra] returns rebuilds, from the node it
    returns, into a path of graph edges that begins at a start node, and the
    initial cost of that start node plus the weight of the path plus the
    remaining cost of the end node's stop is the least total of all: the
    rebuilt path is a cheapest trip. *)
Theorem dijkstra_path_is_cheapest g start_rs_costs end_stop_costs rs_map :
  nonneg_weights g →
  nodes_indexed g start_rs_costs rs_map →
  ∃ n best prev,
    (∀ fuel, (n <= fuel)%nat →
       dijkstra fuel g start_rs_costs end_stop_costs rs_map = Ok (best, prev))
    ∧ ∀ e, best = Some e →
        ∃ path s c0 cost rs c,
          (∀ fuel, (n <= fuel)%nat → rebuild_path fuel e prev = Ok path)
          ∧ head path = Some s ∧ last path = Some e
          ∧ start_rs_costs !! s = Some c0
          ∧ path_weight g path cost
          ∧ rs_map !! e = Some rs
          ∧ end_stop_costs !! rs_stop_id rs = Some c
          ∧ best_total g start_rs_costs end_stop_costs rs_map e (c0 + cost + c)
          ∧ ∀ v t', best_total g start_rs_costs end_stop_costs rs_map v t' →
                    c0 + cost + c <= t'.
Proof.
  intros Hnonneg Hindexed.
  destruct (search_chain g start_rs_costs end_stop_costs rs_map Hnonneg Hindexed)
    as (n & best & pv & Hrun & Hbest).
  exists n, best, pv. split; [exact Hrun|].
  intros e ->.
  destruct Hbest
    as (k & s & c0 & cost & rs & c & Hk & Hanc & Hroot & Hs & Hpath & Hrs & Hc
        & Hmin).
  pose proof (chain_head pv k e s Hanc) as Hhead.
  assert (last (reverse ([e] ++ chain_list pv k e)) = Some e) as Hlast.
  { by rewrite last_reverse. }
  pose proof (chain_trip_total g start_rs_costs end_stop_costs rs_map pv k e s
                c0 cost rs c Hanc Hs Hpath Hrs Hc) as Htrip.
  exists (reverse ([e] ++ chain_list pv k e)), s, c0, cost, rs, c.
  repeat split; try done.
  - intros fuel Hfuel. apply (rebuild_path_reverse pv k e s); [done|done|lia].
  - by apply least_trip_total_best.
  - intros v t' Hv. apply (Hmin v). by apply best_total_trip_total.
Qed.

Lemma dijkstra_path_is_cheapest_witness :
  ∃ n best prev,
    (∀ fuel, (n <= fuel)%nat →
       dijkstra fuel diamond_graph diamond_starts diamond_ends diamond_rs_map
       = Ok (best, prev))
    ∧ ∀ e, best = Some e →
        ∃ path s c0 cost rs c,
          (∀ fuel, (n <= fuel)%nat → rebuild_path fuel e prev = Ok path)
          ∧ head path = Some s ∧ last path = Some e
          ∧ diamond_starts !! s = Some c0
          ∧ path_weight diamond_graph path cost
          ∧ diamond_rs_map !! e = Some rs
          ∧ diamond_ends !! rs_stop_id rs = Some c
          ∧ best_total diamond_graph diamond_starts diamond_ends diamond_rs_map
                       e (c0 + cost + c)
          ∧ ∀ v t', best_total diamond_graph diamond_starts diamond_ends
                               diamond_rs_map v t' →
                    c0 + cost + c <= t'.
Proof.
  apply dijkstra_path_is_cheapest; [apply diamond_nonneg|apply diamond_indexed].
Defined.

(** * Nearby stops *)

Lemma insert_by_distance_perm x l : insert_by_distance x l ≡ₚ x :: l.
Proof.
  induction l as [|y l IH]; cbn; [done|].
  destruct (Qle_bool (snd x) (snd y)); [done|].
  rewrite IH. apply Permutation_swap.
Qed.

Lemma insert_by_distance_sorted x l :
  Sorted dist_le l → Sorted dist_le (insert_by_distance x l).
Proof.
  induction l as [|y l IH]; cbn; intros Hs.
  - repeat constructor.
  - destruct (Qle_bool (snd x) (snd y)) eqn:Hxy.
    + constructor; [done|]. constructor. by apply Qle_bool_iff.
    + assert (snd y <= snd x) as Hyx.
      { apply Qlt_le_weak, Qnot_le_lt. intros H%Qle_bool_iff. congruence. }
      apply Sorted_inv in Hs as [Hs Hhd]. constructor; [by apply IH|].
      destruct l as [|z l]; cbn.
      * by constructor.
      * destruct (Qle_bool (snd x) (snd z)).
        -- by constructor.
        -- constructor. by apply HdRel_inv in Hhd.
Qed.

Lemma sort_by_distance_perm l : foldr insert_by_distance [] l ≡ₚ l.
Proof.
  induction l as [|x l IH]; cbn; [done|].
  by rewrite insert_by_distance_perm, IH.
Qed.

Lemma sort_by_distance_sorted l : Sorted dist_le (foldr insert_by_distance [] l).
Proof.
  induction l as [|x l IH]; cbn; [constructor|].
  by apply insert_by_distance_sorted.
Qed.

Lemma sorted_to_km (l : list (Stop * Q)) :
  Sorted dist_le l →
  Sorted dist_le (map (fun '(stop, dist) => (stop, dist / 1000.0)) l).
Proof.
  assert (Hkm : ∀ a b : Stop * Q, dist_le a b →
            dist_le (let '(stop, dist) := a in (stop, dist / 1000.0))
                    (let '(stop, dist) := b in (stop, dist / 1000.0))).
  { intros [s1 d1] [s2 d2]. unfold dist_le. cbn. intros H.
    apply Qmult_le_compat_r; [done|]. by vm_compute. }
  induction l as [|x l IH]; cbn; intros Hs; [constructor|].
  apply Sorted_inv in Hs as [Hs Hhd]. constructor; [by apply IH|].
  destruct l as [|y l]; cbn; constructor.
  apply Hkm. by apply HdRel_inv in Hhd.
Qed.

Lemma find_nearby_stops_perm gis db lat lng max_walk_km :
  find_nearby_stops gis db lat lng max_walk_km
  ≡ₚ stops_within gis db lat lng max_walk_km.
Proof.
  unfold find_nearby_stops, stops_within. cbn zeta.
  rewrite sort_by_distance_perm, map_map. done.
Qed.

Lemma find_nearby_stops_ordered gis db lat lng max_walk_km :
  Sorted dist_le (find_nearby_stops gis db lat lng max_walk_km).
Proof. apply sorted_to_km, sort_by_distance_sorted. Qed.

Lemma sorted_lookup_le (l : list (Stop * Q)) i j a b :
  Sorted dist_le l → (i <= j)%nat → l !! i = Some a → l !! j = Some b →
  snd a <= snd b.
Proof.
  intros Hs. apply Sorted_StronglySorted in Hs;
    [|intros x y z; unfold dist_le; apply Qle_trans].
  revert i j. induction Hs as [|x l Hs IH Hall]; intros i j Hij Ha Hb; [done|].
  destruct i as [|i], j as [|j]; cbn in Ha, Hb.
  - injection Ha as <-. injection Hb as <-. apply Qle_refl.
  - injection Ha as <-. rewrite Forall_forall in Hall.
    apply Hall. by eapply list_elem_of_lookup_2.
  - lia.
  - apply (IH i j); [lia|done|done].
Qed.

Lemma elem_of_find_nearby_stops gis db lat lng max_walk_km s d :
  (s, d) ∈ find_nearby_stops gis db lat lng max_walk_km ↔
  s ∈ tbl_stops db
  ∧ ST_DWithin gis (location s) (lng, lat) (max_walk_km * 1000) = true
  ∧ d = ST_Distance gis (location s) (lng, lat) / 1000.0.
Proof.
  rewrite find_nearby_stops_perm. unfold stops_within.
  rewrite list_elem_of_fmap. split.
  - intros (s' & [= -> ->] & Hin). apply list_elem_of_filter in Hin as [Hw Hin].
    done.
  - intros (Hin & Hw & ->). exists s. split; [done|].
    apply list_elem_of_filter. done.
Qed.

(** X4.  [find_nearby_stops] returns exactly the stops of the table that the
    spatial index places within the radius, each once with its distance in
    kilometres, in ascending order of distance. *)
Theorem find_nearby_stops_sorted gis db lat lng max_walk_km :
  find_nearby_stops gis db lat lng max_walk_km
  ≡ₚ stops_within gis db lat lng max_walk_km
  ∧ Sorted dist_le (find_nearby_stops gis db lat lng max_walk_km)
  ∧ ∀ s d, (s, d) ∈ find_nearby_stops gis db lat lng max_walk_km ↔
           s ∈ tbl_stops db
           ∧ ST_DWithin gis (location s) (lng, lat) (max_walk_km * 1000) = true
           ∧ d = ST_Distance gis (location s) (lng, lat) / 1000.0.
Proof.
  split; [apply find_nearby_stops_perm|].
  split; [apply find_nearby_stops_ordered|].
  intros s d. apply elem_of_find_nearby_stops.
Qed.

(** X5.  The candidates [find_route] keeps are the first three of the nearby
    stops: there are at most three, and no stop that was left out is nearer
    than one that was kept. *)
Theorem candidates_are_nearest gis db lat lng max_walk_km kept dropped :
  kept ∈ take MAX_CANDIDATES (find_nearby_stops gis db lat lng max_walk_km) →
  dropped ∈ drop MAX_CANDIDATES (find_nearby_stops gis db lat lng max_walk_km) →
  (length (take MAX_CANDIDATES (find_nearby_stops gis db lat lng max_walk_km))
   <= 3)%nat
  ∧ snd kept <= snd dropped.
Proof.
  intros Hkept Hdropped. split; [rewrite length_take; unfold MAX_CANDIDATES; lia|].
  apply list_elem_of_lookup in Hkept as [i Hi].
  apply list_elem_of_lookup in Hdropped as [j Hj].
  assert (i < MAX_CANDIDATES)%nat as Hlt.
  { apply lookup_lt_Some in Hi. rewrite length_take in Hi. lia. }
  rewrite lookup_take_lt in Hi by done. rewrite lookup_drop in Hj.
  eapply (sorted_lookup_le _ i (MAX_CANDIDATES + j));
    [apply find_nearby_stops_ordered|lia|done|done].
Qed.

Lemma candidates_are_nearest_witness :
  ∃ kept dropped,
    kept ∈ take MAX_CANDIDATES (find_nearby_stops grid_gis sample_db 0 0.02 10)
    ∧ dropped ∈ drop MAX_CANDIDATES (find_nearby_stops grid_gis sample_db 0 0.02 10)
    ∧ (length (take MAX_CANDIDATES
                 (find_nearby_stops grid_gis sample_db 0 0.02 10)) <= 3)%nat
    ∧ snd kept <= snd dropped.
Proof.
  eexists _, _.
  split; [vm_compute; apply list_elem_of_here|].
  split; [vm_compute; apply list_elem_of_here|].
  apply (candidates_are_nearest grid_gis sample_db 0 0.02 10);
    vm_compute; apply list_elem_of_here.
Defined.

(** * Walking costs at both ends *)

Lemma least_costs_iff (seen seen' : Z → Q → Prop) costs :
  (∀ k d, seen k d ↔ seen' k d) → least_costs seen costs → least_costs seen' costs.
Proof.
  intros Hiff H k. specialize (H k). destruct (costs !! k) as [c|].
  - destruct H as [(d & Hd & Hc) Hle]. split.
    + exists d. by rewrite <- Hiff.
    + intros d' Hd'. apply Hle. by rewrite Hiff.
  - intros d Hd. apply (H d). by rewrite Hiff.
Qed.

Lemma least_costs_insert (seen : Z → Q → Prop) costs k0 d0 :
  least_costs seen costs →
  least_costs (fun k d => seen k d ∨ k = k0 ∧ d = d0)
    (<[k0 := py_min_inf (costs !! k0) (d0 * WALK_WEIGHT)]> costs).
Proof.
  intros H k. destruct (decide (k = k0)) as [->|Hne].
  - rewrite lookup_insert_eq. specialize (H k0). unfold py_min_inf.
    destruct (costs !! k0) as [o|].
    + destruct H as [(d & Hd & Ho) Hle].
      destruct (Qlt_le_dec (d0 * WALK_WEIGHT) o) as [Hlt|Hge].
      * split; [exists d0; split; [by right|done]|].
        intros d' [Hd'|[_ ->]]; [|apply Qle_refl].
        specialize (Hle d' Hd'). lra.
      * split; [exists d; split; [by left|done]|].
        intros d' [Hd'|[_ ->]]; [by apply Hle|done].
    + split; [exists d0; split; [by right|done]|].
      intros d' [Hd'|[_ ->]]; [by destruct (H d')|apply Qle_refl].
  - rewrite lookup_insert_ne by done. specialize (H k).
    destruct (costs !! k) as [c|].
    + destruct H as [(d & Hd & Hc) Hle]. split; [exists d; split; [by left|done]|].
      intros d' [Hd'|[? _]]; [by apply Hle|done].
    + intros d [Hd|[? _]]; [by apply (H d)|done].
Qed.

(** The inner loop of lines 42-47, for one candidate. *)
Lemma start_costs_inner stop walk_d (seen : Z → Q → Prop) rss : ∀ visited costs,
  least_costs (fun k d => seen k d ∨ boards visited [(stop, walk_d)] k d) costs →
  least_costs (fun k d => seen k d ∨ boards (visited ++ rss) [(stop, walk_d)] k d)
    (fold_left (fun (costs : gmap Z Q) rs =>
       if (rs_stop_id rs =? stop_ident stop)%Z
       then <[rs_id rs := py_min_inf (costs !! rs_id rs) (walk_d * WALK_WEIGHT)]> costs
       else costs) rss costs).
Proof.
  induction rss as [|rs rss IH]; intros visited costs H; cbn [fold_left].
  - by rewrite app_nil_r.
  - replace (visited ++ rs :: rss) with ((visited ++ [rs]) ++ rss)
      by (by rewrite <- app_assoc).
    apply IH. destruct (Z.eqb_spec (rs_stop_id rs) (stop_ident stop)) as [Heq|Hne].
    + eapply least_costs_iff;
        [|apply (least_costs_insert
                   (fun k d => seen k d ∨ boards visited [(stop, walk_d)] k d)
                   costs (rs_id rs) walk_d H)].
      intros k d. cbn beta. split.
      * intros [[Hs|(rs' & s & Hin & Hc & Hk & Hst)]|[-> ->]].
        -- by left.
        -- right. exists rs', s. split; [|done]. apply elem_of_app. by left.
        -- right. exists rs, stop. split; [apply elem_of_app; right; by left|].
           split; [by left|done].
      * intros [Hs|(rs' & s & Hin & Hc & Hk & Hst)]; [by left; left|].
        apply list_elem_of_singleton in Hc as [= -> ->].
        apply elem_of_app in Hin as [Hin|Hin%list_elem_of_singleton].
        -- left. right. exists rs', stop. split; [done|]. split; [by left|done].
        -- subst rs'. by right.
    + eapply least_costs_iff; [|exact H]. intros k d. cbn beta. split.
      * intros [Hs|(rs' & s & Hin & Hc & Hk & Hst)]; [by left|].
        right. exists rs', s. split; [|done]. apply elem_of_app. by left.
      * intros [Hs|(rs' & s & Hin & Hc & Hk & Hst)]; [by left|].
        apply list_elem_of_singleton in Hc as [= -> ->].
        apply elem_of_app in Hin as [Hin|Hin%list_elem_of_singleton].
        -- right. exists rs', stop. split; [done|]. split; [by left|done].
        -- subst rs'. done.
Qed.

(** The outer loop of lines 41-47. *)
Lemma start_costs_outer route_stops cands : ∀ visited costs,
  least_costs (boards route_stops visited) costs →
  least_costs (boards route_stops (visited ++ cands))
    (fold_left (fun costs '(stop, walk_d) =>
       fold_left (fun (costs : gmap Z Q) rs =>
         if (rs_stop_id rs =? stop_ident stop)%Z
         then <[rs_id rs := py_min_inf (costs !! rs_id rs) (walk_d * WALK_WEIGHT)]> costs
         else costs) route_stops costs) cands costs).
Proof.
  induction cands as [|[stop walk_d] cands IH]; intros visited costs H;
    cbn [fold_left].
  - by rewrite app_nil_r.
  - replace (visited ++ (stop, walk_d) :: cands)
      with ((visited ++ [(stop, walk_d)]) ++ cands) by (by rewrite <- app_assoc).
    apply IH.
    eapply least_costs_iff;
      [|apply (start_costs_inner stop walk_d (boards route_stops visited)
                 route_stops [])].
    + intros k d. cbn [app]. split.
      * intros [(rs & s & Hin & Hc & Hk)|(rs & s & Hin & Hc & Hk)];
          exists rs, s; (split; [done|]); (split; [|done]);
          apply elem_of_app; [by left|by right].
      * intros (rs & s & Hin & [Hc|Hc]%elem_of_app & Hk);
          [left|right]; by exists rs, s.
    + eapply least_costs_iff; [|exact H]. intros k d. split; [by left|].
      intros [Hs|(rs & s & Hin & _)]; [done|]. by apply elem_of_nil in Hin.
Qed.

Lemma start_costs_least_costs route_stops cands :
  least_costs (boards route_stops cands) (start_costs route_stops cands).
Proof.
  apply (start_costs_outer route_stops cands []).
  intros k. rewrite lookup_empty. intros d (rs & s & _ & Hc & _).
  by apply elem_of_nil in Hc.
Qed.

(** X6.  The initial costs of [find_route]: a stop-assignment has an initial
    cost exactly when it is at one of the start candidates' stops, and its
    cost is 1.5 times the walking distance of the nearest such candidate. *)
Theorem start_costs_nearest route_stops start_candidates k :
  (is_Some (start_costs route_stops start_candidates !! k)
   ↔ ∃ d, boards route_stops start_candidates k d)
  ∧ ∀ c, start_costs route_stops start_candidates !! k = Some c →
         (∃ d, boards route_stops start_candidates k d ∧ c = d * WALK_WEIGHT)
         ∧ ∀ d, boards route_stops start_candidates k d → c <= d * WALK_WEIGHT.
Proof.
  pose proof (start_costs_least_costs route_stops start_candidates k) as H.
  destruct (start_costs route_stops start_candidates !! k) as [c|].
  - destruct H as [(d & Hd & Hc) Hle]. split.
    + split; [by exists d|by eexists].
    + intros c' [= <-]. split; [by exists d|exact Hle].
  - split; [|done]. split; [by intros [? ?]|].
    intros [d Hd]. by destruct (H d).
Qed.

Lemma end_costs_snoc cands stop walk_d :
  end_costs (cands ++ [(stop, walk_d)])
  = <[stop_ident stop := walk_d * WALK_WEIGHT]> (end_costs cands).
Proof. unfold end_costs. by rewrite fold_left_app. Qed.

(** X7.  The remaining costs of [find_route]: a stop has a remaining cost
    exactly when it is an end candidate, and the cost is 1.5 times the walking
    distance of the last candidate with its id. *)
Theorem end_costs_last end_candidates k :
  end_costs end_candidates !! k
  = (fun c => snd c * WALK_WEIGHT)
    <$> last (filter (fun c => stop_ident (fst c) = k) end_candidates).
Proof.
  induction end_candidates as [|[stop walk_d] cands IH] using rev_ind.
  - done.
  - rewrite end_costs_snoc, filter_app, filter_cons, filter_nil. cbn [fst].
    destruct (decide (stop_ident stop = k)) as [<-|Hne].
    + rewrite lookup_insert_eq, last_snoc. done.
    + rewrite lookup_insert_ne by done. by rewrite app_nil_r.
Qed.

(** * The branches of [find_route] *)

Lemma candidates_nil gis db l :
  candidates gis db (loc_lat l) (loc_lng l) = [] ↔ no_stop_near gis db l.
Proof.
  unfold candidates, no_stop_near. split.
  - intros Hnil s Hs.
    destruct (ST_DWithin gis (location s) (loc_lng l, loc_lat l) (0.7 * 1000))
      eqn:Hw; [|done].
    assert ((s, ST_Distance gis (location s) (loc_lng l, loc_lat l) / 1000.0)
            ∈ find_nearby_stops gis db (loc_lat l) (loc_lng l) 0.7) as Hin.
    { by apply elem_of_find_nearby_stops. }
    destruct (find_nearby_stops gis db (loc_lat l) (loc_lng l) 0.7);
      [by apply elem_of_nil in Hin|done].
  - intros Hnone.
    destruct (find_nearby_stops gis db (loc_lat l) (loc_lng l) 0.7)
      as [|[s d] rest] eqn:Hfound; [done|].
    assert ((s, d) ∈ find_nearby_stops gis db (loc_lat l) (loc_lng l) 0.7) as Hin.
    { rewrite Hfound. by left. }
    apply elem_of_find_nearby_stops in Hin as (Hs & Hw & _).
    rewrite (Hnone s Hs) in Hw. done.
Qed.

Lemma start_costs_empty route_stops start_candidates :
  start_costs route_stops start_candidates = ∅
  ↔ ∀ k d, ¬ boards route_stops start_candidates k d.
Proof.
  pose proof (start_costs_least_costs route_stops start_candidates) as H. split.
  - intros Hempty k d. specialize (H k). rewrite Hempty, lookup_empty in H.
    apply H.
  - intros Hnone. apply map_empty. intros k. specialize (H k).
    destruct (start_costs route_stops start_candidates !! k) as [c|]; [|done].
    destruct H as [(d & Hd & _) _]. by destruct (Hnone k d).
Qed.

(** What [find_route] does, by the tests of lines 27, 33 and 49. *)
Lemma find_route_cases M gis fuel payload db g route_stops rs_map :
  let start_candidates :=
    candidates gis db (loc_lat (from_location payload))
                      (loc_lng (from_location payload)) in
  let end_candidates :=
    candidates gis db (loc_lat (to_location payload))
                      (loc_lng (to_location payload)) in
  find_route M gis fuel payload db (g, route_stops, rs_map)
  = if decide (within_range M payload) then
      if decide (start_candidates = [] ∨ end_candidates = []) then
        (lookups payload,
         Raise (HTTPException 404 "Could not find stops near your location."))
      else if decide (start_costs route_stops start_candidates = ∅) then
        (lookups payload,
         Raise (HTTPException 404 "No bus routes available from these stops."))
      else
        (lookups payload ++ [GraphSearch],
         found ← dijkstra fuel g (start_costs route_stops start_candidates)
                   (end_costs end_candidates) rs_map;
         after_search M fuel rs_map start_candidates end_candidates found)
    else ([], Raise (HTTPException 400 "Distance too far for local transit search.")).
Proof.
  cbn zeta. unfold find_route, candidates. cbn zeta.
  generalize (take MAX_CANDIDATES
                (find_nearby_stops gis db (loc_lat (from_location payload))
                   (loc_lng (from_location payload)) 0.7)).
  generalize (take MAX_CANDIDATES
                (find_nearby_stops gis db (loc_lat (to_location payload))
                   (loc_lng (to_location payload)) 0.7)).
  intros end_candidates start_candidates.
  destruct (Qlt_le_dec 200 _) as [Hfar|Hnear].
  - rewrite decide_False; [done|]. unfold within_range. intros Hle. lra.
  - rewrite decide_True by done.
    destruct start_candidates as [|c1 cs1].
    { rewrite decide_True by (by left). done. }
    destruct end_candidates as [|c2 cs2].
    { rewrite decide_True by (by right). done. }
    rewrite decide_False by (by intros [?|?]).
    destruct (map_to_list (start_costs route_stops (c1 :: cs1))) eqn:Hlist.
    + apply map_to_list_empty_iff in Hlist. rewrite decide_True by done. done.
    + rewrite decide_False; [done|]. intros Hempty.
      rewrite Hempty, map_to_list_empty in Hlist. done.
Qed.

(** X8.  [find_route] answers 404, could not find stops, exactly when the
    request is within range and no stop of the table is within 700 m of the
    origin or none is within 700 m of the destination; it has then made its
    two nearby-stop lookups and no graph search. *)
Theorem no_stops_nearby M gis fuel payload db g route_stops rs_map :
  find_route M gis fuel payload db (g, route_stops, rs_map)
  = (lookups payload,
     Raise (HTTPException 404 "Could not find stops near your location."))
  ↔ within_range M payload
    ∧ (no_stop_near gis db (from_location payload)
       ∨ no_stop_near gis db (to_location payload)).
Proof.
  rewrite find_route_cases. cbn zeta. rewrite <- !candidates_nil.
  repeat case_decide; split; try done; tauto.
Qed.

(** X9.  [find_route] answers 404, no bus routes, exactly when the request is
    within range, both ends have a stop within 700 m, and no stop-assignment
    of the held data is at one of the start candidates' stops; it has then
    made its two lookups and no graph search. *)
Theorem no_routes_from_candidates M gis fuel payload db g route_stops rs_map :
  find_route M gis fuel payload db (g, route_stops, rs_map)
  = (lookups payload,
     Raise (HTTPException 404 "No bus routes available from these stops."))
  ↔ within_range M payload
    ∧ ¬ no_stop_near gis db (from_location payload)
    ∧ ¬ no_stop_near gis db (to_location payload)
    ∧ ∀ k d, ¬ boards route_stops
                 (candidates gis db (loc_lat (from_location payload))
                                    (loc_lng (from_location payload))) k d.
Proof.
  rewrite find_route_cases. cbn zeta.
  rewrite <- !candidates_nil, <- start_costs_empty.
  repeat case_decide; split; try done; tauto.
Qed.

(** * The search on the data [build_graph] returns *)

Lemma walking_edge_weight gis db u v w :
  (∀ p q, 0 <= ST_Distance gis p q) →
  (u, (v, w)) ∈ walking_edges_of gis db → TRANSFER_PENALTY <= w.
Proof.
  intros Hdist Hin. apply elem_of_walking_edges_of in Hin
    as (sa & sb & rs_a & rs_b & _ & _ & _ & _ & _ & _ & _ & _ & _ & [= -> -> ->]).
  pose proof (Hdist (location sa) (location sb)) as Hd.
  assert (0 <= ST_Distance gis (location sa) (location sb) / 1000).
  { apply Qle_shift_div_l; [reflexivity|lra]. }
  unfold WALK_WEIGHT_GRAPH, TRANSFER_PENALTY. lra.
Qed.

Lemma built_graph_nonneg gis db :
  (∀ p q, 0 <= ST_Distance gis p q) → monotone_distances db →
  nonneg_weights (add_edges (all_edges gis db) ∅).
Proof.
  intros Hdist Hmono u v w Hin%in_adj_build. unfold all_edges in Hin.
  apply elem_of_app in Hin as [Hin|Hin]; [|apply elem_of_app in Hin as [Hin|Hin]].
  - apply (ride_edge_weight_nonneg db (u, (v, w)) Hmono Hin).
  - pose proof (walking_edge_weight gis db u v w Hdist Hin) as Hw.
    unfold TRANSFER_PENALTY in Hw. lra.
  - apply elem_of_same_stop_edges_of in Hin as (a & b & _ & _ & _ & _ & [= -> -> ->]).
    unfold TRANSFER_PENALTY. lra.
Qed.

Lemma built_graph_indexed gis db start_candidates :
  nodes_indexed (add_edges (all_edges gis db) ∅)
    (start_costs (tbl_route_stops db) start_candidates)
    (make_rs_map (tbl_route_stops db)).
Proof.
  split.
  - intros s [c Hc].
    pose proof (start_costs_least_costs (tbl_route_stops db) start_candidates s)
      as H.
    rewrite Hc in H. destruct H as [(d & (rs & st & Hrs & _ & <- & _) & _) _].
    by apply make_rs_map_indexed.
  - intros u v w. apply build_graph_targets_indexed.
Qed.

(** X10.  On the data a fresh [build_graph] returns, the search of
    [find_route] is well defined whatever the candidates: when the recorded
    distances never decrease along a direction and the spatial index reports
    no negative distance, every edge weight is non-negative, every start
    node and every edge target is in the node index, and [dijkstra] returns
    a result, the same for any fuel from a bound on. *)
Theorem search_on_built_graph gis db start_candidates end_stop_costs :
  (∀ p q, 0 <= ST_Distance gis p q) →
  monotone_distances db →
  ∃ g route_stops rs_map,
    build_graph gis db None
    = (Ok (g, route_stops, rs_map), Some (g, route_stops, rs_map))
    ∧ nonneg_weights g
    ∧ nodes_indexed g (start_costs route_stops start_candidates) rs_map
    ∧ ∃ n found,
        ∀ fuel, (n <= fuel)%nat →
          dijkstra fuel g (start_costs route_stops start_candidates)
            end_stop_costs rs_map = Ok found.
Proof.
  intros Hdist Hmono. eexists _, _, _. split; [apply build_graph_fresh|].
  pose proof (built_graph_nonneg gis db Hdist Hmono) as Hnonneg.
  pose proof (built_graph_indexed gis db start_candidates) as Hindexed.
  split; [done|]. split; [done|].
  destruct (dijkstra_loop_terminates _ _ end_stop_costs _ Hnonneg Hindexed _ _
              (search_init_inv _ _ end_stop_costs _ Hindexed) (le_n _))
    as (best & pv & Hrun & _).
  by eexists _, (best, pv).
Qed.

Lemma search_on_built_graph_witness :
  ∃ g route_stops rs_map,
    build_graph grid_gis sample_db None
    = (Ok (g, route_stops, rs_map), Some (g, route_stops, rs_map))
    ∧ nonneg_weights g
    ∧ nodes_indexed g
        (start_costs route_stops (candidates grid_gis sample_db 0 0)) rs_map
    ∧ ∃ n found,
        ∀ fuel, (n <= fuel)%nat →
          dijkstra fuel g
            (start_costs route_stops (candidates grid_gis sample_db 0 0))
            (end_costs (candidates grid_gis sample_db 0 0.08)) rs_map
          = Ok found.
Proof.
  apply (search_on_built_graph grid_gis sample_db);
    [apply grid_distance_nonneg|apply sample_db_monotone].
Defined.

(** X11.  In the built graph an edge between stop-assignments of different
    directions is a transfer and weighs at least the transfer penalty 0.6;
    an edge between stop-assignments of one direction is a ride edge, whose
    weight is the difference of the two recorded distances. *)
Theorem direction_change_costs_penalty gis db a b w :
  (∀ p q, 0 <= ST_Distance gis p q) →
  NoDup (rs_id <$> tbl_route_stops db) →
  a ∈ tbl_route_stops db → b ∈ tbl_route_stops db →
  (rs_id b, w) ∈ adj (add_edges (all_edges gis db) ∅) (rs_id a) →
  if decide (rs_direction_id a = rs_direction_id b)
  then ∃ da db', distance_from_start a = Some da
                 ∧ distance_from_start b = Some db' ∧ w = db' - da
  else TRANSFER_PENALTY <= w.
Proof.
  intros Hdist Hnd Ha Hb Hin. case_decide as Hdir.
  - apply (edges_within_direction gis db (rs_direction_id a) a b w Hnd);
      [by apply elem_of_direction_stops|by apply elem_of_direction_stops|done].
  - apply in_adj_build in Hin. unfold all_edges in Hin.
    apply elem_of_app in Hin as [Hin|Hin]; [|apply elem_of_app in Hin as [Hin|Hin]].
    + exfalso. apply elem_of_ride_edges_db in Hin as [dir Hin].
      apply elem_of_ride_edges_of in Hin
        as (l1 & a' & b' & l2 & da & db' & Hsplit & Hida & Hidb & _).
      assert (a' ∈ direction_stops db dir ∧ b' ∈ direction_stops db dir)
        as [[Ha' Hda]%elem_of_direction_stops [Hb' Hdb]%elem_of_direction_stops].
      { rewrite Hsplit, !elem_of_app, !elem_of_cons. tauto. }
      rewrite <- (NoDup_fmap_elem_inj rs_id _ a a' Hnd Ha Ha' Hida) in Hda.
      rewrite <- (NoDup_fmap_elem_inj rs_id _ b b' Hnd Hb Hb' Hidb) in Hdb.
      congruence.
    + by apply (walking_edge_weight gis db (rs_id a) (rs_id b)).
    + apply elem_of_same_stop_edges_of in Hin as (? & ? & _ & _ & _ & _ & [= _ _ ->]).
      apply Qle_refl.
Qed.

Lemma direction_change_costs_penalty_witness :
  TRANSFER_PENALTY
  <= ST_Distance grid_gis (location (sample_stop 2 2000))
                          (location (sample_stop 6 2300)) / 1000
     * WALK_WEIGHT_GRAPH + TRANSFER_PENALTY.
Proof.
  apply (direction_change_costs_penalty grid_gis sample_db
           (sample_rs 2 1 2 2 (Some 2) 2000) (sample_rs 4 2 6 1 None 2300)
           (ST_Distance grid_gis (location (sample_stop 2 2000))
                                 (location (sample_stop 6 2300)) / 1000
            * WALK_WEIGHT_GRAPH + TRANSFER_PENALTY)
           grid_distance_nonneg sample_route_stops_ids).
  - cbn. apply list_elem_of_further, list_elem_of_here.
  - cbn. do 3 apply list_elem_of_further. apply list_elem_of_here.
  - apply in_adj_build. unfold all_edges. apply elem_of_app. right.
    apply elem_of_app. left. apply elem_of_walking_edges_of.
    exists (sample_stop 2 2000), (sample_stop 6 2300),
           (sample_rs 2 1 2 2 (Some 2) 2000), (sample_rs 4 2 6 1 None 2300).
    split; [cbn; apply list_elem_of_further, list_elem_of_here|].
    split; [cbn; do 5 apply list_elem_of_further; apply list_elem_of_here|].
    split; [reflexivity|]. split; [done|].
    split; [cbn; apply list_elem_of_further, list_elem_of_here|].
    split; [reflexivity|].
    split; [cbn; do 3 apply list_elem_of_further; apply list_elem_of_here|].
    split; [reflexivity|]. split; [done|].
    reflexivity.
Defined.

(** * Requests without a trip *)

Lemma find_route_searches M gis fuel payload db g route_stops rs_map k d :
  within_range M payload →
  ¬ no_stop_near gis db (from_location payload) →
  ¬ no_stop_near gis db (to_location payload) →
  boards route_stops
    (candidates gis db (loc_lat (from_location payload))
                       (loc_lng (from_location payload))) k d →
  find_route M gis fuel payload db (g, route_stops, rs_map)
  = (lookups payload ++ [GraphSearch],
     found ← dijkstra fuel g
               (start_costs route_stops
                  (candidates gis db (loc_lat (from_location payload))
                                     (loc_lng (from_location payload))))
               (end_costs
                  (candidates gis db (loc_lat (to_location payload))
                                     (loc_lng (to_location payload))))
               rs_map;
     after_search M fuel rs_map
       (candidates gis db (loc_lat (from_location payload))
                          (loc_lng (from_location payload)))
       (candidates gis db (loc_lat (to_location payload))
                          (loc_lng (to_location payload))) found).
Proof.
  intros Hrange Hfrom Hto Hboards. rewrite find_route_cases. cbn zeta.
  rewrite <- candidates_nil in Hfrom, Hto.
  rewrite decide_True by done. rewrite decide_False by tauto.
  rewrite decide_False; [done|].
  intros Hempty. by apply (proj1 (start_costs_empty _ _) Hempty k d).
Qed.

(** X12.  When the request is within range, both ends have candidates, a
    stop-assignment is at a start candidate's stop, the graph has
    non-negative weights and indexed nodes, and no start-to-destination
    combination exists, [find_route] makes its two lookups and one graph
    search and answers 404, no path found. *)
Theorem no_path_found M gis payload db g route_stops rs_map k d :
  let start_candidates :=
    candidates gis db (loc_lat (from_location payload))
                      (loc_lng (from_location payload)) in
  let end_candidates :=
    candidates gis db (loc_lat (to_location payload))
                      (loc_lng (to_location payload)) in
  within_range M payload →
  ¬ no_stop_near gis db (from_location payload) →
  ¬ no_stop_near gis db (to_location payload) →
  boards route_stops start_candidates k d →
  nonneg_weights g →
  nodes_indexed g (start_costs route_stops start_candidates) rs_map →
  (∀ v t, ¬ trip_total g (start_costs route_stops start_candidates)
              (end_costs end_candidates) rs_map v t) →
  ∃ n, ∀ fuel, (n <= fuel)%nat →
    find_route M gis fuel payload db (g, route_stops, rs_map)
    = (lookups payload ++ [GraphSearch],
       Raise (HTTPException 404 "No path found between these locations.")).
Proof.
  intros start_candidates end_candidates Hrange Hfrom Hto Hboards Hnonneg
         Hindexed Hnone.
  destruct (dijkstra_loop_terminates _ _ (end_costs end_candidates) _
              Hnonneg Hindexed _ _
              (search_init_inv _ _ (end_costs end_candidates) _ Hindexed)
              (le_n _))
    as (best & pv & Hrun & Hbest).
  eexists. intros fuel Hfuel.
  rewrite (find_route_searches M gis fuel payload db g route_stops rs_map k d)
    by done.
  fold start_candidates end_candidates. unfold dijkstra.
  rewrite (Hrun fuel Hfuel). cbn [mbind result_bind after_search].
  destruct best as [e|]; [|done].
  destruct Hbest as (t & Ht & _). by destruct (Hnone e t).
Qed.

Lemma no_path_found_witness :
  ∃ n, ∀ fuel, (n <= fuel)%nat →
    find_route series_math grid_gis fuel (sample_request 0.08 0) sample_db
      sample_transit_data
    = (lookups (sample_request 0.08 0) ++ [GraphSearch],
       Raise (HTTPException 404 "No path found between these locations.")).
Proof.
  assert (Hkeys : ∀ s c,
            start_costs sample_route_stops (candidates grid_gis sample_db 0 0.08)
              !! s = Some c → s = 6%Z).
  { intros s c Hs. apply elem_of_map_to_list in Hs. vm_compute in Hs.
    apply list_elem_of_singleton in Hs. congruence. }
  apply (no_path_found series_math grid_gis (sample_request 0.08 0) sample_db
           (add_edges (all_edges grid_gis sample_db) ∅) sample_route_stops
           sample_rs_map 6%Z
           (ST_Distance grid_gis (location (sample_stop 5 8000)) (0.08, 0)
            / 1000.0)).
  - by vm_compute.
  - intros Hnone. specialize (Hnone (sample_stop 5 8000)).
    discriminate Hnone. cbn. do 4 apply list_elem_of_further.
    apply list_elem_of_here.
  - intros Hnone. specialize (Hnone (sample_stop 1 0)).
    discriminate Hnone. cbn. apply list_elem_of_here.
  - exists (sample_rs 6 2 5 3 (Some 4) 8000), (sample_stop 5 8000).
    split; [cbn; do 5 apply list_elem_of_further; apply list_elem_of_here|].
    split; [|done]. apply (list_elem_of_lookup_2 _ 0%nat).
    vm_compute. reflexivity.
  - apply (built_graph_nonneg grid_gis sample_db grid_distance_nonneg
             sample_db_monotone).
  - apply (built_graph_indexed grid_gis sample_db).
  - intros v t (r & rs & c & (s & c0 & cw & Hs & Hwalk & _) & Hrs & Hc & _).
    apply Hkeys in Hs. subst s.
    assert (v = 6%Z) as ->.
    { clear Hrs Hc Hkeys. remember 6%Z as u eqn:Hu.
      induction Hwalk as [|u v x w cw Hwalk IH Hedge]; [done|].
      rewrite (IH Hu), Hu in Hedge. vm_compute in Hedge.
      by apply elem_of_nil in Hedge. }
    vm_compute in Hrs. injection Hrs as <-. vm_compute in Hc. done.
Defined.

(** * Trips the assembler answers *)

Lemma assemble_loop_ok M rest : ∀ pre acc,
  Forall (fun s => s ≠ []) (pre ++ rest) →
  Forall ends_known rest →
  ∃ acc' recs,
    for_each (zip (seq (length pre) (length rest)) rest)
             (assemble_segment M (pre ++ rest)) acc = Ok acc'
    ∧ route_segments_data acc' = route_segments_data acc ++ recs
    ∧ map segment_stops recs = map stops_of rest
    ∧ map (fun r => summary_ticket_price (segment_route r)) recs
      = map segment_price rest
    ∧ total_cost acc' == total_cost acc + prices_total rest
    ∧ ∀ j r, recs !! j = Some r →
             (transfer_from_previous r = None ↔ (length pre + j = 0)%nat).
Proof.
  induction rest as [|seg rest IH]; intros pre acc Hall Hknown.
  - exists acc, []. cbn. rewrite app_nil_r. repeat split; try done; lra.
  - cbn [length seq zip zip_with for_each].
    assert (seg ≠ []) as Hne.
    { apply Forall_app in Hall as [_ [? _]%Forall_cons]. done. }
    apply Forall_cons in Hknown as [Hseg Hknown].
    destruct (head seg) as [f|] eqn:Hf; [|by apply head_None in Hf].
    destruct (last seg) as [l|] eqn:Hl; [|by apply last_None in Hl].
    destruct (Hseg f (or_introl Hf)) as [df Hdf].
    destruct (Hseg l (or_intror Hl)) as [dl Hdl].
    assert (segment_price seg
            = ticket_price_or_default (ticket_price (route (rs_direction f))))
      as Hprice.
    { destruct seg; [done|]. by injection Hf as ->. }
    assert (∃ acc1 r1,
              assemble_segment M (pre ++ seg :: rest) (length pre, seg) acc
              = Ok acc1
              ∧ route_segments_data acc1 = route_segments_data acc ++ [r1]
              ∧ segment_stops r1 = stops_of seg
              ∧ summary_ticket_price (segment_route r1) = segment_price seg
              ∧ total_cost acc1 = total_cost acc + segment_price seg
              ∧ (transfer_from_previous r1 = None ↔ length pre = 0%nat))
      as (acc1 & r1 & Hstep & Hdata & Hstops & Hticket & Hcost & Htransfer).
    { destruct pre as [|pv pre _] using rev_ind.
      - eexists _, _. split;
          [apply (assemble_segment_first M _ seg f l df dl acc); done|].
        cbn. rewrite Hprice. done.
      - assert (pv ≠ []) as Hpv.
        { apply Forall_app in Hall as [[_ [? _]%Forall_cons]%Forall_app _]. done. }
        destruct (last pv) as [p|] eqn:Hp; [|by apply last_None in Hp].
        rewrite length_app. cbn [length].
        replace (length pre + 1)%nat with (S (length pre)) by lia.
        eexists _, _. split.
        + apply (assemble_segment_next M _ (length pre) seg f l df dl pv p acc);
            try done.
          rewrite <- app_assoc. cbn [app]. by apply list_lookup_middle.
        + cbn. rewrite Hprice. repeat split; try done. }
    rewrite Hstep. cbn [mbind result_bind].
    specialize (IH (pre ++ [seg]) acc1).
    rewrite length_app, <- app_assoc in IH. cbn [length app] in IH.
    replace (length pre + 1)%nat with (S (length pre)) in IH by lia.
    destruct (IH Hall Hknown)
      as (acc' & recs & Hloop & Hdata' & Hstops' & Hticket' & Hcost' & Htransfer').
    exists acc', (r1 :: recs). split; [done|].
    split; [by rewrite Hdata', Hdata, <- app_assoc|].
    split; [cbn; by rewrite Hstops, Hstops'|].
    split; [cbn; by rewrite Hticket, Hticket'|].
    split; [rewrite Hcost', Hcost;
            change (prices_total (seg :: rest))
              with (segment_price seg + prices_total rest); ring|].
    intros [|j] r Hr; cbn in Hr.
    + injection Hr as <-. rewrite Htransfer. lia.
    + rewrite (Htransfer' j r Hr). lia.
Qed.

Lemma resolves_head rs_map path_ids nodes i :
  resolves rs_map path_ids nodes → head path_ids = Some i →
  ∃ rs, head nodes = Some rs ∧ rs_map !! i = Some rs.
Proof.
  intros Hres Hi. destruct Hres as [|i' rs ids nodes Hrs _]; [done|].
  injection Hi as ->. by exists rs.
Qed.

Lemma resolves_last rs_map path_ids nodes i :
  resolves rs_map path_ids nodes → last path_ids = Some i →
  ∃ rs, last nodes = Some rs ∧ rs_map !! i = Some rs.
Proof.
  intros Hres Hi. rewrite last_lookup in Hi.
  destruct (Forall2_lookup_l _ _ _ _ _ Hres Hi) as (rs & Hrs & Hmap).
  exists rs. split; [|done].
  rewrite last_lookup, <- (Forall2_length _ _ _ Hres). done.
Qed.

Lemma assemble_trip_ok M rs_map path_ids nodes segments
    start_candidates end_candidates :
  path_ids ≠ [] →
  resolves rs_map path_ids nodes →
  group_segments rs_map path_ids = Ok segments →
  Forall ends_known segments →
  ∃ resp f l recs,
    assemble_trip M rs_map path_ids start_candidates end_candidates = Ok resp
    ∧ head nodes = Some f ∧ last nodes = Some l
    ∧ trip_from_stop (summary resp) = stop_info (rs_stop f)
    ∧ trip_to_stop (summary resp) = stop_info (rs_stop l)
    ∧ route_segments resp = recs
    ∧ map segment_stops recs = map stops_of segments
    ∧ map (fun r => summary_ticket_price (segment_route r)) recs
      = map segment_price segments
    ∧ trip_total_cost (summary resp) == prices_total segments
    ∧ ∀ j r, recs !! j = Some r →
             (transfer_from_previous r = None ↔ j = 0%nat).
Proof.
  intros Hne Hres Hgroup Hknown.
  destruct (group_segments_runs rs_map path_ids nodes Hne Hres)
    as (segments' & Hgroup' & (_ & Hall & _) & _).
  rewrite Hgroup in Hgroup'. injection Hgroup' as <-.
  assert (Forall (fun s : list RouteStop => s ≠ []) ([] ++ segments)) as Hnonempty.
  { cbn. eapply Forall_impl; [exact Hall|]. by intros seg [? _]. }
  destruct (assemble_loop_ok M segments []
              {| total_duration_mins := 0.0; total_cost := 0.0;
                 total_dist_km := 0.0; route_segments_data := [] |}
              Hnonempty Hknown)
    as (acc & recs & Hloop & Hdata & Hstops & Hticket & Hcost & Htransfer).
  destruct (head path_ids) as [i|] eqn:Hi; [|by apply head_None in Hi].
  destruct (last path_ids) as [j|] eqn:Hj; [|by apply last_None in Hj].
  destruct (resolves_head _ _ _ _ Hres Hi) as (f & Hf & Hfmap).
  destruct (resolves_last _ _ _ _ Hres Hj) as (l & Hl & Hlmap).
  eexists _, f, l, recs. split.
  - unfold assemble_trip. rewrite Hgroup. cbn [mbind result_bind].
    unfold assemble_segments. cbn [app length] in Hloop. rewrite Hloop.
    cbn [mbind result_bind]. unfold summarise.
    rewrite (py_first_Some _ _ Hi). cbn [mbind result_bind].
    rewrite (py_getitem_Some _ _ _ Hfmap). cbn [mbind result_bind].
    rewrite (py_last_Some _ _ Hj). cbn [mbind result_bind].
    rewrite (py_getitem_Some _ _ _ Hlmap). cbn [mbind result_bind].
    reflexivity.
  - cbn in Hdata, Hcost. cbn [summary route_segments trip_from_stop trip_to_stop
                               trip_total_cost].
    split; [done|]. split; [done|]. split; [done|]. split; [done|].
    split; [done|]. split; [done|]. split; [done|].
    split; [rewrite Hcost; ring|].
    intros j0 r Hr. by rewrite (Htransfer j0 r Hr).
Qed.

(** X13.  For a non-empty path in the node index whose segments all begin
    and end at stop-assignments with a recorded distance, the assembler
    answers with a trip: one record per segment, in order, listing that
    segment's stops and carrying its route's ticket price; only the first
    record has no transfer; the total cost is the sum of the segments'
    ticket prices; the trip's first and last stop are those of the first
    and last node of the path. *)
Theorem assemble_trip_answers M rs_map path_ids nodes segments
    start_candidates end_candidates :
  path_ids ≠ [] →
  resolves rs_map path_ids nodes →
  group_segments rs_map path_ids = Ok segments →
  Forall ends_known segments →
  ∃ resp f l,
    assemble_trip M rs_map path_ids start_candidates end_candidates = Ok resp
    ∧ length (route_segments resp) = S (direction_changes nodes)
    ∧ map segment_stops (route_segments resp) = map stops_of segments
    ∧ concat (map segment_stops (route_segments resp)) = stops_of nodes
    ∧ (∀ j r, route_segments resp !! j = Some r →
              (transfer_from_previous r = None ↔ j = 0%nat))
    ∧ map (fun r => summary_ticket_price (segment_route r)) (route_segments resp)
      = map segment_price segments
    ∧ trip_total_cost (summary resp) == prices_total segments
    ∧ head nodes = Some f ∧ last nodes = Some l
    ∧ trip_from_stop (summary resp) = stop_info (rs_stop f)
    ∧ trip_to_stop (summary resp) = stop_info (rs_stop l).
Proof.
  intros Hne Hres Hgroup Hknown.
  destruct (assemble_trip_ok M rs_map path_ids nodes segments start_candidates
              end_candidates Hne Hres Hgroup Hknown)
    as (resp & f & l & recs & Hok & Hf & Hl & Hfrom & Hto & Hrecs & Hstops
        & Hticket & Hcost & Htransfer).
  destruct (group_segments_runs rs_map path_ids nodes Hne Hres)
    as (segments' & Hgroup' & (Hconcat & _ & _) & Hlen).
  rewrite Hgroup in Hgroup'. injection Hgroup' as <-.
  exists resp, f, l. rewrite Hrecs. repeat split; try done.
  - rewrite <- Hlen, <- (length_map segment_stops), Hstops. by rewrite length_map.
  - rewrite Hstops, <- Hconcat. unfold stops_of.
    clear. induction segments as [|seg segs IH]; [done|].
    cbn. by rewrite map_app, IH.
  - by apply Htransfer.
  - by apply Htransfer.
Qed.

Lemma assemble_trip_answers_witness :
  ∃ resp f l,
    assemble_trip series_math sample_rs_map [1; 2; 3; 5; 6]%Z [] [] = Ok resp
    ∧ length (route_segments resp)
      = S (direction_changes
             [ sample_rs 1 1 1 1 (Some 0) 0; sample_rs 2 1 2 2 (Some 2) 2000;
               sample_rs 3 1 3 3 (Some 5) 5000; sample_rs 5 2 4 2 (Some 1) 5100;
               sample_rs 6 2 5 3 (Some 4) 8000 ])
    ∧ map segment_stops (route_segments resp)
      = map stops_of
          [ [ sample_rs 1 1 1 1 (Some 0) 0; sample_rs 2 1 2 2 (Some 2) 2000;
              sample_rs 3 1 3 3 (Some 5) 5000 ];
            [ sample_rs 5 2 4 2 (Some 1) 5100; sample_rs 6 2 5 3 (Some 4) 8000 ] ]
    ∧ concat (map segment_stops (route_segments resp))
      = stops_of
          [ sample_rs 1 1 1 1 (Some 0) 0; sample_rs 2 1 2 2 (Some 2) 2000;
            sample_rs 3 1 3 3 (Some 5) 5000; sample_rs 5 2 4 2 (Some 1) 5100;
            sample_rs 6 2 5 3 (Some 4) 8000 ]
    ∧ (∀ j r, route_segments resp !! j = Some r →
              (transfer_from_previous r = None ↔ j = 0%nat))
    ∧ map (fun r => summary_ticket_price (segment_route r)) (route_segments resp)
      = map segment_price
          [ [ sample_rs 1 1 1 1 (Some 0) 0; sample_rs 2 1 2 2 (Some 2) 2000;
              sample_rs 3 1 3 3 (Some 5) 5000 ];
            [ sample_rs 5 2 4 2 (Some 1) 5100; sample_rs 6 2 5 3 (Some 4) 8000 ] ]
    ∧ trip_total_cost (summary resp)
      == prices_total
           [ [ sample_rs 1 1 1 1 (Some 0) 0; sample_rs 2 1 2 2 (Some 2) 2000;
               sample_rs 3 1 3 3 (Some 5) 5000 ];
             [ sample_rs 5 2 4 2 (Some 1) 5100; sample_rs 6 2 5 3 (Some 4) 8000 ] ]
    ∧ head [ sample_rs 1 1 1 1 (Some 0) 0; sample_rs 2 1 2 2 (Some 2) 2000;
             sample_rs 3 1 3 3 (Some 5) 5000; sample_rs 5 2 4 2 (Some 1) 5100;
             sample_rs 6 2 5 3 (Some 4) 8000 ] = Some f
    ∧ last [ sample_rs 1 1 1 1 (Some 0) 0; sample_rs 2 1 2 2 (Some 2) 2000;
             sample_rs 3 1 3 3 (Some 5) 5000; sample_rs 5 2 4 2 (Some 1) 5100;
             sample_rs 6 2 5 3 (Some 4) 8000 ] = Some l
    ∧ trip_from_stop (summary resp) = stop_info (rs_stop f)
    ∧ trip_to_stop (summary resp) = stop_info (rs_stop l).
Proof.
  apply (assemble_trip_answers series_math sample_rs_map [1; 2; 3; 5; 6]%Z).
  - done.
  - repeat constructor.
  - reflexivity.
  - repeat constructor; intros x [[= <-]|[= <-]]; by eexists.
Defined.

(** * Requests with a trip *)

Lemma path_resolves g rs_map path cost :
  path_weight g path cost →
  (∀ u v w, (v, w) ∈ adj g u → is_Some (rs_map !! v)) →
  ∀ s, head path = Some s → is_Some (rs_map !! s) →
  ∃ nodes, resolves rs_map path nodes.
Proof.
  intros Hpath Htargets.
  induction Hpath as [u|u v rest w c Hedge Hpath IH]; intros s [= ->] [rs Hrs].
  - exists [rs]. by repeat constructor.
  - destruct (IH v eq_refl (Htargets _ _ _ Hedge)) as [nodes Hnodes].
    exists (rs :: nodes). by constructor.
Qed.

Lemma known_nodes_ends_known rs_map path_ids nodes segments :
  (∀ i rs, rs_map !! i = Some rs → is_Some (distance_from_start rs)) →
  resolves rs_map path_ids nodes →
  concat segments = nodes →
  Forall ends_known segments.
Proof.
  intros Hknown Hres Hconcat. apply Forall_forall. intros seg Hseg x Hx.
  assert (x ∈ seg) as Hin.
  { destruct Hx as [Hx|Hx].
    - destruct seg; [done|]. injection Hx as ->. by left.
    - rewrite last_lookup in Hx. by eapply list_elem_of_lookup_2. }
  assert (x ∈ nodes) as [j Hj]%list_elem_of_lookup.
  { rewrite <- Hconcat. clear -Hseg Hin.
    induction segments as [|seg' segments IH]; [by apply elem_of_nil in Hseg|].
    cbn. apply elem_of_app.
    apply elem_of_cons in Hseg as [->|Hseg]; [by left|right; by apply IH]. }
  destruct (Forall2_lookup_r _ _ _ _ _ Hres Hj) as (i & _ & Hi).
  by apply (Hknown i).
Qed.

(** X14.  When the request is within range, both ends have candidates, the
    graph has non-negative weights and indexed nodes, no node has id 0,
    every indexed stop-assignment has a recorded distance, and some
    start-to-destination combination exists, [find_route] makes its two
    lookups and one graph search and answers with a trip: it boards at a
    stop-assignment that has an initial cost and alights at a
    stop-assignment of an end candidate's stop. *)
Theorem find_route_answers M gis payload db g route_stops rs_map v t :
  let start_candidates :=
    candidates gis db (loc_lat (from_location payload))
                      (loc_lng (from_location payload)) in
  let end_candidates :=
    candidates gis db (loc_lat (to_location payload))
                      (loc_lng (to_location payload)) in
  within_range M payload →
  ¬ no_stop_near gis db (from_location payload) →
  ¬ no_stop_near gis db (to_location payload) →
  nonneg_weights g →
  nodes_indexed g (start_costs route_stops start_candidates) rs_map →
  rs_map !! 0%Z = None →
  (∀ i rs, rs_map !! i = Some rs → is_Some (distance_from_start rs)) →
  trip_total g (start_costs route_stops start_candidates)
    (end_costs end_candidates) rs_map v t →
  ∃ n resp s e rs_s rs_e c0 c,
    (∀ fuel, (n <= fuel)%nat →
       find_route M gis fuel payload db (g, route_stops, rs_map)
       = (lookups payload ++ [GraphSearch], Ok resp))
    ∧ start_costs route_stops start_candidates !! s = Some c0
    ∧ rs_map !! s = Some rs_s
    ∧ rs_map !! e = Some rs_e
    ∧ end_costs end_candidates !! rs_stop_id rs_e = Some c
    ∧ trip_from_stop (summary resp) = stop_info (rs_stop rs_s)
    ∧ trip_to_stop (summary resp) = stop_info (rs_stop rs_e)
    ∧ route_segments resp ≠ [].
Proof.
  intros start_candidates end_candidates Hrange Hfrom Hto Hnonneg Hindexed
         Hzero Hknown Htrip.
  destruct (search_chain g _ (end_costs end_candidates) rs_map Hnonneg Hindexed)
    as (n & best & pv & Hrun & Hbest).
  destruct best as [e|]; [|by destruct (Hbest v t)].
  destruct Hbest
    as (k & s & c0 & cost & rs_e & c & Hk & Hanc & Hroot & Hs & Hpath & Hrs & Hc
        & _).
  pose proof (chain_head pv k e s Hanc) as Hhead.
  assert (last (reverse ([e] ++ chain_list pv k e)) = Some e) as Hlast.
  { by rewrite last_reverse. }
  assert (reverse ([e] ++ chain_list pv k e) ≠ []) as Hne.
  { intros Hnil. by rewrite Hnil in Hhead. }
  destruct Hindexed as [Hstarts Htargets].
  destruct (path_resolves g rs_map _ cost Hpath Htargets s Hhead
              (Hstarts s (mk_is_Some _ _ Hs)))
    as [nodes Hres].
  destruct (group_segments_runs rs_map _ nodes Hne Hres)
    as (segments & Hgroup & (Hconcat & _ & _) & Hlen).
  pose proof (known_nodes_ends_known rs_map _ nodes segments Hknown Hres Hconcat)
    as Hends.
  destruct (assemble_trip_ok M rs_map _ nodes segments start_candidates
              end_candidates Hne Hres Hgroup Hends)
    as (resp & f & l & recs & Hok & Hf & Hl & Hfrom' & Hto' & Hrecs & Hstops & _).
  destruct (resolves_head _ _ _ _ Hres Hhead) as (f' & Hf' & Hfmap).
  destruct (resolves_last _ _ _ _ Hres Hlast) as (l' & Hl' & Hlmap).
  assert (f' = f) as -> by congruence.
  assert (l' = l) as -> by congruence.
  assert (l = rs_e) as -> by congruence.
  exists n, resp, s, e, f, rs_e, c0, c.
  split; [|repeat split; try done].
  - intros fuel Hfuel. rewrite find_route_cases. cbn zeta.
    rewrite <- candidates_nil in Hfrom, Hto.
    rewrite decide_True by done. rewrite decide_False by tauto.
    rewrite decide_False.
    2:{ intros Hempty. fold start_candidates in Hempty.
        rewrite Hempty, lookup_empty in Hs. done. }
    fold start_candidates end_candidates.
    rewrite (Hrun fuel Hfuel). cbn [mbind result_bind after_search].
    assert (e ≠ 0%Z) as He by (intros ->; congruence).
    rewrite (rebuild_path_reverse pv k e s fuel) by (done || lia).
    destruct e as [|p|p]; [done|..]; cbn [mbind result_bind]; by rewrite Hok.
  - rewrite Hrecs. intros ->. apply (f_equal length) in Hstops.
    rewrite !length_map, Hlen in Hstops. done.
Qed.

Lemma edited_db_monotone : monotone_distances edited_db.
Proof.
  intros a b da db' Ha Hb Hdir Hord Hda Hdb. cbn in Ha, Hb.
  repeat (apply elem_of_cons in Ha as [->|Ha]);
    try (by apply elem_of_nil in Ha);
    repeat (apply elem_of_cons in Hb as [->|Hb]);
    try (by apply elem_of_nil in Hb);
    cbn in *; try congruence; try lia; simplify_eq; lra.
Qed.

Lemma find_route_answers_witness :
  ∃ n resp s e rs_s rs_e c0 c,
    (∀ fuel, (n <= fuel)%nat →
       find_route series_math grid_gis fuel (sample_request 0 0.05) edited_db
         (add_edges (all_edges grid_gis edited_db) ∅, tbl_route_stops edited_db,
          make_rs_map (tbl_route_stops edited_db))
       = (lookups (sample_request 0 0.05) ++ [GraphSearch], Ok resp))
    ∧ start_costs (tbl_route_stops edited_db)
        (candidates grid_gis edited_db 0 0) !! s = Some c0
    ∧ make_rs_map (tbl_route_stops edited_db) !! s = Some rs_s
    ∧ make_rs_map (tbl_route_stops edited_db) !! e = Some rs_e
    ∧ end_costs (candidates grid_gis edited_db 0 0.05) !! rs_stop_id rs_e
      = Some c
    ∧ trip_from_stop (summary resp) = stop_info (rs_stop rs_s)
    ∧ trip_to_stop (summary resp) = stop_info (rs_stop rs_e)
    ∧ route_segments resp ≠ [].
Proof.
  eapply (find_route_answers series_math grid_gis (sample_request 0 0.05)
            edited_db).
  - by vm_compute.
  - intros Hnone. specialize (Hnone (sample_stop 1 0)).
    discriminate Hnone. cbn. apply list_elem_of_here.
  - intros Hnone. specialize (Hnone (sample_stop 3 5000)).
    discriminate Hnone. cbn. do 2 apply list_elem_of_further.
    apply list_elem_of_here.
  - apply (built_graph_nonneg grid_gis edited_db grid_distance_nonneg
             edited_db_monotone).
  - apply (built_graph_indexed grid_gis edited_db).
  - vm_compute. reflexivity.
  - intros i rs Hrs. apply elem_of_map_to_list in Hrs. vm_compute in Hrs.
    repeat (apply elem_of_cons in Hrs as [[= -> ->]|Hrs]); try by eexists.
    by apply elem_of_nil in Hrs.
  - eexists _, _, _. split; [|split; [|split; [|apply Qeq_refl]]].
    + exists 1%Z. eexists _, _. split; [vm_compute; reflexivity|].
      split; [|apply Qeq_refl].
      eapply walk_more.
      { eapply walk_more; [apply walk_here|].
        vm_compute. apply list_elem_of_here. }
      vm_compute. apply list_elem_of_here.
    + vm_compute. reflexivity.
    + vm_compute. reflexivity.
Defined.

(** * Errors and edge cases of the search *)

Lemma search_init_spec start_rs_costs :
  (∀ k c, dist (search_init start_rs_costs) !! k = Some c
          ↔ start_rs_costs !! k = Some c)
  ∧ (∀ c k, (c, k) ∈ pq (search_init start_rs_costs)
            ↔ start_rs_costs !! k = Some c).
Proof.
  unfold search_init.
  destruct (search_init_fold (map_to_list start_rs_costs) ∅ [])
    as (dist1 & pq1 & -> & Hdist & Hpq); [apply NoDup_fst_map_to_list|].
  rewrite app_nil_r in Hpq. cbn [dist pq]. split.
  - intros k c. rewrite Hdist, elem_of_map_to_list, lookup_empty. naive_solver.
  - intros c k. rewrite Hpq, list_elem_of_fmap. split.
    + intros ([k' c'] & [= -> ->] & Hin). by apply elem_of_map_to_list.
    + intros Hk. exists (k, c). split; [done|]. by apply elem_of_map_to_list.
Qed.

(** X15.  [dijkstra] reads the node index at every node it takes from the
    frontier: when there are start nodes and none of them is in the node
    index, the first turn of the loop raises [KeyError] for a start node. *)
Theorem search_start_not_indexed g start_rs_costs end_stop_costs rs_map fuel :
  start_rs_costs ≠ ∅ →
  (∀ s, is_Some (start_rs_costs !! s) → rs_map !! s = None) →
  ∃ s, is_Some (start_rs_costs !! s)
       ∧ dijkstra (S fuel) g start_rs_costs end_stop_costs rs_map
         = Raise (KeyError s).
Proof.
  intros Hne Hnone. destruct (search_init_spec start_rs_costs) as [Hdist Hpq].
  unfold dijkstra. cbn [dijkstra_loop].
  destruct (heappop (pq (search_init start_rs_costs)))
    as [[[d u] pq']|] eqn:Hpop.
  - assert ((d, u) ∈ pq (search_init start_rs_costs)) as Hin.
    { rewrite (heappop_perm _ _ _ Hpop). by left. }
    apply Hpq in Hin. exists u. split; [by eexists|].
    rewrite (proj2 (Hdist u d) Hin).
    rewrite (proj2 (Qgt_inf_false d (Some d))).
    2:{ intros y [= <-]. apply Qle_refl. }
    unfold py_getitem. rewrite (Hnone u) by (by eexists). done.
  - apply heappop_None in Hpop. exfalso. apply Hne, map_empty. intros k.
    destruct (start_rs_costs !! k) as [c|] eqn:Hk; [|done].
    apply Hpq in Hk. rewrite Hpop in Hk. by apply elem_of_nil in Hk.
Qed.

Lemma search_start_not_indexed_witness :
  ∃ s, is_Some (diamond_starts !! s)
       ∧ dijkstra 1 diamond_graph diamond_starts diamond_ends ∅
         = Raise (KeyError s).
Proof.
  apply (search_start_not_indexed diamond_graph diamond_starts diamond_ends ∅ 0).
  - apply map_non_empty_singleton.
  - intros s _. apply lookup_empty.
Defined.

(** X16.  The test of line 56 takes node id 0 for no node: when the cheapest
    combination ends at the stop-assignment with id 0, and every other one
    costs more, [find_route] answers 404, no path found, although a trip
    exists. *)
Theorem node_zero_not_found M gis payload db g route_stops rs_map t0 :
  let start_candidates :=
    candidates gis db (loc_lat (from_location payload))
                      (loc_lng (from_location payload)) in
  let end_candidates :=
    candidates gis db (loc_lat (to_location payload))
                      (loc_lng (to_location payload)) in
  within_range M payload →
  ¬ no_stop_near gis db (from_location payload) →
  ¬ no_stop_near gis db (to_location payload) →
  nonneg_weights g →
  nodes_indexed g (start_costs route_stops start_candidates) rs_map →
  trip_total g (start_costs route_stops start_candidates)
    (end_costs end_candidates) rs_map 0%Z t0 →
  (∀ v t', trip_total g (start_costs route_stops start_candidates)
             (end_costs end_candidates) rs_map v t' →
           v ≠ 0%Z → t0 < t') →
  ∃ n, ∀ fuel, (n <= fuel)%nat →
    find_route M gis fuel payload db (g, route_stops, rs_map)
    = (lookups payload ++ [GraphSearch],
       Raise (HTTPException 404 "No path found between these locations.")).
Proof.
  intros start_candidates end_candidates Hrange Hfrom Hto Hnonneg Hindexed
         Hzero Hothers.
  destruct (search_chain g _ (end_costs end_candidates) rs_map Hnonneg Hindexed)
    as (n & best & pv & Hrun & Hbest).
  exists n. intros fuel Hfuel.
  rewrite find_route_cases. cbn zeta.
  rewrite <- candidates_nil in Hfrom, Hto.
  rewrite decide_True by done. rewrite decide_False by tauto.
  rewrite decide_False.
  2:{ intros Hempty. destruct Hzero as (? & ? & ? & (s & c0 & ? & Hs & _) & _).
      fold start_candidates in Hempty. rewrite Hempty, lookup_empty in Hs. done. }
  fold start_candidates end_candidates.
  rewrite (Hrun fuel Hfuel). cbn [mbind result_bind after_search].
  destruct best as [e|]; [|done].
  destruct Hbest
    as (k & s & c0 & cost & rs & c & Hk & Hanc & Hroot & Hs & Hpath & Hrs & Hc
        & Hmin).
  pose proof (chain_trip_total _ _ _ _ _ _ _ _ _ _ _ _ Hanc Hs Hpath Hrs Hc)
    as Htrip.
  destruct (decide (e = 0%Z)) as [->|He]; [done|].
  pose proof (Hothers e _ Htrip He). pose proof (Hmin 0%Z t0 Hzero). lra.
Qed.

Lemma zero_db_monotone : monotone_distances zero_db.
Proof.
  intros a b da db' Ha Hb _ _ Hda Hdb. cbn in Ha, Hb.
  apply list_elem_of_singleton in Ha, Hb. subst. cbn in *. simplify_eq. lra.
Qed.

Lemma node_zero_not_found_witness :
  ∃ n, ∀ fuel, (n <= fuel)%nat →
    find_route series_math grid_gis fuel (sample_request 0 0) zero_db
      (add_edges (all_edges grid_gis zero_db) ∅, tbl_route_stops zero_db,
       make_rs_map (tbl_route_stops zero_db))
    = (lookups (sample_request 0 0) ++ [GraphSearch],
       Raise (HTTPException 404 "No path found between these locations.")).
Proof.
  assert (Hkeys : ∀ s c,
            start_costs (tbl_route_stops zero_db) (candidates grid_gis zero_db 0 0)
              !! s = Some c → s = 0%Z).
  { intros s c Hs. apply elem_of_map_to_list in Hs. vm_compute in Hs.
    apply list_elem_of_singleton in Hs. congruence. }
  eapply (node_zero_not_found series_math grid_gis (sample_request 0 0) zero_db).
  - by vm_compute.
  - intros Hnone. specialize (Hnone (sample_stop 1 0)).
    discriminate Hnone. cbn. apply list_elem_of_here.
  - intros Hnone. specialize (Hnone (sample_stop 1 0)).
    discriminate Hnone. cbn. apply list_elem_of_here.
  - apply (built_graph_nonneg grid_gis zero_db grid_distance_nonneg
             zero_db_monotone).
  - apply (built_graph_indexed grid_gis zero_db).
  - eexists _, _, _. split; [|split; [|split; [|apply Qeq_refl]]].
    + exists 0%Z. eexists _, _. split; [vm_compute; reflexivity|].
      split; [apply walk_here|apply Qeq_refl].
    + vm_compute. reflexivity.
    + vm_compute. reflexivity.
  - intros v t' (r & rs & c & (s & c0 & cw & Hs & Hwalk & _) & _) Hv.
    apply Hkeys in Hs. subst s. exfalso. apply Hv. clear Hv Hkeys.
    remember 0%Z as u eqn:Hu.
    induction Hwalk as [|u v x w cw Hwalk IH Hedge]; [done|].
    rewrite (IH Hu), Hu in Hedge. vm_compute in Hedge.
    by apply elem_of_nil in Hedge.
Defined.

(** * The node index and the transfers at one stop *)

Lemma make_rs_map_snoc rss rs :
  make_rs_map (rss ++ [rs]) = <[rs_id rs := rs]> (make_rs_map rss).
Proof. unfold make_rs_map. by rewrite fold_left_app. Qed.

Lemma make_rs_map_elem rss k rs :
  make_rs_map rss !! k = Some rs → rs ∈ rss ∧ rs_id rs = k.
Proof.
  induction rss as [|x rss IH] using rev_ind; [done|].
  rewrite make_rs_map_snoc. destruct (decide (rs_id x = k)) as [<-|Hne].
  - rewrite lookup_insert_eq. intros [= <-]. split; [|done].
    apply elem_of_app. right. by left.
  - rewrite lookup_insert_ne by done. intros [Hin Hk]%IH. split; [|done].
    apply elem_of_app. by left.
Qed.

Lemma make_rs_map_lookup rss rs :
  NoDup (rs_id <$> rss) → rs ∈ rss → make_rs_map rss !! rs_id rs = Some rs.
Proof.
  intros Hnd Hin. destruct (make_rs_map_indexed rss rs Hin) as [rs' Hrs'].
  destruct (make_rs_map_elem rss _ rs' Hrs') as [Hin' Hid].
  rewrite Hrs'. f_equal. symmetry.
  by apply (NoDup_fmap_elem_inj rs_id rss rs rs' Hnd Hin Hin').
Qed.

Lemma build_graph_sources_indexed gis db u v w :
  (v, w) ∈ adj (add_edges (all_edges gis db) ∅) u →
  is_Some (make_rs_map (tbl_route_stops db) !! u).
Proof.
  intros Hin%in_adj_build. unfold all_edges in Hin.
  apply elem_of_app in Hin as [Hin|Hin]; [|apply elem_of_app in Hin as [Hin|Hin]].
  - apply elem_of_ride_edges_db in Hin as [dir Hin].
    apply elem_of_ride_edges_of in Hin
      as (l1 & a & b & l2 & da & db' & Hsplit & -> & _).
    apply make_rs_map_indexed.
    apply (elem_of_direction_stops db dir a).
    rewrite Hsplit, !elem_of_app, !elem_of_cons. tauto.
  - apply elem_of_walking_edges_of in Hin
      as (sa & sb & rs_a & rs_b & _ & _ & _ & _ & Ha & _ & _ & _ & _ & [= -> _ _]).
    by apply make_rs_map_indexed.
  - apply elem_of_same_stop_edges_of in Hin
      as (a & b & Ha & _ & _ & _ & [= -> _ _]).
    by apply make_rs_map_indexed.
Qed.

(** X17.  The node index [build_graph] returns maps each id to the
    stop-assignment of the snapshot with that id, and to nothing else, when
    ids are unique; both ends of every edge of the graph are in it. *)
Theorem node_index_complete gis db :
  NoDup (rs_id <$> tbl_route_stops db) →
  ∃ g route_stops rs_map,
    build_graph gis db None
    = (Ok (g, route_stops, rs_map), Some (g, route_stops, rs_map))
    ∧ route_stops = tbl_route_stops db
    ∧ (∀ k rs, rs_map !! k = Some rs ↔ rs ∈ route_stops ∧ rs_id rs = k)
    ∧ ∀ u v w, (v, w) ∈ adj g u →
               is_Some (rs_map !! u) ∧ is_Some (rs_map !! v).
Proof.
  intros Hnd. eexists _, _, _. split; [apply build_graph_fresh|].
  split; [done|]. split.
  - intros k rs. split; [apply make_rs_map_elem|].
    intros [Hin <-]. by apply make_rs_map_lookup.
  - intros u v w Hin. split.
    + by apply (build_graph_sources_indexed gis db u v w).
    + by apply (build_graph_targets_indexed gis db u v w).
Qed.

Lemma node_index_complete_witness :
  ∃ g route_stops rs_map,
    build_graph grid_gis sample_db None
    = (Ok (g, route_stops, rs_map), Some (g, route_stops, rs_map))
    ∧ route_stops = tbl_route_stops sample_db
    ∧ (∀ k rs, rs_map !! k = Some rs ↔ rs ∈ route_stops ∧ rs_id rs = k)
    ∧ ∀ u v w, (v, w) ∈ adj g u →
               is_Some (rs_map !! u) ∧ is_Some (rs_map !! v).
Proof. apply (node_index_complete grid_gis sample_db sample_route_stops_ids). Defined.

(** X18.  Two stop-assignments of different directions at one stop are
    joined by a same-stop transfer in both directions, each of weight 0.6. *)
Theorem same_stop_transfers_both_ways gis db a b :
  a ∈ tbl_route_stops db → b ∈ tbl_route_stops db →
  rs_stop_id a = rs_stop_id b →
  rs_direction_id a ≠ rs_direction_id b →
  ∃ g route_stops rs_map,
    build_graph gis db None
    = (Ok (g, route_stops, rs_map), Some (g, route_stops, rs_map))
    ∧ (rs_id b, TRANSFER_PENALTY) ∈ adj g (rs_id a)
    ∧ (rs_id a, TRANSFER_PENALTY) ∈ adj g (rs_id b).
Proof.
  intros Ha Hb Hstop Hdir. eexists _, _, _. split; [apply build_graph_fresh|].
  split; apply in_adj_build; unfold all_edges; apply elem_of_app; right;
    apply elem_of_app; right; apply elem_of_same_stop_edges_of.
  - by exists a, b.
  - by exists b, a.
Qed.

Lemma same_stop_transfers_both_ways_witness :
  ∃ g route_stops rs_map,
    build_graph grid_gis shared_stop_db None
    = (Ok (g, route_stops, rs_map), Some (g, route_stops, rs_map))
    ∧ (7%Z, TRANSFER_PENALTY) ∈ adj g 2%Z
    ∧ (2%Z, TRANSFER_PENALTY) ∈ adj g 7%Z.
Proof.
  apply (same_stop_transfers_both_ways grid_gis shared_stop_db
           (sample_rs 2 1 2 2 (Some 2) 2000) (sample_rs 7 3 2 1 (Some 0) 2000)).
  - cbn. apply list_elem_of_further, list_elem_of_here.
  - cbn. do 2 apply list_elem_of_further. apply list_elem_of_here.
  - reflexivity.
  - done.
Defined.
